(** * Verification of the request pipeline of the abhi-go-sdk client

    The development embeds the Go sources of package [client] (the
    [Client] with its transports and reconfiguration methods, the
    [AuthManager], the [RequestSigner], the [RateLimiter] and the
    credential encryption) as executable Rocq definitions and proves the
    properties stated by the design specification about them.

    Conventions.
    - Go's [int], [int64] and [time.Duration] are [Z]; where the source
      performs arithmetic that can leave the 64-bit range, the wrap-around
      is written out with [wrap64].
    - A [time.Time] is the number of nanoseconds since the Unix epoch.
    - Go strings and byte slices are [string] (sequences of 8-bit bytes).
    - [http.Header] (a [map[string][]string]) is a [gmap string (list string)].
    - The cryptographic functions of external libraries (SHA-256, HMAC,
      AES-GCM) and the JWT parser are fields of type classes; theorems
      state which of their documented properties they rely on.
    - A function that reads the clock, the random source or the network
      takes what it reads as an argument or from the [World]. *)

From Stdlib Require Import ZArith QArith Qround Qminmax Lqa Qfield.
From Stdlib Require Import Lia List Ascii String Bool.
From Stdlib Require Import DecimalString DecimalZ DecimalPos.
From stdpp Require Import gmap strings sorting.

Open Scope string_scope.
Open Scope list_scope.
Open Scope Z_scope.

(** ** Machine integers and durations *)

(** Two's complement reduction of a mathematical integer to [int64]. *)
Definition wrap64 (z : Z) : Z := (z + 2 ^ 63) mod 2 ^ 64 - 2 ^ 63.

Definition int64_sub (a b : Z) : Z := wrap64 (a - b).
Definition int64_mul (a b : Z) : Z := wrap64 (a * b).
Definition int64_neg (a : Z) : Z := wrap64 (- a).

(** [time.Duration(1<<uint(i))]: a shift count of 64 or more (which is
    what a negative [i] becomes after the conversion to [uint]) gives 0. *)
Definition int64_shl1 (i : Z) : Z :=
  if (0 <=? i) && (i <? 64) then wrap64 (2 ^ i) else 0.

Definition in_int64 (z : Z) : Prop := - 2 ^ 63 <= z < 2 ^ 63.

Definition Nanosecond : Z := 1.
Definition Millisecond : Z := 1000000.
Definition Second : Z := 1000000000.
Definition Minute : Z := 60 * Second.
Definition Hour : Z := 60 * Minute.

(** ** Time *)

Definition Time := Z.

(** [time.Time{}], January 1 of year 1, in nanoseconds relative to the
    Unix epoch. *)
Definition zeroTime : Time := -62135596800 * Second.

Definition Time_IsZero (t : Time) : bool := t =? zeroTime.
Definition Time_Add (t : Time) (d : Z) : Time := t + d.
Definition Time_Before (t u : Time) : bool := t <? u.
(** [t.Unix()]: whole seconds since the epoch, rounded down. *)
Definition Time_Unix (t : Time) : Z := t / Second.
(** [time.Unix(sec, 0)]. *)
Definition time_Unix (sec : Z) : Time := sec * Second.

(** ** Strings *)

Definition LF : string := String (ascii_of_nat 10) "".

(** [strings.Split(s, sep)] for a one-byte separator: [cur] holds the
    bytes of the token being read, in reverse. *)
Fixpoint Split_aux (sep : ascii) (s : string) (cur : string) : list string :=
  match s with
  | EmptyString => [String.rev cur]
  | String c s' =>
      if Ascii.eqb c sep then String.rev cur :: Split_aux sep s' ""
      else Split_aux sep s' (String c cur)
  end.

Definition strings_Split (s : string) (sep : ascii) : list string :=
  Split_aux sep s "".

(** [strings.Join] *)
Definition strings_Join (elems : list string) (sep : string) : string :=
  String.concat sep elems.

(** Go's [<=] on strings is the bytewise lexicographic order. *)
Definition string_le (s1 s2 : string) : Prop := String.leb s1 s2 = true.

#[global] Instance string_le_dec : RelDecision string_le.
Proof. intros s1 s2. unfold string_le. apply _. Defined.

(** [sort.Strings]: the library sort, increasing for [<]. *)
Definition sort_Strings (l : list string) : list string :=
  merge_sort string_le l.

(** The ASCII white space of [strings.TrimSpace]; bytes above 0x7f are
    kept (the Unicode space runes outside ASCII are not modelled). *)
Definition isSpace (c : ascii) : bool :=
  let n := N_of_ascii c in
  ((9 <=? n) && (n <=? 13))%N || (n =? 32)%N.

Fixpoint TrimLeft (s : string) : string :=
  match s with
  | EmptyString => ""
  | String c s' => if isSpace c then TrimLeft s' else s
  end.

Definition strings_TrimSpace (s : string) : string :=
  String.rev (TrimLeft (String.rev (TrimLeft s))).

(** [strconv.FormatInt(z, 10)] *)
Definition FormatInt (z : Z) : string := NilZero.string_of_int (Z.to_int z).

Definition digit_val (c : ascii) : option Z :=
  let n := Z.of_N (N_of_ascii c) in
  if (48 <=? n) && (n <=? 57) then Some (n - 48) else None.

Fixpoint parse_digits (s : string) (acc : Z) : option Z :=
  match s with
  | EmptyString => Some acc
  | String c s' =>
      match digit_val c with
      | Some d => parse_digits s' (acc * 10 + d)
      | None => None
      end
  end.

(** [strconv.ParseInt(s, 10, 64)]; [None] stands for a syntax or range
    error. *)
Definition ParseInt (s : string) : option Z :=
  match s with
  | EmptyString => None
  | String c s' =>
      let '(neg, digits) :=
        if Ascii.eqb c "+" then (false, s')
        else if Ascii.eqb c "-" then (true, s')
        else (false, s) in
      match digits with
      | EmptyString => None
      | _ =>
          match parse_digits digits 0 with
          | None => None
          | Some n =>
              if neg then (if n <=? 2 ^ 63 then Some (- n) else None)
              else (if n <? 2 ^ 63 then Some n else None)
          end
      end
  end.

Definition hexdigit (n : N) : ascii :=
  if (n <? 10)%N then ascii_of_N (48 + n) else ascii_of_N (87 + n).

(** [hex.EncodeToString] *)
Fixpoint hex_EncodeToString (s : string) : string :=
  match s with
  | EmptyString => ""
  | String c s' =>
      let n := N_of_ascii c in
      String (hexdigit (n / 16)) (String (hexdigit (n mod 16)) (hex_EncodeToString s'))
  end.

(** ** HTTP headers and requests *)

Definition isLower (c : ascii) : bool :=
  let n := N_of_ascii c in ((97 <=? n) && (n <=? 122))%N.
Definition isUpper (c : ascii) : bool :=
  let n := N_of_ascii c in ((65 <=? n) && (n <=? 90))%N.
Definition isDigit (c : ascii) : bool :=
  let n := N_of_ascii c in ((48 <=? n) && (n <=? 57))%N.

(** [textproto.validHeaderFieldByte]: the token characters of RFC 7230. *)
Definition validHeaderFieldByte (c : ascii) : bool :=
  isLower c || isUpper c || isDigit c
  || existsb (Ascii.eqb c) (list_ascii_of_string "!#$%&'*+-.^_`|~").

Fixpoint forallb_string (p : ascii -> bool) (s : string) : bool :=
  match s with
  | EmptyString => true
  | String c s' => p c && forallb_string p s'
  end.

Fixpoint canon_loop (upper : bool) (s : string) : string :=
  match s with
  | EmptyString => ""
  | String c s' =>
      let c' :=
        if upper && isLower c then ascii_of_N (N_of_ascii c - 32)
        else if negb upper && isUpper c then ascii_of_N (N_of_ascii c + 32)
        else c in
      String c' (canon_loop (Ascii.eqb c' "-") s')
  end.

(** [textproto.CanonicalMIMEHeaderKey]: a key made of token characters
    gets an upper-case letter first and after each dash and lower-case
    letters elsewhere; any other key is returned unchanged. *)
Definition CanonicalMIMEHeaderKey (s : string) : string :=
  if forallb_string validHeaderFieldByte s then canon_loop true s else s.

(** [Header.Get]: the first value stored under the canonical key. *)
Definition Header_Get (h : gmap string (list string)) (key : string) : string :=
  match h !! CanonicalMIMEHeaderKey key with
  | Some (v :: _) => v
  | _ => ""
  end.

(** [Header.Set] *)
Definition Header_Set (h : gmap string (list string)) (key value : string)
  : gmap string (list string) :=
  <[CanonicalMIMEHeaderKey key := [value]]> h.

(** The fields of [*http.Request] the pipeline reads or writes.  [Body]
    is [None] for a nil body and otherwise holds the bytes that are still
    unread in the stream; [ctxDone] is the instant at which the request's
    context is cancelled or reaches its deadline, if it ever does. *)
Record Request := mkRequest {
  Method : string;
  URL_Path : string;
  URL_RawQuery : string;
  Header : gmap string (list string);
  Body : option string;
  ctxDone : option Time
}.

Definition set_Header (req : Request) (h : gmap string (list string)) : Request :=
  mkRequest (Method req) (URL_Path req) (URL_RawQuery req) h (Body req) (ctxDone req).

Definition set_Body (req : Request) (b : option string) : Request :=
  mkRequest (Method req) (URL_Path req) (URL_RawQuery req) (Header req) b (ctxDone req).

Record Response := mkResponse {
  StatusCode : Z;
  RespBody : string
}.

(** ** Request signing ([RequestSigner], signing.go) *)

(** The hash functions of [crypto/sha256] and [crypto/hmac]. *)
Class Hashing := {
  sha256_Sum256 : string -> string;
  hmac_SHA256 : string -> string -> string
}.

Record RequestSigner := mkRequestSigner { secret : string }.

Definition NewRequestSigner (secret : string) : RequestSigner :=
  mkRequestSigner secret.

Definition canonicalizeQuery (query : string) : string :=
  if String.eqb query "" then ""
  else
    let params := strings_Split query "&" in
    let params := sort_Strings params in
    strings_Join params "&".

Definition headersToSign : list string :=
  ["authorization"; "content-type"; "x-timestamp"].

Definition canonicalizeHeaders (req : Request) : string :=
  let headerParts :=
    fold_left
      (fun (headerParts : list string) (headerName : string) =>
         let value := Header_Get (Header req) headerName in
         if negb (String.eqb value "")
         then headerParts ++ [headerName +:+ ":" +:+ strings_TrimSpace value]
         else headerParts)
      headersToSign [] in
  strings_Join headerParts LF.

Definition createStringToSign `{Hashing} (req : Request) (body : string)
    (timestamp : Z) : string :=
  let parts := [] in
  let parts := parts ++ [Method req] in
  let parts := parts ++ [URL_Path req] in
  let parts :=
    if negb (String.eqb (URL_RawQuery req) "")
    then parts ++ [canonicalizeQuery (URL_RawQuery req)]
    else parts ++ [""] in
  let parts := parts ++ [canonicalizeHeaders req] in
  let bodyHash := sha256_Sum256 body in
  let parts := parts ++ [hex_EncodeToString bodyHash] in
  let parts := parts ++ [FormatInt timestamp] in
  strings_Join parts LF.

Definition generateSignature `{Hashing} (rs : RequestSigner)
    (stringToSign : string) : string :=
  hex_EncodeToString (hmac_SHA256 (secret rs) stringToSign).

(** [SignRequest]; the receiver may be nil, [now] is the reading of
    [time.Now()].  The returned error is always nil. *)
Definition SignRequest `{Hashing} (rs : option RequestSigner) (now : Time)
    (req : Request) (body : string) : Request :=
  match rs with
  | None => req
  | Some s =>
      let timestamp := Time_Unix now in
      let req := set_Header req (Header_Set (Header req) "X-Timestamp" (FormatInt timestamp)) in
      let stringToSign := createStringToSign req body timestamp in
      let signature := generateSignature s stringToSign in
      set_Header req (Header_Set (Header req) "X-Signature" signature)
  end.

Definition abs (x : Z) : Z := if x <? 0 then int64_neg x else x.

Definition VerifySignature `{Hashing} (rs : option RequestSigner) (now : Time)
    (req : Request) (body : string) (signature : string) : bool :=
  match rs with
  | None => true
  | Some s =>
      let timestampStr := Header_Get (Header req) "X-Timestamp" in
      if String.eqb timestampStr "" then false
      else
        match ParseInt timestampStr with
        | None => false
        | Some timestamp =>
            let now := Time_Unix now in
            if abs (int64_sub now timestamp) >? 300 then false
            else
              let stringToSign := createStringToSign req body timestamp in
              let expectedSignature := generateSignature s stringToSign in
              String.eqb signature expectedSignature
        end
  end.

(** ** Token bucket ([RateLimiter], signing.go)

    The [float64] fields of the limiter are rationals and the floating
    point operations of the source are the exact ones on [Q]: rounding,
    infinities and NaN are outside the model. *)

Record RateLimitConfig := mkRateLimitConfig {
  RequestsPerSecond : Q;
  BurstSize : Z;
  Enabled : bool
}.

Record RateLimiter := mkRateLimiter {
  tokens : Q;
  maxTokens : Q;
  refillRate : Q;
  lastRefill : Time
}.

(** [NewRateLimiter]; [None] is the nil limiter. *)
Definition NewRateLimiter (config : option RateLimitConfig) (now : Time)
  : option RateLimiter :=
  match config with
  | None => None
  | Some config =>
      if negb (Enabled config) then None
      else Some (mkRateLimiter (inject_Z (BurstSize config))
                               (inject_Z (BurstSize config))
                               (RequestsPerSecond config)
                               now)
  end.

(** [d.Seconds()] *)
Definition Duration_Seconds (d : Z) : Q := (inject_Z d / inject_Z Second)%Q.

(** [now.Sub(rl.lastRefill)] *)
Definition Time_Sub (t u : Time) : Z := t - u.

(** The refill of [Allow] and [GetAvailableTokens]. *)
Definition refilled (rl : RateLimiter) (now : Time) : Q :=
  let elapsed := Duration_Seconds (Time_Sub now (lastRefill rl)) in
  let tokens := (tokens rl + elapsed * refillRate rl)%Q in
  if negb (Qle_bool tokens (maxTokens rl)) then maxTokens rl else tokens.

(** The body of [Allow] on a non-nil limiter: the verdict and the
    limiter as the call leaves it. *)
Definition Allow (rl : RateLimiter) (now : Time) : bool * RateLimiter :=
  let tokens := refilled rl now in
  if Qle_bool 1 tokens
  then (true, mkRateLimiter (tokens - 1)%Q (maxTokens rl) (refillRate rl) now)
  else (false, mkRateLimiter tokens (maxTokens rl) (refillRate rl) now).

(** [Allow] with its nil check. *)
Definition Allow_ptr (rl : option RateLimiter) (now : Time)
  : bool * option RateLimiter :=
  match rl with
  | None => (true, None)
  | Some rl => let '(ok, rl') := Allow rl now in (ok, Some rl')
  end.

Definition GetAvailableTokens (rl : option RateLimiter) (now : Time) : Q :=
  match rl with
  | None => (-1)%Q
  | Some rl => refilled rl now
  end.

(** Conversion of a float to [time.Duration]: truncation toward zero. *)
Definition Qtrunc (x : Q) : Z :=
  if Qle_bool 0 x then Qfloor x else Qceiling x.

(** The pause [Wait] computes after a denial. *)
Definition waitTime_of (rl : RateLimiter) : Z :=
  let waitTime :=
    Qtrunc ((1 - tokens rl) / refillRate rl * inject_Z Second)%Q in
  if waitTime >? Millisecond then Millisecond * 10 else waitTime.

(** ** The world a request runs in *)

Inductive Result :=
| RResp (r : Response)   (* (resp, nil) *)
| RErr (e : string)      (* (nil, err) *)
| RNil                   (* (nil, nil) *)
| RPanic                 (* nil dereference *)
| RDiverge.              (* the fuel of a polling loop ran out *)

(** What the server answers to one request that reaches it, and how
    long the exchange takes. *)
Record NetOutcome := mkNetOutcome {
  latency : Z;
  answer : Response + string
}.

Inductive Event :=
| EvAllow (at_ : Time) (admitted : bool)
| EvSign (timestamp : Z)
| EvSend (req : Request)
| EvSleep (d : Z).

(** [clock] is the reading of [time.Now()]; [limiters] is the heap of
    [RateLimiter] objects, addressed by the pointers the client and its
    transports share; [server] answers the [n]-th request it observes;
    [log] is a ghost record of what happened, oldest event first. *)
Record World := mkWorld {
  clock : Time;
  limiters : gmap nat RateLimiter;
  server : nat -> Request -> NetOutcome;
  served : nat;
  log : list Event
}.

Definition set_clock (w : World) (t : Time) : World :=
  mkWorld t (limiters w) (server w) (served w) (log w).
Definition set_limiter (w : World) (p : nat) (rl : RateLimiter) : World :=
  mkWorld (clock w) (<[p := rl]> (limiters w)) (server w) (served w) (log w).
Definition emit (w : World) (e : Event) : World :=
  mkWorld (clock w) (limiters w) (server w) (served w) (log w ++ [e]).

(** [time.Sleep(d)]: returns at once when [d <= 0]. *)
Definition Sleep (d : Z) (w : World) : World :=
  set_clock (emit w (EvSleep d)) (clock w + Z.max 0 d).

(** Allocation of a limiter object. *)
Definition fresh_ptr (w : World) : nat := fresh (dom (limiters w)).

Definition alloc_limiter (w : World) (rl : option RateLimiter)
  : option nat * World :=
  match rl with
  | None => (None, w)
  | Some rl => let p := fresh_ptr w in (Some p, set_limiter w p rl)
  end.

(** The base transport: the request reaches the server, which reads the
    body to its end. *)
Definition net_RoundTrip (req : Request) (w : World) : Result * Request * World :=
  let out := server w (served w) req in
  let w := emit w (EvSend req) in
  let w := mkWorld (clock w + Z.max 0 (latency out)) (limiters w) (server w)
                   (S (served w)) (log w) in
  let req := match Body req with
             | Some _ => set_Body req (Some "")
             | None => req
             end in
  match answer out with
  | inl r => (RResp r, req, w)
  | inr e => (RErr e, req, w)
  end.

Inductive WaitResult := WaitNil | WaitErr (e : string) | WaitPanic | WaitDiverge.

(** [Wait] on the limiter at address [p].  The [select] is resolved in
    favour of [ctx.Done()] when the context is done no later than the
    timer fires. *)
Fixpoint Wait (fuel : nat) (p : nat) (ctx : option Time) (w : World)
  : WaitResult * World :=
  match fuel with
  | O => (WaitDiverge, w)
  | S fuel' =>
      match limiters w !! p with
      | None => (WaitPanic, w)
      | Some rl =>
          let '(ok, rl') := Allow rl (clock w) in
          let w := emit (set_limiter w p rl') (EvAllow (clock w) ok) in
          if ok then (WaitNil, w)
          else
            let waitTime := waitTime_of rl' in
            let fires := clock w + Z.max 0 waitTime in
            match ctx with
            | Some done_at =>
                if done_at <=? fires
                then (WaitErr "context done", set_clock w (Z.max (clock w) done_at))
                else Wait fuel' p ctx (set_clock w fires)
            | None => Wait fuel' p ctx (set_clock w fires)
            end
      end
  end.

(** [Wait] with its nil check. *)
Definition Wait_ptr (fuel : nat) (p : option nat) (ctx : option Time) (w : World)
  : WaitResult * World :=
  match p with
  | None => (WaitNil, w)
  | Some p => Wait fuel p ctx w
  end.

(** ** Transports ([signingTransport], [rateLimitTransport], [retryTransport]) *)

Inductive RoundTripper :=
| DefaultTransport
| customTransport (id : nat)
| signingTransport (transport : RoundTripper) (signer : option RequestSigner)
| rateLimitTransport (transport : RoundTripper) (rateLimiter : option nat)
| retryTransport (transport : RoundTripper) (maxRetries : Z) (retryDelay : Z).

(** The ghost record of one iteration of the retry loop: the loop
    variable, the request and the world handed to the wrapped transport,
    what it returned, and the pause that followed, if any. *)
Record Attempt := mkAttempt {
  att_index : Z;
  att_req : Request;
  att_world : World;
  att_result : Result;
  att_sleep : option Z
}.

(** The reset of the request body before a retry. *)
Definition restore_Body (bodyBytes : option string) (req : Request) : Request :=
  match bodyBytes with
  | Some b => set_Body req (Some b)
  | None => req
  end.

(** The loop of [retryTransport.RoundTrip]: [i] is the loop variable,
    [last] the current [(resp, err)].  The loop leaves at [i = maxRetries]
    at the latest, so [fuel = maxRetries + 1 - i] iterations suffice. *)
Fixpoint retry_loop (inner : Request -> World -> Result * Request * World)
    (maxRetries retryDelay : Z) (fuel : nat) (i : Z) (last : Result)
    (req : Request) (w : World) : Result * Request * World * list Attempt :=
  if i <=? maxRetries then
    match fuel with
    | O => (RDiverge, req, w, [])
    | S fuel' =>
        let bodyBytes := Body req in
        let '(res, req1, w1) := inner req w in
        let retry (_ : unit) :=
          if i =? maxRetries then (res, req1, w1, [mkAttempt i req w res None])
          else
            let req2 := restore_Body bodyBytes req1 in
            let d := int64_mul retryDelay (int64_shl1 i) in
            let w2 := Sleep d w1 in
            let '(res', req', w', atts) :=
              retry_loop inner maxRetries retryDelay fuel' (i + 1) res req2 w2 in
            (res', req', w', mkAttempt i req w res (Some d) :: atts) in
        match res with
        | RResp r =>
            if StatusCode r <? 500
            then (RResp r, req1, w1, [mkAttempt i req w res None])
            else retry tt
        | RErr _ => retry tt
        | RNil => (RPanic, req1, w1, [mkAttempt i req w res None])
        | RPanic | RDiverge => (res, req1, w1, [mkAttempt i req w res None])
        end
    end
  else (last, req, w, []).

Definition retry_RoundTrip (inner : Request -> World -> Result * Request * World)
    (maxRetries retryDelay : Z) (req : Request) (w : World)
  : Result * Request * World * list Attempt :=
  retry_loop inner maxRetries retryDelay (Z.to_nat (maxRetries + 1)) 0 RNil req w.

(** [signingTransport.RoundTrip] up to the call of the wrapped transport. *)
Definition signing_step `{Hashing} (signer : option RequestSigner)
    (req : Request) (w : World) : Request * World :=
  let body := match Body req with Some b => b | None => "" end in
  let req' := SignRequest signer (clock w) req body in
  let w' := match signer with
            | Some _ => emit w (EvSign (Time_Unix (clock w)))
            | None => w
            end in
  (req', w').

(** [RoundTrip] of each transport; [fuel] bounds the polling of [Wait]. *)
Fixpoint RoundTrip `{Hashing} (fuel : nat) (t : RoundTripper) (req : Request)
    (w : World) : Result * Request * World :=
  match t with
  | DefaultTransport => net_RoundTrip req w
  | customTransport _ => net_RoundTrip req w
  | signingTransport transport signer =>
      let '(req, w) := signing_step signer req w in
      RoundTrip fuel transport req w
  | rateLimitTransport transport rateLimiter =>
      match Wait_ptr fuel rateLimiter (ctxDone req) w with
      | (WaitNil, w) => RoundTrip fuel transport req w
      | (WaitErr e, w) => (RErr e, req, w)
      | (WaitPanic, w) => (RPanic, req, w)
      | (WaitDiverge, w) => (RDiverge, req, w)
      end
  | retryTransport transport maxRetries retryDelay =>
      let '(res, req, w, _) :=
        retry_RoundTrip (RoundTrip fuel transport) maxRetries retryDelay req w in
      (res, req, w)
  end.

(** ** Credential vault (security.go) *)

(** A Go pair [(value, error)] with exactly one side set. *)
Inductive Res (A : Type) :=
| Val (a : A)
| Fail (err : string).
Arguments Val {A} a.
Arguments Fail {A} err.

(** AES-GCM of [crypto/cipher] with the standard 12-byte nonce and no
    associated data: [gcm_Seal key nonce plaintext] is the ciphertext
    followed by the tag, [gcm_Open] is [None] when authentication fails. *)
Class AEAD := {
  gcm_Seal : string -> string -> string -> string;
  gcm_Open : string -> string -> string -> option string
}.

(** [base64.URLEncoding]: the alphabet of RFC 4648 section 5, padded. *)
Definition b64_char (n : N) : ascii :=
  if (n <? 26)%N then ascii_of_N (65 + n)
  else if (n <? 52)%N then ascii_of_N (71 + n)
  else if (n <? 62)%N then ascii_of_N (n - 4)
  else if (n =? 62)%N then "-"%char
  else "_"%char.

Definition b64_val (c : ascii) : option N :=
  let n := N_of_ascii c in
  if ((65 <=? n) && (n <=? 90))%N then Some (n - 65)%N
  else if ((97 <=? n) && (n <=? 122))%N then Some (n - 71)%N
  else if ((48 <=? n) && (n <=? 57))%N then Some (n + 4)%N
  else if (n =? 45)%N then Some 62%N
  else if (n =? 95)%N then Some 63%N
  else None.

Definition pad : ascii := "="%char.

(** [EncodeToString]: three bytes give four characters, the last group
    is padded. *)

Fixpoint base64_EncodeToString (src : string) : string :=
  match src with
  | EmptyString => ""
  | String a EmptyString =>
      let x := N_of_ascii a in
      String (b64_char (x / 4))
        (String (b64_char ((x mod 4) * 16)) (String pad (String pad "")))
  | String a (String b EmptyString) =>
      let x := N_of_ascii a in
      let y := N_of_ascii b in
      String (b64_char (x / 4))
        (String (b64_char ((x mod 4) * 16 + y / 16))
           (String (b64_char ((y mod 16) * 4)) (String pad "")))
  | String a (String b (String c rest)) =>
      let x := N_of_ascii a in
      let y := N_of_ascii b in
      let z := N_of_ascii c in
      String (b64_char (x / 4))
        (String (b64_char ((x mod 4) * 16 + y / 16))
           (String (b64_char ((y mod 16) * 4 + z / 64))
              (String (b64_char (z mod 64)) (base64_EncodeToString rest))))
  end.

Definition byte_of (n : N) : ascii := ascii_of_N (n mod 256).

(** The decoding of the quanta of four characters, once the line breaks
    are gone. *)
Fixpoint decode_quanta (s : string) : option string :=
  match s with
  | EmptyString => Some ""
  | String a (String b (String c (String d rest))) =>
      if Ascii.eqb d pad then
        match rest with
        | EmptyString =>
            if Ascii.eqb c pad then
              match b64_val a, b64_val b with
              | Some va, Some vb => Some (String (byte_of (va * 4 + vb / 16)) "")
              | _, _ => None
              end
            else
              match b64_val a, b64_val b, b64_val c with
              | Some va, Some vb, Some vc =>
                  Some (String (byte_of (va * 4 + vb / 16))
                          (String (byte_of ((vb mod 16) * 16 + vc / 4)) ""))
              | _, _, _ => None
              end
        | _ => None
        end
      else
        match b64_val a, b64_val b, b64_val c, b64_val d with
        | Some va, Some vb, Some vc, Some vd =>
            match decode_quanta rest with
            | Some r =>
                Some (String (byte_of (va * 4 + vb / 16))
                        (String (byte_of ((vb mod 16) * 16 + vc / 4))
                           (String (byte_of ((vc mod 4) * 64 + vd)) r)))
            | None => None
            end
        | _, _, _, _ => None
        end
  | _ => None
  end.

(** [DecodeString] ignores carriage returns and line feeds, wants the
    padding, and does not check the unused bits of the last character. *)
Definition isNewline (c : ascii) : bool :=
  Ascii.eqb c (ascii_of_nat 10) || Ascii.eqb c (ascii_of_nat 13).

Fixpoint strip_newlines (s : string) : string :=
  match s with
  | EmptyString => ""
  | String c s' => if isNewline c then strip_newlines s' else String c (strip_newlines s')
  end.

Definition base64_DecodeString (s : string) : option string :=
  decode_quanta (strip_newlines s).


Definition gcm_NonceSize : nat := 12.

(** [aes.NewCipher] accepts keys of 16, 24 or 32 bytes. *)
Definition aes_NewCipher (key : string) : Res string :=
  let n := String.length key in
  if (n =? 16)%nat || (n =? 24)%nat || (n =? 32)%nat then Val key
  else Fail "crypto/aes: invalid key size".

Record CredentialEncryption := mkCredentialEncryption { key : string }.

Definition NewCredentialEncryption `{Hashing} (password : string)
  : CredentialEncryption :=
  let hash := sha256_Sum256 password in
  mkCredentialEncryption hash.

(** [data[:n]] and [data[n:]] *)
Definition slice_to (n : nat) (s : string) : string := String.substring 0 n s.
Definition slice_from (n : nat) (s : string) : string :=
  String.substring n (String.length s - n) s.

(** [Encrypt]; [entropy] is what [io.ReadFull(rand.Reader, nonce)]
    delivers: the bytes that fill the nonce buffer, or [None] when the
    random source fails. *)
Definition Encrypt `{AEAD} (ce : CredentialEncryption)
    (entropy : option string) (plaintext : string) : Res string :=
  if String.eqb plaintext "" then Val ""
  else
    match aes_NewCipher (key ce) with
    | Fail err => Fail ("failed to create cipher: " +:+ err)
    | Val block =>
        match entropy with
        | None => Fail "failed to generate nonce: read error"
        | Some nonce =>
            let ciphertext := nonce +:+ gcm_Seal block nonce plaintext in
            Val (base64_EncodeToString ciphertext)
        end
    end.

Definition Decrypt `{AEAD} (ce : CredentialEncryption)
    (ciphertext : string) : Res string :=
  if String.eqb ciphertext "" then Val ""
  else
    match base64_DecodeString ciphertext with
    | None => Fail "failed to decode base64: illegal base64 data"
    | Some data =>
        match aes_NewCipher (key ce) with
        | Fail err => Fail ("failed to create cipher: " +:+ err)
        | Val block =>
            let nonceSize := gcm_NonceSize in
            if (String.length data <? nonceSize)%nat
            then Fail "ciphertext too short"
            else
              let nonce := slice_to nonceSize data in
              let ciphertext_bytes := slice_from nonceSize data in
              match gcm_Open block nonce ciphertext_bytes with
              | None => Fail "failed to decrypt: cipher: message authentication failed"
              | Some plaintext => Val plaintext
              end
        end
    end.

Record SecureCredentials := mkSecureCredentials {
  EncryptedUsername : string;
  EncryptedPassword : string;
  Salt : string
}.

(** The capability set of a credential store. *)
Class CredentialStore (S : Type) := {
  Store : string -> SecureCredentials -> S -> Res S;
  Retrieve : string -> S -> Res SecureCredentials;
  Delete : string -> S -> S;
  Exists : string -> S -> bool
}.

Definition MemoryCredentialStore := gmap string SecureCredentials.

Definition NewMemoryCredentialStore : MemoryCredentialStore := ∅.

#[global] Instance MemoryCredentialStore_store : CredentialStore MemoryCredentialStore := {
  Store := fun key credentials ms =>
    if String.eqb key "" then Fail "key cannot be empty"
    else Val (<[key := credentials]> ms);
  Retrieve := fun key ms =>
    match ms !! key with
    | Some credentials => Val credentials
    | None => Fail ("credentials not found for key: " +:+ key)
    end;
  Delete := fun key ms => delete key ms;
  Exists := fun key ms => bool_decide (is_Some (ms !! key))
}.

Record CredentialManager := mkCredentialManager {
  encryption : CredentialEncryption;
  store : MemoryCredentialStore
}.

Definition NewCredentialManager `{Hashing} (encryptionPassword : string)
    (store : option MemoryCredentialStore) : CredentialManager :=
  let store := match store with
               | None => NewMemoryCredentialStore
               | Some s => s
               end in
  mkCredentialManager (NewCredentialEncryption encryptionPassword) store.

(** [StoreCredentials]; the three readings of the random source are the
    two nonces and the 32-byte salt. *)
Definition StoreCredentials `{AEAD} (cm : CredentialManager)
    (entropy1 entropy2 entropy3 : option string)
    (key username password : string) : Res CredentialManager :=
  match Encrypt (encryption cm) entropy1 username with
  | Fail err => Fail ("failed to encrypt username: " +:+ err)
  | Val encryptedUsername =>
      match Encrypt (encryption cm) entropy2 password with
      | Fail err => Fail ("failed to encrypt password: " +:+ err)
      | Val encryptedPassword =>
          match entropy3 with
          | None => Fail "failed to generate salt: read error"
          | Some salt =>
              let credentials :=
                mkSecureCredentials encryptedUsername encryptedPassword
                                    (base64_EncodeToString salt) in
              match Store key credentials (store cm) with
              | Fail err => Fail err
              | Val s => Val (mkCredentialManager (encryption cm) s)
              end
          end
      end
  end.

Definition RetrieveCredentials `{AEAD} (cm : CredentialManager)
    (key : string) : Res (string * string) :=
  match Retrieve key (store cm) with
  | Fail err => Fail err
  | Val credentials =>
      match Decrypt (encryption cm) (EncryptedUsername credentials) with
      | Fail err => Fail ("failed to decrypt username: " +:+ err)
      | Val username =>
          match Decrypt (encryption cm) (EncryptedPassword credentials) with
          | Fail err => Fail ("failed to decrypt password: " +:+ err)
          | Val password => Val (username, password)
          end
      end
  end.

(** ** Bearer token management ([AuthManager]) *)

(** The cached token of an [AuthManager]; its configuration and HTTP
    client are fixed at construction and appear as the environment of
    [refreshToken]. *)
Record AuthManager := mkAuthManager {
  token : string;
  expiresAt : Time
}.

Definition NewAuthManager : AuthManager := mkAuthManager "" zeroTime.

Definition isTokenValid (a : AuthManager) (now : Time) : bool :=
  if String.eqb (token a) "" then false
  else Time_Before (Time_Add now (5 * Minute)) (expiresAt a).

(** JSON values as [encoding/json] decodes them into [interface{}]. *)
#[warnings="-register-all"]
Inductive JSON :=
| JNull
| JBool (b : bool)
| JNumber (q : Q)
| JString (s : string)
| JArray (items : list JSON)
| JObject (fields : list (string * JSON)).

(** Indexing a decoded object: the last occurrence of a key wins. *)
Fixpoint JSON_field (fields : list (string * JSON)) (k : string) : option JSON :=
  match fields with
  | [] => None
  | (k', v) :: rest =>
      match JSON_field rest k with
      | Some v' => Some v'
      | None => if String.eqb k' k then Some v else None
      end
  end.

(** The response of the login endpoint as [refreshToken] looks at it:
    the status, the [Message] of the body decoded as an [ErrorResponse]
    and the [Data] of the body decoded as an [APIResponse] ([None] when
    the respective decoding fails). *)
Record LoginResponse := mkLoginResponse {
  login_StatusCode : Z;
  login_errorResp : option string;
  login_apiResp : option JSON
}.

(** What one login exchange can come to. *)
Inductive LoginExchange :=
| LoginNoRequest (err : string)   (* the request could not be built *)
| LoginNoResponse (err : string)  (* [httpClient.Do] failed *)
| LoginAnswer (resp : LoginResponse).

(** [ParseUnverified] of the JWT library followed by the reading of the
    numeric [exp] claim, converted to [int64]; [None] when the token does
    not parse or has no such claim. *)
Class JWT := { jwt_exp : string -> option Z }.

Definition parseTokenExpiration `{JWT} (tokenString : string) : Res Time :=
  match jwt_exp tokenString with
  | None => Fail "expiration claim not found"
  | Some exp => Val (time_Unix exp)
  end.

(** The part of [refreshToken] after the double check: the login itself.
    [now] is the reading of [time.Now()] used for the fallback expiry. *)
Definition login `{JWT} (a : AuthManager) (ex : LoginExchange) (now : Time)
  : Res string * AuthManager :=
  match ex with
  | LoginNoRequest err => (Fail ("failed to create login request: " +:+ err), a)
  | LoginNoResponse err => (Fail ("failed to perform login request: " +:+ err), a)
  | LoginAnswer resp =>
      if negb (login_StatusCode resp =? 200) then
        match login_errorResp resp with
        | Some message => (Fail ("login failed: " +:+ message), a)
        | None =>
            (Fail ("login failed with status code: " +:+ FormatInt (login_StatusCode resp)), a)
        end
      else
        match login_apiResp resp with
        | None => (Fail "failed to decode login response", a)
        | Some (JObject loginData) =>
            match JSON_field loginData "token" with
            | Some (JString token) =>
                let expiresAt :=
                  match parseTokenExpiration token with
                  | Val t => t
                  | Fail _ => Time_Add now (23 * Hour)
                  end in
                (Val token, mkAuthManager token expiresAt)
            | _ => (Fail "token not found in login response", a)
            end
        | Some _ => (Fail "invalid login response data format", a)
        end
  end.

(** What a sequential [GetToken] call observes: the clock at the fast
    check, at the double check and at the fallback, and the exchange with
    the login endpoint. *)
Record TokenEnv := mkTokenEnv {
  t_check : Time;
  t_recheck : Time;
  exchange : LoginExchange;
  t_login : Time
}.

Definition refreshToken `{JWT} (a : AuthManager) (env : TokenEnv)
  : Res string * AuthManager :=
  if isTokenValid a (t_recheck env) then (Val (token a), a)
  else login a (exchange env) (t_login env).

Definition GetToken `{JWT} (a : AuthManager) (env : TokenEnv)
  : Res string * AuthManager :=
  if isTokenValid a (t_check env) then (Val (token a), a)
  else refreshToken a env.

Definition ClearToken (a : AuthManager) : AuthManager :=
  mkAuthManager "" zeroTime.

(** The operations a caller can apply to an [AuthManager]. *)
Inductive AuthOp :=
| OpGetToken (env : TokenEnv)
| OpClearToken.

Definition apply_AuthOp `{JWT} (a : AuthManager) (op : AuthOp) : AuthManager :=
  match op with
  | OpGetToken env => snd (GetToken a env)
  | OpClearToken => ClearToken a
  end.

(** The manager after a sequence of calls on a fresh one. *)
Definition run_AuthOps `{JWT} (ops : list AuthOp) : AuthManager :=
  fold_left apply_AuthOp ops NewAuthManager.

(** ** The client and its transport chain ([Client], config.go) *)

Record SecurityConfig := mkSecurityConfig {
  EncryptCredentials : bool;
  EncryptionPassword : string;
  CredentialStore_ : option MemoryCredentialStore;
  EnableRequestSigning_ : bool;
  SigningSecret : string
}.

(** [*http.Client]: a nil [Transport] stands for [http.DefaultTransport]. *)
Record HTTPClient := mkHTTPClient {
  Transport : option RoundTripper;
  hc_Timeout : Z
}.

Record Config := mkConfig {
  BaseURL : string;
  Username : string;
  Password : string;
  HTTPClient_ : option HTTPClient;
  Timeout : Z;
  RateLimit : option RateLimitConfig;
  Security : option SecurityConfig
}.

Definition DefaultConfig : Config :=
  mkConfig "https://api-uat-v2.abhi.ae/uat-open-api" "" ""
    (Some (mkHTTPClient None (30 * Second)))
    (30 * Second)
    (Some (mkRateLimitConfig (10 # 1) 20 false))
    (Some (mkSecurityConfig false "" None false "")).

(** [rateLimiter] is a pointer into the heap of limiters of the world. *)
Record Client := mkClient {
  config : Config;
  authManager : AuthManager;
  httpClient : option HTTPClient;
  rateLimiter : option nat;
  credentialManager : option CredentialManager;
  requestSigner : option RequestSigner
}.

Definition set_Transport (c : Client) (t : RoundTripper) : option Client :=
  match httpClient c with
  | None => None
  | Some hc =>
      Some (mkClient (config c) (authManager c)
              (Some (mkHTTPClient (Some t) (hc_Timeout hc)))
              (rateLimiter c) (credentialManager c) (requestSigner c))
  end.

(** [New]: the limiter is allocated in the world at the current time. *)
Definition New `{Hashing} (config : option Config) (w : World) : Client * World :=
  let config := match config with
                | None => DefaultConfig
                | Some c => c
                end in
  let '(rateLimiter, w) :=
    alloc_limiter w (NewRateLimiter (RateLimit config) (clock w)) in
  let credentialManager :=
    match Security config with
    | Some sec =>
        if EncryptCredentials sec && negb (String.eqb (EncryptionPassword sec) "")
        then Some (NewCredentialManager (EncryptionPassword sec) (CredentialStore_ sec))
        else None
    | None => None
    end in
  let requestSigner :=
    match Security config with
    | Some sec =>
        if EnableRequestSigning_ sec && negb (String.eqb (SigningSecret sec) "")
        then Some (NewRequestSigner (SigningSecret sec))
        else None
    | None => None
    end in
  let httpClient :=
    match HTTPClient_ config with
    | None => None
    | Some hc =>
        let transport := match Transport hc with
                         | None => DefaultTransport
                         | Some t => t
                         end in
        let transport :=
          match requestSigner with
          | Some _ => signingTransport transport requestSigner
          | None => transport
          end in
        let transport :=
          match rateLimiter with
          | Some _ => rateLimitTransport transport rateLimiter
          | None => transport
          end in
        Some (mkHTTPClient (Some transport) (hc_Timeout hc))
    end in
  (mkClient config NewAuthManager httpClient rateLimiter credentialManager
            requestSigner, w).

(** [SetRetryPolicy]; [None] is the panic of a nil [httpClient]. *)
Definition SetRetryPolicy (c : Client) (maxRetries : Z) (retryDelay : Z)
  : option Client :=
  match httpClient c with
  | None => None
  | Some hc =>
      let originalTransport := match Transport hc with
                               | None => DefaultTransport
                               | Some t => t
                               end in
      set_Transport c (retryTransport originalTransport maxRetries retryDelay)
  end.

Definition updateTransportChain (c : Client) : option Client :=
  let transport := DefaultTransport in
  let transport :=
    match requestSigner c with
    | Some _ => signingTransport transport (requestSigner c)
    | None => transport
    end in
  let transport :=
    match rateLimiter c with
    | Some _ => rateLimitTransport transport (rateLimiter c)
    | None => transport
    end in
  set_Transport c transport.

Definition set_Security (cfg : Config) (sec : option SecurityConfig) : Config :=
  mkConfig (BaseURL cfg) (Username cfg) (Password cfg) (HTTPClient_ cfg)
           (Timeout cfg) (RateLimit cfg) sec.

Definition EnableRequestSigning (c : Client) (signingSecret : string)
  : option Client :=
  let sec := match Security (config c) with
             | None => mkSecurityConfig false "" None false ""
             | Some sec => sec
             end in
  let sec := mkSecurityConfig (EncryptCredentials sec) (EncryptionPassword sec)
                              (CredentialStore_ sec) true signingSecret in
  let c := mkClient (set_Security (config c) (Some sec)) (authManager c)
                    (httpClient c) (rateLimiter c) (credentialManager c)
                    (Some (NewRequestSigner signingSecret)) in
  updateTransportChain c.

Definition DisableRequestSigning (c : Client) : option Client :=
  let sec := match Security (config c) with
             | None => None
             | Some sec =>
                 Some (mkSecurityConfig (EncryptCredentials sec)
                         (EncryptionPassword sec) (CredentialStore_ sec)
                         false (SigningSecret sec))
             end in
  let c := mkClient (set_Security (config c) sec) (authManager c)
                    (httpClient c) (rateLimiter c) (credentialManager c)
                    None in
  updateTransportChain c.

(** The transport a request of the client goes through. *)
Definition client_transport (c : Client) : option RoundTripper :=
  match httpClient c with
  | None => None
  | Some hc => Some (match Transport hc with
                     | None => DefaultTransport
                     | Some t => t
                     end)
  end.

(** The layers of a chain, outermost first. *)
Inductive Layer := LSigning | LRateLimit | LRetry | LBase.

Fixpoint layers (t : RoundTripper) : list Layer :=
  match t with
  | DefaultTransport => [LBase]
  | customTransport _ => [LBase]
  | signingTransport t' _ => LSigning :: layers t'
  | rateLimitTransport t' _ => LRateLimit :: layers t'
  | retryTransport t' _ _ => LRetry :: layers t'
  end.

(** The base transport at the bottom of a chain. *)
Fixpoint base_of (t : RoundTripper) : RoundTripper :=
  match t with
  | DefaultTransport => DefaultTransport
  | customTransport id => customTransport id
  | signingTransport t' _ => base_of t'
  | rateLimitTransport t' _ => base_of t'
  | retryTransport t' _ _ => base_of t'
  end.

(** ** Concurrent callers of [GetToken]

    Goroutines calling [GetToken] on one [AuthManager], interleaved at
    the granularity of the critical sections of the source: the sections
    under [mutex] (a [sync.RWMutex]) are atomic steps, the section under
    [refreshMutex] spans several steps. *)

Inductive PC :=
| pcCheck                    (* entering [GetToken]: the fast check is next *)
| pcLock                     (* in [refreshToken], at [refreshMutex.Lock()] *)
| pcRecheck                  (* holds [refreshMutex]; the double check is next *)
| pcInFlight (ex : LoginExchange)  (* the login request is at the endpoint *)
| pcUnlock (r : Res string)  (* returning: the deferred [Unlock] is next *)
| pcDone (r : Res string).   (* [GetToken] has returned [r] *)

(** [attempts] counts the logins begun, [logins] the login requests that
    reached the endpoint; the [n]-th login begun sees [exchanges n]. *)
Record Sys := mkSys {
  sys_am : AuthManager;
  refreshMutex : option nat;
  sys_clock : Time;
  pcs : list PC;
  attempts : nat;
  logins : nat
}.

Definition set_pc (s : Sys) (i : nat) (pc : PC) : Sys :=
  mkSys (sys_am s) (refreshMutex s) (sys_clock s) (<[i := pc]> (pcs s))
        (attempts s) (logins s).

(** One step of goroutine [i]; a goroutine that is blocked or has
    returned leaves the state as it is. *)
Definition thread_step `{JWT} (exchanges : nat -> LoginExchange) (i : nat)
    (s : Sys) : Sys :=
  match pcs s !! i with
  | None => s
  | Some pcCheck =>
      if isTokenValid (sys_am s) (sys_clock s)
      then set_pc s i (pcDone (Val (token (sys_am s))))
      else set_pc s i pcLock
  | Some pcLock =>
      match refreshMutex s with
      | Some _ => s
      | None =>
          mkSys (sys_am s) (Some i) (sys_clock s) (<[i := pcRecheck]> (pcs s))
                (attempts s) (logins s)
      end
  | Some pcRecheck =>
      if isTokenValid (sys_am s) (sys_clock s)
      then set_pc s i (pcUnlock (Val (token (sys_am s))))
      else
        let ex := exchanges (attempts s) in
        match ex with
        | LoginNoRequest _ =>
            mkSys (sys_am s) (refreshMutex s) (sys_clock s)
                  (<[i := pcUnlock (fst (login (sys_am s) ex (sys_clock s)))]> (pcs s))
                  (S (attempts s)) (logins s)
        | _ =>
            mkSys (sys_am s) (refreshMutex s) (sys_clock s)
                  (<[i := pcInFlight ex]> (pcs s))
                  (S (attempts s)) (S (logins s))
        end
  | Some (pcInFlight ex) =>
      let '(r, a) := login (sys_am s) ex (sys_clock s) in
      mkSys a (refreshMutex s) (sys_clock s) (<[i := pcUnlock r]> (pcs s))
            (attempts s) (logins s)
  | Some (pcUnlock r) =>
      mkSys (sys_am s) None (sys_clock s) (<[i := pcDone r]> (pcs s))
            (attempts s) (logins s)
  | Some (pcDone _) => s
  end.

(** What the scheduler can do: run a goroutine for a step, or let time
    pass. *)
Inductive Action :=
| Run (i : nat)
| Tick (d : Z).

Definition exec `{JWT} (exchanges : nat -> LoginExchange) (s : Sys) (a : Action)
  : Sys :=
  match a with
  | Run i => thread_step exchanges i s
  | Tick d =>
      mkSys (sys_am s) (refreshMutex s) (sys_clock s + Z.max 0 d) (pcs s)
            (attempts s) (logins s)
  end.

Definition run_sched `{JWT} (exchanges : nat -> LoginExchange) (s : Sys)
    (sched : list Action) : Sys :=
  fold_left (exec exchanges) sched s.

(** [n] callers entering [GetToken] at time [t0] on the manager [a]. *)
Definition init_sys (a : AuthManager) (t0 : Time) (n : nat) : Sys :=
  mkSys a None t0 (replicate n pcCheck) 0 0.

Definition is_in_flight (pc : PC) : bool :=
  match pc with
  | pcInFlight _ => true
  | _ => false
  end.

(** The number of login calls in flight. *)
Definition in_flight (s : Sys) : nat :=
  List.length (List.filter is_in_flight (pcs s)).

Definition holds_refresh (pc : PC) : bool :=
  match pc with
  | pcRecheck | pcInFlight _ | pcUnlock _ => true
  | _ => false
  end.

Definition is_done (pc : PC) : bool :=
  match pc with
  | pcDone _ => true
  | _ => false
  end.

(** ** Notions used to state the properties *)

(** *** Token bucket *)

(** Successive calls of [Allow] at the given clock readings: the
    verdicts and the limiter after the last call. *)
Fixpoint Allow_seq (rl : RateLimiter) (times : list Time)
  : list bool * RateLimiter :=
  match times with
  | [] => ([], rl)
  | t :: ts =>
      let '(ok, rl1) := Allow rl t in
      let '(oks, rl2) := Allow_seq rl1 ts in
      (ok :: oks, rl2)
  end.

(** The tokens the time since the last refill is worth. *)
Definition elapsed_tokens (rl : RateLimiter) (now : Time) : Q :=
  (Duration_Seconds (Time_Sub now (lastRefill rl)) * refillRate rl)%Q.

(** *** Retry *)

(** The results after which the loop goes on if the budget allows. *)
Definition retryable (r : Result) : bool :=
  match r with
  | RErr _ => true
  | RResp r => negb (StatusCode r <? 500)
  | _ => false
  end.

(** What the caller gets for the result of the last attempt. *)
Definition returned (r : Result) : Result :=
  match r with
  | RNil => RPanic
  | _ => r
  end.

(** The attempts of one call, as a chain: each attempt but the last
    failed in a retryable way before the budget was spent, was followed
    by its pause, and handed over to the next one the request with its
    body reset and the world after the pause. *)
Fixpoint attempts_chain (inner : Request -> World -> Result * Request * World)
    (m d : Z) (res : Result) (req : Request) (w : World) (i : Z)
    (atts : list Attempt) : Prop :=
  match atts with
  | [] => False
  | a :: rest =>
      att_index a = i /\ att_req a = req /\ att_world a = w
      /\ att_result a = (inner req w).1.1
      /\ match rest with
         | [] =>
             att_sleep a = None /\ res = returned (att_result a)
             /\ (retryable (att_result a) = true -> i = m)
         | _ :: _ =>
             retryable (att_result a) = true /\ i < m
             /\ att_sleep a = Some (int64_mul d (int64_shl1 i))
             /\ attempts_chain inner m d res
                  (restore_Body (Body req) (inner req w).1.2)
                  (Sleep (int64_mul d (int64_shl1 i)) (inner req w).2)
                  (i + 1) rest
         end
  end.

(** *** Signing *)

Definition is_lower_hex (c : ascii) : bool :=
  existsb (Ascii.eqb c) (list_ascii_of_string "0123456789abcdef").

(** The header part of the canonical string, in the words of the
    specification: the [name:value] pairs of the three signed headers
    that are present and non-empty, in their fixed order. *)
Definition signed_header_lines (req : Request) : list string :=
  map (fun name => name +:+ ":" +:+ strings_TrimSpace (Header_Get (Header req) name))
      (List.filter (fun name => negb (String.eqb (Header_Get (Header req) name) ""))
                   ["authorization"; "content-type"; "x-timestamp"]).

(** The request as [SignRequest] canonicalizes it: with [X-Timestamp] set. *)
Definition stamped (req : Request) (now : Time) : Request :=
  set_Header req (Header_Set (Header req) "X-Timestamp" (FormatInt (Time_Unix now))).

(** The bytes [signingTransport] reads from the body of a request. *)
Definition body_of (req : Request) : string :=
  match Body req with
  | Some b => b
  | None => ""
  end.

(** The request carries the timestamp [ts] and the signature computed
    over itself for that timestamp. *)
Definition signed_at `{Hashing} (rs : RequestSigner) (ts : Z) (req : Request) : Prop :=
  Header_Get (Header req) "X-Timestamp" = FormatInt ts
  /\ Header_Get (Header req) "X-Signature"
     = generateSignature rs (createStringToSign req (body_of req) ts).

(** *** Transport chain *)

(** The traces of a chain that gates, then signs, then sends: a request
    reaches the server only right after the limiter admitted it and the
    signer stamped it with the time of that admission. *)
Inductive pipeline_trace `{Hashing} (rs : RequestSigner) : list Event -> Prop :=
| pt_nil : pipeline_trace rs []
| pt_denied t l :
    pipeline_trace rs l -> pipeline_trace rs (EvAllow t false :: l)
| pt_sleep d l :
    pipeline_trace rs l -> pipeline_trace rs (EvSleep d :: l)
| pt_send t req l :
    signed_at rs (Time_Unix t) req ->
    pipeline_trace rs l ->
    pipeline_trace rs (EvAllow t true :: EvSign (Time_Unix t) :: EvSend req :: l).

Definition is_base (t : RoundTripper) : bool :=
  match t with
  | DefaultTransport | customTransport _ => true
  | _ => false
  end.

(** The transport [New] starts from. *)
Definition configured_base (hc : HTTPClient) : RoundTripper :=
  match Transport hc with
  | None => DefaultTransport
  | Some t => t
  end.

Inductive EventKind := KAllow (admitted : bool) | KSign | KSend | KSleep.

Definition kind_of (e : Event) : EventKind :=
  match e with
  | EvAllow _ ok => KAllow ok
  | EvSign _ => KSign
  | EvSend _ => KSend
  | EvSleep _ => KSleep
  end.

(** The chain [updateTransportChain] leaves: at most a rate limit layer
    over at most a signing layer over [http.DefaultTransport]. *)
Definition rebuilt_shape (t : RoundTripper) : Prop :=
  In (layers t)
     [[LBase]; [LSigning; LBase]; [LRateLimit; LBase];
      [LRateLimit; LSigning; LBase]]
  /\ base_of t = DefaultTransport.

(** *** Bearer token *)

Definition token_invariant (a : AuthManager) : Prop :=
  token a = "" <-> expiresAt a = zeroTime.

(** The login endpoint delivers no empty token and no token whose expiry
    claim is the zero timestamp. *)
Definition sane_exchange `{JWT} (ex : LoginExchange) : Prop :=
  forall resp fields tok,
    ex = LoginAnswer resp ->
    login_apiResp resp = Some (JObject fields) ->
    JSON_field fields "token" = Some (JString tok) ->
    tok <> "" /\ (forall e, jwt_exp tok = Some e -> time_Unix e <> zeroTime).

Definition sane_op `{JWT} (op : AuthOp) : Prop :=
  match op with
  | OpGetToken env => sane_exchange (exchange env) /\ 0 <= t_login env
  | OpClearToken => True
  end.

(** *** Concurrent callers *)

(** A goroutine past [refreshMutex.Lock()] owns the mutex. *)
Definition lock_inv (s : Sys) : Prop :=
  forall i pc, pcs s !! i = Some pc -> holds_refresh pc = true ->
               refreshMutex s = Some i.

(** Whenever it happens between [t0] and [T], the login exchange [ex]
    yields the token [tok], stored with an expiry that keeps it valid
    until [T]. *)
Definition fresh_token_ok `{JWT} (a : AuthManager) (ex : LoginExchange)
    (t0 T : Time) (tok : string) : Prop :=
  forall t, t0 <= t <= T ->
    exists a', login a ex t = (Val tok, a') /\ isTokenValid a' T = true.

Definition pc_before (pc : PC) : Prop :=
  match pc with
  | pcCheck | pcLock | pcRecheck => True
  | _ => False
  end.

Definition pc_during (ex0 : LoginExchange) (pc : PC) : Prop :=
  match pc with
  | pcCheck | pcLock => True
  | pcInFlight ex => ex = ex0
  | _ => False
  end.

Definition pc_after (tok : string) (pc : PC) : Prop :=
  match pc with
  | pcCheck | pcLock | pcRecheck => True
  | pcUnlock r | pcDone r => r = Val tok
  | pcInFlight _ => False
  end.

(** The three phases of a window with one successful login: before the
    login request, while it is in flight, after the token is stored. *)
Definition single_refresh_inv (a : AuthManager) (t0 T : Time) (tok : string)
    (ex0 : LoginExchange) (n : nat) (s : Sys) : Prop :=
  lock_inv s /\ t0 <= sys_clock s /\ List.length (pcs s) = n
  /\ ((logins s = 0%nat /\ attempts s = 0%nat /\ sys_am s = a
       /\ Forall pc_before (pcs s))
      \/ (logins s = 1%nat /\ attempts s = 1%nat /\ sys_am s = a
          /\ refreshMutex s <> None /\ Forall (pc_during ex0) (pcs s))
      \/ (logins s = 1%nat /\ token (sys_am s) = tok
          /\ isTokenValid (sys_am s) T = true /\ Forall (pc_after tok) (pcs s))).

Definition all_returned (s : Sys) : Prop :=
  Forall (fun pc => is_done pc = true) (pcs s).

(** ** Concrete instances and inputs for the examples *)

(** Stand-ins for the library functions, for evaluation only: a "hash"
    that cuts or pads its input to 32 bytes, a "MAC" that prepends the key, an "AEAD"
    that tags the plaintext with one byte, and a JWT format whose middle
    segment is the decimal expiry. *)
Fixpoint fixed_width (n : nat) (s : string) : string :=
  match n with
  | O => ""
  | S n' =>
      match s with
      | EmptyString => String "000" (fixed_width n' "")
      | String c s' => String c (fixed_width n' s')
      end
  end.

Definition example_Hashing : Hashing :=
  {| sha256_Sum256 := fun m => fixed_width 32 m;
     hmac_SHA256 := fun k m => k +:+ m |}.

Definition example_AEAD : AEAD :=
  {| gcm_Seal := fun key nonce plaintext => String "001" plaintext;
     gcm_Open := fun key nonce ciphertext =>
                   match ciphertext with
                   | String _ plaintext => Some plaintext
                   | EmptyString => None
                   end |}.

Definition example_jwt_exp (tok : string) : option Z :=
  match strings_Split tok "." with
  | [_; payload; _] => ParseInt payload
  | _ => None
  end.

Definition example_JWT : JWT := {| jwt_exp := example_jwt_exp |}.

Definition example_config : Config :=
  mkConfig "http://127.0.0.1:8080" "user" "pass"
    (Some (mkHTTPClient None (30 * Second)))
    (30 * Second)
    (Some (mkRateLimitConfig (5 # 1) 10 true))
    (Some (mkSecurityConfig false "" None true "s3cret")).

Definition example_request : Request :=
  mkRequest "GET" "/employees" "page=2&limit=10"
    (<["Authorization" := ["Bearer abc"]]> (<["Content-Type" := ["application/json"]]> ∅))
    None None.

(** A server that fails once with 500 and then answers 200. *)
Definition flaky_server (n : nat) (req : Request) : NetOutcome :=
  match n with
  | O => mkNetOutcome (20 * Millisecond) (inl (mkResponse 500 ""))
  | _ => mkNetOutcome (20 * Millisecond) (inl (mkResponse 200 "{}"))
  end.

(** A server that fails twice with 500 and then answers 200, and one
    that always answers 400. *)
Definition server_500_500_200 (n : nat) (req : Request) : NetOutcome :=
  match n with
  | 0%nat | 1%nat => mkNetOutcome (20 * Millisecond) (inl (mkResponse 500 ""))
  | _ => mkNetOutcome (20 * Millisecond) (inl (mkResponse 200 "{}"))
  end.

Definition server_400 (n : nat) (req : Request) : NetOutcome :=
  mkNetOutcome (20 * Millisecond) (inl (mkResponse 400 "bad request")).

Definition post_request : Request :=
  mkRequest "POST" "/employees" "" ∅ (Some "{}") None.

Definition example_world : World :=
  mkWorld (1700000000 * Second) ∅ flaky_server 0 [].

Definition empty_token_answer : LoginExchange :=
  LoginAnswer (mkLoginResponse 200 None (Some (JObject [("token", JString "")]))).

Definition example_env (ex : LoginExchange) (t : Time) : TokenEnv :=
  mkTokenEnv t t ex t.

Definition failing_exchanges (n : nat) : LoginExchange :=
  LoginAnswer (mkLoginResponse 503 (Some "service unavailable") None).

Definition good_exchanges (n : nat) : LoginExchange :=
  LoginAnswer (mkLoginResponse 200 None
                 (Some (JObject [("token", JString "hdr.1700086400.sig")]))).

Definition two_callers_schedule : list Action :=
  [Run 0; Run 1; Run 0; Run 1; Run 0; Run 0; Run 0; Run 1; Run 1; Run 1; Run 1]%nat.

(** ** Further methods of the package *)

(** *** Credential manager (security.go) *)

Definition DeleteCredentials (cm : CredentialManager) (key : string)
  : CredentialManager :=
  mkCredentialManager (encryption cm) (Delete key (store cm)).

Definition CredentialsExist (cm : CredentialManager) (key : string) : bool :=
  Exists key (store cm).

(** [ClearCredentials]: the loop deletes the keys of the map one by one,
    in the order the iteration delivers them. *)
Definition ClearCredentials (cm : CredentialManager) : CredentialManager :=
  let memStore := store cm in
  mkCredentialManager (encryption cm)
    (fold_left (fun (ms : MemoryCredentialStore) (key : string) => delete key ms)
               (map fst (map_to_list memStore)) memStore).

(** *** Configuration builders (config.go) *)

Definition set_RateLimit (cfg : Config) (rl : option RateLimitConfig) : Config :=
  mkConfig (BaseURL cfg) (Username cfg) (Password cfg) (HTTPClient_ cfg)
           (Timeout cfg) rl (Security cfg).

(** The zero value [&SecurityConfig{}]. *)
Definition zeroSecurityConfig : SecurityConfig :=
  mkSecurityConfig false "" None false "".

Definition NewConfig (baseURL username password : string) : Config :=
  let config := DefaultConfig in
  mkConfig baseURL username password (HTTPClient_ config) (Timeout config)
           (RateLimit config) (Security config).

(** The methods of [*Config]; those of [*Client] with the same name keep
    the plain name. *)
Definition Config_SetRateLimit (c : Config) (requestsPerSecond : Q)
    (burstSize : Z) : Config :=
  set_RateLimit c (Some (mkRateLimitConfig requestsPerSecond burstSize true)).

Definition Config_EnableRateLimit (c : Config) : Config :=
  match RateLimit c with
  | None => set_RateLimit c (Some (mkRateLimitConfig (10 # 1) 20 true))
  | Some rl =>
      set_RateLimit c
        (Some (mkRateLimitConfig (RequestsPerSecond rl) (BurstSize rl) true))
  end.

Definition Config_DisableRateLimit (c : Config) : Config :=
  match RateLimit c with
  | None => c
  | Some rl =>
      set_RateLimit c
        (Some (mkRateLimitConfig (RequestsPerSecond rl) (BurstSize rl) false))
  end.

Definition Config_EnableCredentialEncryption (c : Config)
    (encryptionPassword : string) : Config :=
  let sec := match Security c with
             | None => zeroSecurityConfig
             | Some sec => sec
             end in
  set_Security c
    (Some (mkSecurityConfig true encryptionPassword (CredentialStore_ sec)
             (EnableRequestSigning_ sec) (SigningSecret sec))).

Definition Config_EnableRequestSigning (c : Config) (signingSecret : string)
  : Config :=
  let sec := match Security c with
             | None => zeroSecurityConfig
             | Some sec => sec
             end in
  set_Security c
    (Some (mkSecurityConfig (EncryptCredentials sec) (EncryptionPassword sec)
             (CredentialStore_ sec) true signingSecret)).

Definition Config_DisableCredentialEncryption (c : Config) : Config :=
  match Security c with
  | None => c
  | Some sec =>
      set_Security c
        (Some (mkSecurityConfig false (EncryptionPassword sec)
                 (CredentialStore_ sec) (EnableRequestSigning_ sec)
                 (SigningSecret sec)))
  end.

Definition Config_DisableRequestSigning (c : Config) : Config :=
  match Security c with
  | None => c
  | Some sec =>
      set_Security c
        (Some (mkSecurityConfig (EncryptCredentials sec) (EncryptionPassword sec)
                 (CredentialStore_ sec) false (SigningSecret sec)))
  end.

(** *** Rate limiting and credentials on the client (client.go) *)

(** [SetRateLimit]; [None] is the panic of a nil [httpClient].  The
    assignment [rt.transport = rlt.transport] on the retry layer shows as
    the rebuilt retry layer. *)
Definition SetRateLimit (c : Client) (requestsPerSecond : Q) (burstSize : Z)
    (w : World) : option (Client * World) :=
  let rateLimitConfig := mkRateLimitConfig requestsPerSecond burstSize true in
  let '(rateLimiter, w) :=
    alloc_limiter w (NewRateLimiter (Some rateLimitConfig) (clock w)) in
  let c := mkClient (set_RateLimit (config c) (Some rateLimitConfig))
                    (authManager c) (httpClient c) rateLimiter
                    (credentialManager c) (requestSigner c) in
  match httpClient c with
  | None => None
  | Some hc =>
      let originalTransport := match Transport hc with
                               | None => DefaultTransport
                               | Some t => t
                               end in
      let originalTransport :=
        match originalTransport with
        | rateLimitTransport transport _ => transport
        | _ => originalTransport
        end in
      let originalTransport :=
        match originalTransport with
        | retryTransport (rateLimitTransport transport _) maxRetries retryDelay =>
            retryTransport transport maxRetries retryDelay
        | _ => originalTransport
        end in
      match set_Transport c (rateLimitTransport originalTransport rateLimiter) with
      | Some c => Some (c, w)
      | None => None
      end
  end.

(** [EnableRateLimit]: without rate limit settings it is
    [SetRateLimit(10.0, 20)]; with settings it wraps the transport as it
    is. *)
Definition EnableRateLimit (c : Client) (w : World) : option (Client * World) :=
  match RateLimit (config c) with
  | None => SetRateLimit c (10 # 1) 20 w
  | Some rl =>
      let rl := mkRateLimitConfig (RequestsPerSecond rl) (BurstSize rl) true in
      let '(rateLimiter, w) := alloc_limiter w (NewRateLimiter (Some rl) (clock w)) in
      let c := mkClient (set_RateLimit (config c) (Some rl))
                        (authManager c) (httpClient c) rateLimiter
                        (credentialManager c) (requestSigner c) in
      match httpClient c with
      | None => None
      | Some hc =>
          let originalTransport := match Transport hc with
                                   | None => DefaultTransport
                                   | Some t => t
                                   end in
          match set_Transport c (rateLimitTransport originalTransport rateLimiter) with
          | Some c => Some (c, w)
          | None => None
          end
      end
  end.

(** [DisableRateLimit]; [None] is the panic of a nil [httpClient]. *)
Definition DisableRateLimit (c : Client) : option Client :=
  let config :=
    match RateLimit (config c) with
    | Some rl =>
        set_RateLimit (config c)
          (Some (mkRateLimitConfig (RequestsPerSecond rl) (BurstSize rl) false))
    | None => config c
    end in
  let c := mkClient config (authManager c) (httpClient c) None
                    (credentialManager c) (requestSigner c) in
  match httpClient c with
  | None => None
  | Some hc =>
      match Transport hc with
      | Some (rateLimitTransport transport _) => set_Transport c transport
      | _ => Some c
      end
  end.

Definition EnableCredentialEncryption `{Hashing} (c : Client)
    (encryptionPassword : string) : Client :=
  let sec := match Security (config c) with
             | None => zeroSecurityConfig
             | Some sec => sec
             end in
  let sec := mkSecurityConfig true encryptionPassword (CredentialStore_ sec)
                              (EnableRequestSigning_ sec) (SigningSecret sec) in
  mkClient (set_Security (config c) (Some sec)) (authManager c) (httpClient c)
           (rateLimiter c)
           (Some (NewCredentialManager encryptionPassword (CredentialStore_ sec)))
           (requestSigner c).

Definition set_credentialManager (c : Client) (cm : CredentialManager) : Client :=
  mkClient (config c) (authManager c) (httpClient c) (rateLimiter c) (Some cm)
           (requestSigner c).

Definition StoreSecureCredentials `{AEAD} (c : Client)
    (entropy1 entropy2 entropy3 : option string)
    (key username password : string) : Res Client :=
  match credentialManager c with
  | None => Fail "credential encryption not enabled"
  | Some cm =>
      match StoreCredentials cm entropy1 entropy2 entropy3 key username password with
      | Fail err => Fail err
      | Val cm => Val (set_credentialManager c cm)
      end
  end.

Definition RetrieveSecureCredentials `{AEAD} (c : Client) (key : string)
  : Res (string * string) :=
  match credentialManager c with
  | None => Fail "credential encryption not enabled"
  | Some cm => RetrieveCredentials cm key
  end.

(** [GetSecurityStatus]: the three entries of the map it returns. *)
Record SecurityStatus := mkSecurityStatus {
  credentialEncryption : bool;
  requestSigning : bool;
  rateLimiting : bool
}.

Definition GetSecurityStatus (c : Client) : SecurityStatus :=
  let status := mkSecurityStatus false false false in
  let status :=
    match Security (config c) with
    | Some sec =>
        mkSecurityStatus (EncryptCredentials sec) (EnableRequestSigning_ sec)
                         (rateLimiting status)
    | None => status
    end in
  match RateLimit (config c) with
  | Some rl =>
      mkSecurityStatus (credentialEncryption status) (requestSigning status)
                       (Enabled rl)
  | None => status
  end.

(** *** The wrapper of package abhi *)

(** [SDK.SetRetryPolicy]: the delay is given in seconds and converted by
    [time.Duration(retryDelay)*time.Second]. *)
Definition SDK_SetRetryPolicy (c : Client) (maxRetries : Z) (retryDelay : Z)
  : option Client :=
  SetRetryPolicy c maxRetries (int64_mul retryDelay Second).

(** *** Package errors *)

Module errors.

Record APIError := mkAPIError {
  StatusCode : Z;
  Message : string;
  Details : string;
  Endpoint : string
}.

Definition IsClientError (e : APIError) : bool :=
  (400 <=? StatusCode e) && (StatusCode e <? 500).
Definition IsServerError (e : APIError) : bool := 500 <=? StatusCode e.
Definition IsUnauthorized (e : APIError) : bool := StatusCode e =? 401.
Definition IsForbidden (e : APIError) : bool := StatusCode e =? 403.
Definition IsNotFound (e : APIError) : bool := StatusCode e =? 404.
Definition IsConflict (e : APIError) : bool := StatusCode e =? 409.
Definition IsRateLimited (e : APIError) : bool := StatusCode e =? 429.

Definition NewAPIError (statusCode : Z) (message details endpoint : string)
  : APIError :=
  mkAPIError statusCode message details endpoint.

End errors.

(** The part of [makeRequest] that turns a response with a status of 400
    or more into an error: [errorResp] is the body decoded as an
    [ErrorResponse] (status code, message, details), [None] when it does
    not decode. *)
Definition error_of_response (resp : Response)
    (errorResp : option (Z * string * string)) (endpoint : string)
  : option errors.APIError :=
  if 400 <=? StatusCode resp then
    match errorResp with
    | Some (statusCode, message, details) =>
        Some (errors.NewAPIError statusCode message details endpoint)
    | None =>
        Some (errors.NewAPIError (StatusCode resp) "Unknown error"
                (RespBody resp) endpoint)
    end
  else None.

(** *** Employee service (services/employee.go) *)

(** [GetAll]: [List] stands for [s.List(ctx, opts)] with the page and the
    limit of [opts], and returns the [Results] of the response.  The loop
    has no bound in the source; [fuel] bounds the pages read, and [None]
    says it ran out. *)
Fixpoint GetAll_loop {Employee : Type}
    (List : Z -> Z -> Res (list Employee)) (limit : Z)
    (fuel : nat) (page : Z) (allEmployees : list Employee)
  : option (Res (list Employee)) :=
  match fuel with
  | O => None
  | S fuel' =>
      match List page limit with
      | Fail err =>
          Some (Fail ("failed to get employees page " +:+ FormatInt page
                      +:+ ": " +:+ err))
      | Val results =>
          let allEmployees := allEmployees ++ results in
          if Z.of_nat (List.length results) <? limit
          then Some (Val allEmployees)
          else GetAll_loop List limit fuel' (page + 1) allEmployees
      end
  end.

Definition GetAll {Employee : Type} (List : Z -> Z -> Res (list Employee))
    (fuel : nat) : option (Res (list Employee)) :=
  let page := 1 in
  let limit := 100 in
  GetAll_loop List limit fuel page [].

(** ** Further notions used to state the properties *)

(** *** Strings *)

(** A string without the separator. *)
Definition free_of (sep : ascii) (s : string) : Prop :=
  forallb_string (fun c => negb (Ascii.eqb c sep)) s = true.

(** *** Token bucket, continued *)

(** Clock readings that never go back, starting from [t0]. *)
Fixpoint nondecreasing_from (t0 : Time) (ts : list Time) : Prop :=
  match ts with
  | [] => True
  | t :: ts' => t0 <= t /\ nondecreasing_from t ts'
  end.

(** The number of calls admitted. *)
Definition count_admitted (oks : list bool) : nat :=
  List.length (List.filter (fun ok : bool => ok) oks).

(** The invariant of a limiter: between empty and full, refilling. *)
Definition bucket_ok (rl : RateLimiter) : Prop :=
  (0 <= tokens rl)%Q /\ (tokens rl <= maxTokens rl)%Q /\ (0 <= refillRate rl)%Q.

(** *** Retry, continued *)

(** The time a call spent in the pauses between its attempts. *)
Fixpoint total_pause (atts : list Attempt) : Z :=
  match atts with
  | [] => 0
  | a :: rest =>
      match att_sleep a with
      | Some d => Z.max 0 d + total_pause rest
      | None => total_pause rest
      end
  end.

(** *** Transport chain, continued *)

Definition is_admission (e : Event) : bool :=
  match e with
  | EvAllow _ true => true
  | _ => false
  end.

(** The number of times a limiter admitted a request in a trace. *)
Definition admissions (tr : list Event) : nat :=
  List.length (List.filter is_admission tr).

(** *** Concurrent callers, continued *)

(** A goroutine that has begun a login, or is past it. *)
Definition begun (pc : PC) : bool :=
  match pc with
  | pcInFlight _ | pcUnlock _ | pcDone _ => true
  | _ => false
  end.

(** The login a goroutine has in flight is going to fail; the result it
    is about to return, or has returned, is an error. *)
Definition result_failed `{JWT} (pc : PC) : Prop :=
  match pc with
  | pcInFlight ex => forall b t, exists err, login b ex t = (Fail err, b)
  | pcUnlock r | pcDone r => exists err, r = Fail err
  | _ => True
  end.

(** The invariant of a window in which no login succeeds. *)
Definition failing_inv `{JWT} (a : AuthManager) (t0 : Time) (s : Sys) : Prop :=
  sys_am s = a /\ t0 <= sys_clock s
  /\ attempts s = List.length (List.filter begun (pcs s))
  /\ Forall result_failed (pcs s).

(** The invariant of a window in which the cached token stays valid. *)
Definition cached_inv (a : AuthManager) (s : Sys) : Prop :=
  sys_am s = a /\ logins s = 0%nat /\ attempts s = 0%nat /\ refreshMutex s = None
  /\ Forall (fun pc => pc = pcCheck \/ pc = pcDone (Val (token a))) (pcs s).

(** The refresh mutex is held by a goroutine past [refreshMutex.Lock()]. *)
Definition mutex_owner_inv (s : Sys) : Prop :=
  forall i, refreshMutex s = Some i ->
    exists pc, pcs s !! i = Some pc /\ holds_refresh pc = true.

(** The steps a goroutine is from returning, at most. *)
Definition rank (pc : PC) : nat :=
  match pc with
  | pcCheck => 5
  | pcLock => 4
  | pcRecheck => 3
  | pcInFlight _ => 2
  | pcUnlock _ => 1
  | pcDone _ => 0
  end.

(** The schedule that lets goroutine [i] run until it returns, and the
    one that lets the holder of the refresh mutex, if any, and then every
    goroutine in turn run until it returns. *)
Definition finish (i : nat) : list Action := replicate 5 (Run i).

Definition completion (s : Sys) : list Action :=
  match refreshMutex s with
  | Some j => finish j
  | None => []
  end ++ flat_map finish (seq 0 (List.length (pcs s))).

(** *** Employee service *)

(** A server that holds the employees [L] and answers the request for a
    page with the slice of [L] the page and the limit select. *)
Definition paginate {Employee : Type} (L : list Employee) (page limit : Z)
  : Res (list Employee) :=
  Val (firstn (Z.to_nat limit) (skipn (Z.to_nat ((page - 1) * limit)) L)).

(** * Properties *)

(** ** 64-bit arithmetic *)

Lemma wrap64_mod (z : Z) : wrap64 z mod 2 ^ 64 = z mod 2 ^ 64.
Proof.
  unfold wrap64.
  rewrite <- Zminus_mod_idemp_l, Z.mod_mod by lia.
  rewrite Zminus_mod_idemp_l. f_equal. lia.
Qed.

Lemma wrap64_congr (a b : Z) : a mod 2 ^ 64 = b mod 2 ^ 64 -> wrap64 a = wrap64 b.
Proof.
  intros H. unfold wrap64.
  rewrite <- (Zplus_mod_idemp_l a), <- (Zplus_mod_idemp_l b), H. reflexivity.
Qed.

Lemma wrap64_id (z : Z) : in_int64 z -> wrap64 z = z.
Proof. unfold in_int64, wrap64. intros H. rewrite Z.mod_small; lia. Qed.

(** The pause before retry [i] is [d * 2^i] reduced to 64 bits, whatever
    the shift and the product overflow on the way. *)
Lemma backoff_wrap (d i : Z) :
  0 <= i -> int64_mul d (int64_shl1 i) = wrap64 (d * 2 ^ i).
Proof.
  intros Hi. unfold int64_mul, int64_shl1. apply wrap64_congr.
  destruct (Z.leb_spec 0 i); [|lia]. cbn [andb].
  destruct (Z.ltb_spec i 64).
  - rewrite <- Zmult_mod_idemp_r, wrap64_mod, Zmult_mod_idemp_r. reflexivity.
  - replace i with (64 + (i - 64)) by lia. rewrite Z.pow_add_r by lia.
    rewrite Z.mul_0_r. rewrite Z.mul_assoc, (Z.mul_comm d), <- Z.mul_assoc.
    rewrite Z.mul_comm, Z_mod_mult. reflexivity.
Qed.

Lemma abs_int64_sub (a b : Z) :
  0 <= a < 2 ^ 63 -> 0 <= b < 2 ^ 63 -> abs (int64_sub a b) = Z.abs (a - b).
Proof.
  intros Ha Hb. unfold abs, int64_sub, int64_neg.
  rewrite (wrap64_id (a - b)) by (unfold in_int64; lia).
  destruct (Z.ltb_spec (a - b) 0).
  - rewrite wrap64_id by (unfold in_int64; lia). lia.
  - lia.
Qed.

(** ** Decimal printing and parsing *)

Lemma parse_digits_acc (u : Decimal.uint) (acc : positive) :
  parse_digits (NilEmpty.string_of_uint u) (Z.pos acc)
  = Some (Z.pos (Pos.of_uint_acc u acc)).
Proof.
  revert acc.
  induction u; intros acc;
    cbn [NilEmpty.string_of_uint parse_digits Pos.of_uint_acc];
    [reflexivity|..]; cbn [digit_val]; rewrite <- IHu; f_equal; cbn; lia.
Qed.

Lemma parse_digits_0 (u : Decimal.uint) :
  parse_digits (NilEmpty.string_of_uint u) 0 = Some (Z.of_N (Pos.of_uint u)).
Proof.
  induction u; cbn [NilEmpty.string_of_uint parse_digits Pos.of_uint];
    [reflexivity|exact IHu|..]; cbn [digit_val]; cbn; apply parse_digits_acc.
Qed.

Lemma string_of_uint_head (u : Decimal.uint) :
  u <> Decimal.Nil ->
  exists c s, NilEmpty.string_of_uint u = String c s
              /\ Ascii.eqb c "+" = false /\ Ascii.eqb c "-" = false.
Proof.
  destruct u; [congruence|..]; intros _; eexists _, _; cbn;
    split; reflexivity || (split; reflexivity).
Qed.

Lemma to_uint_nonnil (p : positive) : Pos.to_uint p <> Decimal.Nil.
Proof.
  intros H. pose proof (DecimalPos.Unsigned.of_to p) as E.
  rewrite H in E. discriminate.
Qed.

Lemma ParseInt_pos (p : positive) :
  ParseInt (NilEmpty.string_of_uint (Pos.to_uint p))
  = if Z.pos p <? 2 ^ 63 then Some (Z.pos p) else None.
Proof.
  destruct (string_of_uint_head _ (to_uint_nonnil p)) as (c & s & E & Hp & Hm).
  unfold ParseInt. pose proof (parse_digits_0 (Pos.to_uint p)) as Hd.
  rewrite DecimalPos.Unsigned.of_to in Hd. rewrite E in *. rewrite Hp, Hm, Hd.
  reflexivity.
Qed.

(** What [FormatInt] prints, [ParseInt] reads back. *)
Lemma ParseInt_FormatInt (z : Z) : in_int64 z -> ParseInt (FormatInt z) = Some z.
Proof.
  unfold in_int64, FormatInt. intros Hz. destruct z as [|p|p]; cbn [Z.to_int].
  - reflexivity.
  - cbn [NilZero.string_of_int]. unfold NilZero.string_of_uint.
    pose proof (to_uint_nonnil p).
    destruct (Pos.to_uint p) eqn:E; [congruence|..];
      rewrite <- E, ParseInt_pos;
      destruct (Z.ltb_spec (Z.pos p) (2 ^ 63)); auto; lia.
  - cbn [NilZero.string_of_int]. unfold NilZero.string_of_uint.
    pose proof (to_uint_nonnil p) as Hn.
    assert (E : (match Pos.to_uint p with
                 | Decimal.Nil => "0"
                 | _ => NilEmpty.string_of_uint (Pos.to_uint p)
                 end) = NilEmpty.string_of_uint (Pos.to_uint p)).
    { destruct (Pos.to_uint p); congruence. }
    rewrite E. unfold ParseInt.
    change (Ascii.eqb "-" "+") with false. change (Ascii.eqb "-" "-") with true.
    cbv iota beta.
    destruct (string_of_uint_head _ Hn) as (c & s & Es & _ & _).
    pose proof (parse_digits_0 (Pos.to_uint p)) as Hd.
    rewrite DecimalPos.Unsigned.of_to in Hd. rewrite Es in *. rewrite Hd.
    change (Z.of_N (N.pos p)) with (Z.pos p).
    destruct (Z.leb_spec (Z.pos p) (2 ^ 63)); [reflexivity|lia].
Qed.

Lemma FormatInt_nonempty (z : Z) : FormatInt z <> "".
Proof.
  unfold FormatInt. destruct z as [|p|p]; cbn; try discriminate.
  unfold NilZero.string_of_uint.
  destruct (string_of_uint_head _ (to_uint_nonnil p)) as (c & s & E & _).
  destruct (Pos.to_uint p); try discriminate; rewrite E; discriminate.
Qed.

(** ** The order of Go strings and the library sort *)

Lemma string_le_trans (s1 s2 s3 : string) :
  string_le s1 s2 -> string_le s2 s3 -> string_le s1 s3.
Proof.
  unfold string_le, String.leb. revert s2 s3.
  induction s1 as [|a s1 IH]; intros [|b s2] [|c s3];
    cbn [String.compare]; try congruence.
  unfold Ascii.compare.
  destruct (N.compare_spec (N_of_ascii a) (N_of_ascii b)) as [Eab|Lab|Gab];
    destruct (N.compare_spec (N_of_ascii b) (N_of_ascii c)) as [Ebc|Lbc|Gbc];
    try congruence.
  - rewrite Eab, Ebc, N.compare_refl. apply IH.
  - rewrite Eab. intros _ _. apply N.compare_lt_iff in Lbc. rewrite Lbc. reflexivity.
  - rewrite <- Ebc. intros _ _. apply N.compare_lt_iff in Lab. rewrite Lab. reflexivity.
  - intros _ _. assert (H : (N_of_ascii a < N_of_ascii c)%N) by lia.
    apply N.compare_lt_iff in H. rewrite H. reflexivity.
Qed.

#[global] Instance string_le_transitive : Transitive string_le.
Proof. intros x y z. apply string_le_trans. Qed.

#[global] Instance string_le_total : Total string_le.
Proof. intros x y. apply String.leb_total. Qed.

#[global] Instance string_le_antisymm : AntiSymm (=) string_le.
Proof. intros x y. apply String.leb_antisym. Qed.

Lemma sort_Strings_sorted (l : list string) :
  StronglySorted string_le (sort_Strings l).
Proof. apply StronglySorted_merge_sort; apply _. Qed.

Lemma sort_Strings_perm (l : list string) : Permutation (sort_Strings l) l.
Proof. apply merge_sort_Permutation. Qed.

(** Whatever sorting algorithm the library runs, its result is this one. *)
Lemma sort_Strings_unique (l l' : list string) :
  Permutation l' l -> StronglySorted string_le l' -> l' = sort_Strings l.
Proof.
  intros Hp Hs. apply (StronglySorted_unique string_le); auto.
  - apply sort_Strings_sorted.
  - rewrite Hp. symmetry. apply sort_Strings_perm.
Qed.

(** ** Hexadecimal encoding *)

Lemma hex_digits_lower (c : ascii) :
  is_lower_hex (hexdigit (N_of_ascii c / 16)) = true
  /\ is_lower_hex (hexdigit (N_of_ascii c mod 16)) = true.
Proof. destruct c as [[] [] [] [] [] [] [] []]; vm_compute; split; reflexivity. Qed.

Lemma hex_EncodeToString_lower (s : string) :
  forallb_string is_lower_hex (hex_EncodeToString s) = true
  /\ String.length (hex_EncodeToString s) = (2 * String.length s)%nat.
Proof.
  induction s as [|c s [IH1 IH2]]; [split; reflexivity|].
  cbn [hex_EncodeToString forallb_string String.length].
  destruct (hex_digits_lower c) as [-> ->]. rewrite IH1, IH2.
  split; [reflexivity|lia].
Qed.

(** ** Headers *)

Lemma Header_Get_Set (h : gmap string (list string)) (k v : string) :
  Header_Get (Header_Set h k v) k = v.
Proof. unfold Header_Get, Header_Set. rewrite lookup_insert_eq. reflexivity. Qed.

Lemma Header_Get_Set_ne (h : gmap string (list string)) (k k' v : string) :
  CanonicalMIMEHeaderKey k <> CanonicalMIMEHeaderKey k' ->
  Header_Get (Header_Set h k v) k' = Header_Get h k'.
Proof.
  intros H. unfold Header_Get, Header_Set. rewrite lookup_insert_ne by exact H.
  reflexivity.
Qed.

(** The loop of [canonicalizeHeaders] builds the lines of the
    specification. *)
Lemma canonicalizeHeaders_lines (req : Request) :
  canonicalizeHeaders req = strings_Join (signed_header_lines req) LF.
Proof.
  unfold canonicalizeHeaders, signed_header_lines, headersToSign.
  cbn [fold_left List.filter map].
  destruct (String.eqb (Header_Get (Header req) "authorization") "");
    destruct (String.eqb (Header_Get (Header req) "content-type") "");
    destruct (String.eqb (Header_Get (Header req) "x-timestamp") "");
    reflexivity.
Qed.

Lemma canonicalizeHeaders_ext (req req' : Request) :
  (forall name, In name headersToSign ->
     Header_Get (Header req') name = Header_Get (Header req) name) ->
  canonicalizeHeaders req' = canonicalizeHeaders req.
Proof.
  intros H. unfold canonicalizeHeaders, headersToSign in *. cbn [fold_left].
  rewrite !H by (cbn; auto). reflexivity.
Qed.

(** ** Request signing *)

Section Signing.
Context `{HH : Hashing}.

(** The canonical string reads the method, the path, the query and the
    three signed headers of the request, and nothing else. *)
Lemma createStringToSign_ext (req req' : Request) (body : string) (ts : Z) :
  Method req' = Method req -> URL_Path req' = URL_Path req ->
  URL_RawQuery req' = URL_RawQuery req ->
  (forall name, In name headersToSign ->
     Header_Get (Header req') name = Header_Get (Header req) name) ->
  createStringToSign req' body ts = createStringToSign req body ts.
Proof.
  intros Hm Hp Hq Hh. unfold createStringToSign.
  rewrite Hm, Hp, Hq, (canonicalizeHeaders_ext req req' Hh). reflexivity.
Qed.

Lemma SignRequest_headers (rs : RequestSigner) (now : Time) (req : Request)
    (body : string) :
  let req' := SignRequest (Some rs) now req body in
  Header_Get (Header req') "X-Timestamp" = FormatInt (Time_Unix now)
  /\ Header_Get (Header req') "X-Signature"
     = hex_EncodeToString
         (hmac_SHA256 (secret rs)
            (createStringToSign (stamped req now) body (Time_Unix now)))
  /\ createStringToSign req' body (Time_Unix now)
     = createStringToSign (stamped req now) body (Time_Unix now).
Proof.
  cbn zeta. unfold SignRequest. fold (stamped req now). cbn [Header set_Header].
  split; [|split].
  - rewrite Header_Get_Set_ne by (vm_compute; discriminate).
    unfold stamped; cbn [Header set_Header]. apply Header_Get_Set.
  - apply Header_Get_Set.
  - apply createStringToSign_ext; try reflexivity.
    intros name Hn. cbn [Header set_Header].
    apply Header_Get_Set_ne.
    cbn in Hn. destruct Hn as [<-|[<-|[<-|[]]]]; vm_compute; discriminate.
Qed.

Lemma SignRequest_signed_at (rs : RequestSigner) (now : Time) (req : Request) :
  let req' := SignRequest (Some rs) now req (body_of req) in
  signed_at rs (Time_Unix now) req' /\ Body req' = Body req.
Proof.
  cbn zeta.
  destruct (SignRequest_headers rs now req (body_of req)) as (H1 & H2 & H3).
  split; [|reflexivity]. split; [exact H1|].
  rewrite H2. unfold generateSignature. f_equal. f_equal.
  unfold body_of at 3. cbn [Body SignRequest set_Header]. fold (body_of req).
  symmetry. exact H3.
Qed.


(** C7. After [SignRequest] has set [X-Timestamp] and [X-Signature],
    [VerifySignature] on the unmodified request, the body and the
    produced signature is true at any time within 300 seconds of the
    recorded timestamp, and false, for any signature, once the timestamp
    and the current time are more than 300 seconds apart.  The clock
    readings are nanosecond counts that fit [int64] (1970 to 2262). *)
Theorem sign_then_verify (rs : RequestSigner) (req : Request) (body : string)
    (t_sign t_verify : Time) :
  0 <= t_sign < 2 ^ 63 ->
  0 <= t_verify < 2 ^ 63 ->
  let req' := SignRequest (Some rs) t_sign req body in
  let signature := Header_Get (Header req') "X-Signature" in
  (Z.abs (Time_Unix t_verify - Time_Unix t_sign) <= 300 ->
   VerifySignature (Some rs) t_verify req' body signature = true)
  /\ (Z.abs (Time_Unix t_verify - Time_Unix t_sign) > 300 ->
      forall sig, VerifySignature (Some rs) t_verify req' body sig = false).
Proof.
  intros Hs Hv req' signature.
  assert (Hu : forall t, 0 <= t < 2 ^ 63 -> 0 <= Time_Unix t < 2 ^ 63).
  { intros t Ht. unfold Time_Unix, Second. split.
    - apply Z.div_pos; lia.
    - apply Z.div_lt_upper_bound; lia. }
  destruct (SignRequest_headers rs t_sign req body) as (Hts & Hsig & Hcanon).
  fold req' in Hts, Hsig, Hcanon.
  assert (Hparse : ParseInt (FormatInt (Time_Unix t_sign)) = Some (Time_Unix t_sign)).
  { apply ParseInt_FormatInt. specialize (Hu _ Hs). unfold in_int64. lia. }
  assert (Hne : String.eqb (FormatInt (Time_Unix t_sign)) "" = false).
  { apply String.eqb_neq. apply FormatInt_nonempty. }
  unfold VerifySignature. rewrite Hts, Hne, Hparse.
  rewrite abs_int64_sub by auto.
  split.
  - intros Hw.
    destruct (Z.gtb_spec (Z.abs (Time_Unix t_verify - Time_Unix t_sign)) 300); [lia|].
    unfold generateSignature. subst signature. rewrite Hsig, Hcanon.
    apply String.eqb_refl.
  - intros Hw sig.
    destruct (Z.gtb_spec (Z.abs (Time_Unix t_verify - Time_Unix t_sign)) 300);
      [reflexivity|lia].
Qed.
End Signing.

(** The canonical string of a request with a query and two signed
    headers, under the stand-in hash. *)
Example canonical_string_example :
  createStringToSign (H := example_Hashing) example_request "" 1700000000
  = strings_Join ["GET"; "/employees"; "limit=10&page=2";
                  strings_Join ["authorization:Bearer abc";
                                "content-type:application/json"] LF;
                  "0000000000000000000000000000000000000000000000000000000000000000";
                  "1700000000"] LF.
Proof. vm_compute. reflexivity. Qed.

(** A request signed at 1700000000 s verifies two minutes later and no
    longer six minutes later. *)
Lemma sign_then_verify_witness :
  let rs := NewRequestSigner "s3cret" in
  let req' := SignRequest (H := example_Hashing) (Some rs)
                (1700000000 * Second) example_request "" in
  VerifySignature (H := example_Hashing) (Some rs) (1700000120 * Second) req' ""
    (Header_Get (Header req') "X-Signature") = true
  /\ VerifySignature (H := example_Hashing) (Some rs) (1700000360 * Second) req' ""
       (Header_Get (Header req') "X-Signature") = false.
Proof.
  intros rs req'.
  destruct (sign_then_verify (HH := example_Hashing) rs example_request ""
              (1700000000 * Second) (1700000120 * Second)
              ltac:(vm_compute; split; [discriminate|reflexivity])
              ltac:(vm_compute; split; [discriminate|reflexivity])) as [H1 _].
  destruct (sign_then_verify (HH := example_Hashing) rs example_request ""
              (1700000000 * Second) (1700000360 * Second)
              ltac:(vm_compute; split; [discriminate|reflexivity])
              ltac:(vm_compute; split; [discriminate|reflexivity])) as [_ H2].
  split.
  - apply H1. vm_compute. discriminate.
  - apply H2. vm_compute. reflexivity.
Defined.

(** ** Token bucket *)

Lemma Qle_bool_false (x y : Q) : Qle_bool x y = false -> (y < x)%Q.
Proof.
  intros H. apply Qnot_le_lt. intros Hle. apply Qle_bool_iff in Hle. congruence.
Qed.

Lemma refilled_min (rl : RateLimiter) (now : Time) :
  (refilled rl now == Qmin (maxTokens rl) (tokens rl + elapsed_tokens rl now))%Q.
Proof.
  unfold refilled, elapsed_tokens.
  destruct (Qle_bool _ (maxTokens rl)) eqn:E; cbn.
  - apply Qle_bool_iff in E. symmetry. apply Q.min_r. exact E.
  - apply Qle_bool_false in E. symmetry. apply Q.min_l. apply Qlt_le_weak. exact E.
Qed.

Lemma refilled_le (rl : RateLimiter) (now : Time) :
  (refilled rl now <= tokens rl + elapsed_tokens rl now)%Q.
Proof. rewrite refilled_min. apply Q.le_min_r. Qed.

Lemma Allow_spec (rl : RateLimiter) (now : Time) :
  let '(ok, rl') := Allow rl now in
  lastRefill rl' = now
  /\ maxTokens rl' = maxTokens rl
  /\ refillRate rl' = refillRate rl
  /\ (ok = true <-> (1 <= refilled rl now)%Q)
  /\ (tokens rl' == if ok then refilled rl now - 1 else refilled rl now)%Q.
Proof.
  unfold Allow. destruct (Qle_bool 1 (refilled rl now)) eqn:E; cbn.
  - repeat split; auto; try reflexivity. intros _. apply Qle_bool_iff. exact E.
  - repeat split; auto; try reflexivity; try discriminate.
    intros H. apply Qle_bool_iff in H. congruence.
Qed.

Lemma Duration_Seconds_0 : (Duration_Seconds 0 == 0)%Q.
Proof. reflexivity. Qed.

Lemma Duration_Seconds_add (a b : Z) :
  (Duration_Seconds (a + b) == Duration_Seconds a + Duration_Seconds b)%Q.
Proof. unfold Duration_Seconds. rewrite inject_Z_plus. field. discriminate. Qed.

Lemma refilled_immediate (rl : RateLimiter) :
  (tokens rl <= maxTokens rl)%Q ->
  (refilled rl (lastRefill rl) == tokens rl)%Q.
Proof.
  intros H. rewrite refilled_min. unfold elapsed_tokens, Time_Sub.
  rewrite Z.sub_diag. rewrite Q.min_r; [|rewrite Duration_Seconds_0; lra].
  rewrite Duration_Seconds_0. lra.
Qed.

Lemma refilled_proper (rl1 rl2 : RateLimiter) (now : Time) :
  (tokens rl1 == tokens rl2)%Q -> (maxTokens rl1 == maxTokens rl2)%Q ->
  (refillRate rl1 == refillRate rl2)%Q -> lastRefill rl1 = lastRefill rl2 ->
  (refilled rl1 now == refilled rl2 now)%Q.
Proof.
  intros Ht Hm Hr Hl. rewrite !refilled_min. unfold elapsed_tokens.
  rewrite Ht, Hm, Hr, Hl. reflexivity.
Qed.

Lemma Allow_seq_cons (rl : RateLimiter) (t : Time) (ts : list Time) :
  Allow_seq rl (t :: ts) =
    (fst (Allow rl t) :: fst (Allow_seq (snd (Allow rl t)) ts),
     snd (Allow_seq (snd (Allow rl t)) ts)).
Proof.
  cbn [Allow_seq]. destruct (Allow rl t) as [ok rl1]. cbn [fst snd].
  destruct (Allow_seq rl1 ts). reflexivity.
Qed.

(** Spending a full bucket of [n] tokens at one instant. *)
Lemma Allow_seq_burst (n : nat) (rl : RateLimiter) :
  (tokens rl == inject_Z (Z.of_nat n))%Q ->
  (tokens rl <= maxTokens rl)%Q ->
  let '(oks, rl') := Allow_seq rl (replicate (S n) (lastRefill rl)) in
  oks = replicate n true ++ [false]
  /\ (tokens rl' == 0)%Q
  /\ lastRefill rl' = lastRefill rl
  /\ maxTokens rl' = maxTokens rl
  /\ refillRate rl' = refillRate rl.
Proof.
  revert rl. induction n as [|n IH]; intros rl Ht Hm.
  - cbn [replicate Allow_seq].
    pose proof (Allow_spec rl (lastRefill rl)) as H.
    destruct (Allow rl (lastRefill rl)) as [ok rl1].
    destruct H as (Hl & Hmx & Hr & Hok & Htok).
    pose proof (refilled_immediate rl Hm) as Hi.
    change (inject_Z (Z.of_nat 0)) with 0%Q in Ht.
    assert (ok = false) as ->.
    { destruct ok; auto. destruct Hok as [Hok _]. specialize (Hok eq_refl). lra. }
    cbn. repeat split; auto. lra.
  - change (replicate (S (S n)) (lastRefill rl))
      with (lastRefill rl :: replicate (S n) (lastRefill rl)).
    rewrite Allow_seq_cons.
    pose proof (Allow_spec rl (lastRefill rl)) as H.
    destruct (Allow rl (lastRefill rl)) as [ok rl1]. cbn [fst snd].
    destruct H as (Hl & Hmx & Hr & Hok & Htok).
    pose proof (refilled_immediate rl Hm) as Hi.
    assert (Hn : (inject_Z (Z.of_nat (S n)) == inject_Z (Z.of_nat n) + 1)%Q).
    { rewrite Nat2Z.inj_succ. unfold Z.succ. rewrite inject_Z_plus. reflexivity. }
    assert (Hpos : (0 <= inject_Z (Z.of_nat n))%Q).
    { change 0%Q with (inject_Z 0). rewrite <- Zle_Qle. lia. }
    assert (ok = true) as ->.
    { apply Hok. lra. }
    specialize (IH rl1). rewrite Hl in IH.
    destruct (Allow_seq rl1 (replicate (S n) (lastRefill rl))) as [oks rl2].
    cbn [fst snd].
    destruct IH as (-> & H0 & Hl2 & Hm2 & Hr2).
    + lra.
    + rewrite Hmx. lra.
    + cbn. repeat split; auto; congruence.
Qed.

(** What a limiter holds after any calls is bounded by what it held
    before plus what the elapsed time refilled. *)
Lemma Allow_seq_bound (ts : list Time) (rl : RateLimiter) :
  let '(_, rl') := Allow_seq rl ts in
  (tokens rl' <= tokens rl + elapsed_tokens rl (lastRefill rl'))%Q
  /\ refillRate rl' = refillRate rl.
Proof.
  revert rl. induction ts as [|t ts IH]; intros rl; cbn [Allow_seq].
  - split; [|reflexivity]. unfold elapsed_tokens, Time_Sub. rewrite Z.sub_diag.
    rewrite Duration_Seconds_0. lra.
  - pose proof (Allow_spec rl t) as H. destruct (Allow rl t) as [ok rl1].
    destruct H as (Hl & Hmx & Hr & Hok & Htok).
    specialize (IH rl1). destruct (Allow_seq rl1 ts) as [oks rl2].
    destruct IH as [IH Hr2]. split; [|congruence].
    pose proof (refilled_le rl t) as Hle.
    assert (H1 : (tokens rl1 <= tokens rl + elapsed_tokens rl t)%Q).
    { rewrite Htok. destruct ok; lra. }
    assert (H2 : (elapsed_tokens rl (lastRefill rl2)
                  == elapsed_tokens rl t + elapsed_tokens rl1 (lastRefill rl2))%Q).
    { unfold elapsed_tokens, Time_Sub. rewrite Hl, Hr.
      replace (lastRefill rl2 - lastRefill rl)
        with ((t - lastRefill rl) + (lastRefill rl2 - t)) by lia.
      rewrite Duration_Seconds_add. ring. }
    rewrite H2. lra.
Qed.

Lemma Allow_seq_app (rl : RateLimiter) (ts : list Time) (t : Time) :
  Allow_seq rl (ts ++ [t])
  = ((Allow_seq rl ts).1 ++ [(Allow (Allow_seq rl ts).2 t).1],
     (Allow (Allow_seq rl ts).2 t).2).
Proof.
  revert rl. induction ts as [|t' ts IH]; intros rl.
  - cbn. destruct (Allow rl t). reflexivity.
  - change ((t' :: ts) ++ [t]) with (t' :: (ts ++ [t])).
    rewrite !Allow_seq_cons, IH. reflexivity.
Qed.



(** The scenario of the specification: 5 requests per second, burst 10.
    Ten immediate calls pass, the eleventh does not; 199 ms later a call
    is still denied, and 1 ms after that one is admitted. *)
Example token_bucket_scenario :
  match NewRateLimiter (Some (mkRateLimitConfig (5 # 1) 10 true)) 0 with
  | Some rl =>
      (Allow_seq rl (replicate 11%nat 0 ++ [199 * Millisecond; 200 * Millisecond])).1
      = replicate 10%nat true ++ [false; false; true]
  | None => False
  end.
Proof. vm_compute. reflexivity. Qed.

(** ** Retry *)

Lemma retry_loop_chain inner m d :
  forall fuel i last req w,
    0 <= i <= m -> fuel = Z.to_nat (m + 1 - i) ->
    let '(res, _, _, atts) := retry_loop inner m d fuel i last req w in
    attempts_chain inner m d res req w i atts
    /\ (List.length atts <= fuel)%nat.
Proof.
  induction fuel as [|fuel IH]; intros i last req w Hi Hf; [lia|].
  cbn [retry_loop]. destruct (Z.leb_spec i m); [|lia].
  destruct (inner req w) as [[res req1] w1] eqn:Ein.
  assert (Hretry :
    retryable res = true ->
    let '(res', _, _, atts) :=
      (if i =? m then (res, req1, w1, [mkAttempt i req w res None])
       else
         let '(res', req', w', atts) :=
           retry_loop inner m d fuel (i + 1) res (restore_Body (Body req) req1)
             (Sleep (int64_mul d (int64_shl1 i)) w1) in
         (res', req', w', mkAttempt i req w res (Some (int64_mul d (int64_shl1 i))) :: atts)) in
    attempts_chain inner m d res' req w i atts /\ (List.length atts <= S fuel)%nat).
  { intros Hr. destruct (Z.eqb_spec i m) as [->|Hne].
    - cbn. rewrite Ein. repeat split; auto; try lia. destruct res; cbn in *; congruence.
    - match goal with |- context [retry_loop inner m d fuel (i + 1) res ?r ?ww] =>
        specialize (IH (i + 1) res r ww ltac:(lia) ltac:(lia));
        destruct (retry_loop inner m d fuel (i + 1) res r ww) as [[[res' req'] w'] atts] eqn:E
      end.
      destruct IH as [IH Hlen]. split; [|cbn; lia].
      destruct atts as [|a rest]; [destruct IH|].
      cbn [attempts_chain att_index att_req att_world att_result att_sleep].
      rewrite Ein. cbn [fst snd].
      split; [reflexivity|]. split; [reflexivity|]. split; [reflexivity|].
      split; [reflexivity|]. split; [exact Hr|]. split; [lia|].
      split; [reflexivity|]. exact IH. }
  destruct res as [r|e| | |]; cbn [retryable] in Hretry.
  - destruct (StatusCode r <? 500) eqn:Es.
    + cbn. rewrite Ein, ?Es. repeat split; auto; try lia; try discriminate.
    + apply Hretry. reflexivity.
  - apply Hretry. reflexivity.
  - cbn. rewrite Ein. repeat split; auto; try lia; try discriminate.
  - cbn. rewrite Ein. repeat split; auto; try lia; try discriminate.
  - cbn. rewrite Ein. repeat split; auto; try lia; try discriminate.
Qed.

Lemma Body_restore (b : option string) (req : Request) (x : string) :
  b = Some x -> Body (restore_Body b req) = Some x.
Proof. intros ->. reflexivity. Qed.

Lemma attempts_chain_lookup inner m d res :
  forall atts req w i k a,
    attempts_chain inner m d res req w i atts ->
    atts !! k = Some a ->
    att_index a = i + Z.of_nat k
    /\ att_result a = (inner (att_req a) (att_world a)).1.1
    /\ (forall x, Body req = Some x -> Body (att_req a) = Some x)
    /\ (S k = List.length atts ->
        att_sleep a = None /\ res = returned (att_result a)
        /\ (retryable (att_result a) = true -> att_index a = m))
    /\ ((S k < List.length atts)%nat ->
        retryable (att_result a) = true /\ att_index a < m
        /\ att_sleep a = Some (int64_mul d (int64_shl1 (att_index a)))
        /\ forall a', atts !! S k = Some a' ->
             att_req a' = restore_Body (Body (att_req a))
                            (inner (att_req a) (att_world a)).1.2
             /\ att_world a' = Sleep (int64_mul d (int64_shl1 (att_index a)))
                                 (inner (att_req a) (att_world a)).2).
Proof.
  induction atts as [|a0 rest IH]; intros req w i k a Hc Hk; [destruct Hc|].
  destruct Hc as (Hi & Hq & Hw & Hres & Hrest). destruct k as [|k]; cbn in Hk.
  - injection Hk as <-. split; [lia|]. rewrite Hq, Hw. split; [exact Hres|].
    split; [auto|].
    destruct rest as [|a1 rest']; cbn [List.length].
    + split; [intros _|lia]. rewrite Hi. exact Hrest.
    + split; [lia|intros _]. rewrite Hi.
      destruct Hrest as (H1 & H2 & H3 & H4). repeat split; auto.
      all: cbn in H; injection H as <-; destruct H4 as (_ & ? & ? & _); assumption.
  - destruct rest as [|a1 rest']; [discriminate|].
    destruct Hrest as (_ & _ & _ & Hc).
    destruct (IH _ _ (i + 1) k a Hc Hk) as (H1 & H2 & H3 & H4 & H5).
    split; [lia|]. split; [exact H2|].
    split. { intros x Hx. apply H3. apply Body_restore. exact Hx. }
    cbn [List.length] in *.
    split; intros; [apply H4|apply H5]; lia.
Qed.

(** C4. [retryTransport.RoundTrip] makes at most [maxRetries + 1]
    attempts, numbered from 0, each on the request with the body it had
    at the start.  An attempt that ends with a response below 500 (every
    4xx included) is the last one and its response is returned.  After
    an attempt that ends with a transport error or a status of 500 or
    more, with attempts remaining, the transport sleeps
    [retryDelay * 2^index] (reduced to [int64], hence exactly that
    product whenever it is a representable duration) and the next attempt
    starts from the request with its body reset, in the world after the
    pause; with no attempt remaining, the result of this last attempt is
    returned as it is. *)
Theorem retry_policy (inner : Request -> World -> Result * Request * World)
    (maxRetries retryDelay : Z) (req : Request) (w : World) :
  let '(res, _, _, atts) := retry_RoundTrip inner maxRetries retryDelay req w in
  Z.of_nat (List.length atts) <= Z.max 0 (maxRetries + 1)
  /\ (0 <= maxRetries -> exists a, atts !! 0%nat = Some a /\ att_req a = req /\ att_world a = w)
  /\ forall k a, atts !! k = Some a ->
       att_index a = Z.of_nat k
       /\ att_result a = (inner (att_req a) (att_world a)).1.1
       /\ (forall b, Body req = Some b -> Body (att_req a) = Some b)
       /\ (retryable (att_result a) = false ->
           S k = List.length atts /\ att_sleep a = None
           /\ res = returned (att_result a))
       /\ (retryable (att_result a) = true ->
           if Z.of_nat k <? maxRetries
           then att_sleep a = Some (wrap64 (retryDelay * 2 ^ Z.of_nat k))
                /\ (in_int64 (retryDelay * 2 ^ Z.of_nat k) ->
                    att_sleep a = Some (retryDelay * 2 ^ Z.of_nat k))
                /\ exists a', atts !! S k = Some a'
                     /\ att_req a' = restore_Body (Body (att_req a))
                                       (inner (att_req a) (att_world a)).1.2
                     /\ att_world a' = Sleep (wrap64 (retryDelay * 2 ^ Z.of_nat k))
                                         (inner (att_req a) (att_world a)).2
           else S k = List.length atts /\ att_sleep a = None
                /\ res = att_result a).
Proof.
  unfold retry_RoundTrip.
  destruct (Z.le_gt_cases 0 maxRetries) as [Hm|Hm].
  2:{ replace (Z.to_nat (maxRetries + 1)) with 0%nat by lia. cbn [retry_loop].
      destruct (Z.leb_spec 0 maxRetries); [lia|]. cbn.
      split; [lia|]. split; [lia|]. intros k a Hk. destruct k; discriminate. }
  pose proof (retry_loop_chain inner maxRetries retryDelay
                (Z.to_nat (maxRetries + 1)) 0 RNil req w ltac:(lia) ltac:(f_equal; lia)) as H.
  destruct (retry_loop inner maxRetries retryDelay (Z.to_nat (maxRetries + 1)) 0 RNil req w)
    as [[[res req'] w'] atts].
  destruct H as [Hc Hlen]. split; [lia|]. split.
  { intros _. destruct atts as [|a rest]; [destruct Hc|]. exists a. cbn.
    destruct Hc as (_ & ? & ? & _). auto. }
  intros k a Hk.
  pose proof (lookup_lt_Some _ _ _ Hk) as Hlt.
  destruct (attempts_chain_lookup _ _ _ _ _ _ _ _ _ _ Hc Hk) as (H1 & H2 & H3 & H4 & H5).
  rewrite Z.add_0_l in H1.
  split; [exact H1|]. split; [exact H2|]. split; [exact H3|]. split.
  - intros Hr. destruct (Nat.eq_dec (S k) (List.length atts)) as [E|E].
    + destruct (H4 E) as (? & ? & _). auto.
    + destruct H5 as (Hr' & _); [lia|]. congruence.
  - intros Hr. rewrite H1 in *. rewrite backoff_wrap in H5 by lia.
    destruct (Z.ltb_spec (Z.of_nat k) maxRetries) as [Hk'|Hk'].
    + destruct (Nat.eq_dec (S k) (List.length atts)) as [E|E].
      * destruct (H4 E) as (_ & _ & Hm'). specialize (Hm' Hr). lia.
      * destruct H5 as (_ & _ & Hs & Hn); [lia|].
        split; [exact Hs|]. split.
        { intros Hin. rewrite Hs, wrap64_id by exact Hin. reflexivity. }
        destruct (lookup_lt_is_Some_2 atts (S k) ltac:(lia)) as [a' Ha'].
        exists a'. split; [exact Ha'|]. apply Hn. exact Ha'.
    + destruct (Nat.eq_dec (S k) (List.length atts)) as [E|E].
      * destruct (H4 E) as (? & Hres & _). repeat split; auto.
        rewrite Hres. destruct (att_result a); cbn in *; congruence.
      * destruct H5 as (_ & ? & _); [lia|]. lia.
Qed.

(** ** The transport chain *)

Section Chain.
Context `{HH : Hashing}.

Lemma pipeline_trace_app (rs : RequestSigner) (l1 l2 : list Event) :
  pipeline_trace rs l1 -> pipeline_trace rs l2 -> pipeline_trace rs (l1 ++ l2).
Proof.
  induction 1; intros H2; cbn; [exact H2|constructor; auto..].
Qed.

Lemma Wait_trace (rs : RequestSigner) (fuel : nat) (p : nat) (ctx : option Time) :
  forall w,
    let '(r, w') := Wait fuel p ctx w in
    exists den,
      pipeline_trace rs den
      /\ (forall tl, pipeline_trace rs tl -> pipeline_trace rs (den ++ tl))
      /\ match r with
         | WaitNil => log w' = log w ++ den ++ [EvAllow (clock w') true]
         | _ => log w' = log w ++ den
         end.
Proof.
  induction fuel as [|fuel IH]; intros w; cbn [Wait].
  - exists []. cbn. rewrite app_nil_r. repeat split; auto. constructor.
  - destruct (limiters w !! p) as [rl|].
    2:{ exists []. cbn. rewrite app_nil_r. repeat split; auto. constructor. }
    destruct (Allow rl (clock w)) as [ok rl'] eqn:Ea.
    destruct ok.
    + exists []. cbn. repeat split; auto. constructor.
    + set (w1 := emit (set_limiter w p rl') (EvAllow (clock w) false)).
      assert (Hcase : forall w2, log w2 = log w1 ->
                let '(r, w') := Wait fuel p ctx w2 in
                exists den, pipeline_trace rs den
                  /\ (forall tl, pipeline_trace rs tl -> pipeline_trace rs (den ++ tl))
                  /\ match r with
                     | WaitNil => log w' = log w ++ den ++ [EvAllow (clock w') true]
                     | _ => log w' = log w ++ den
                     end).
      { intros w2 Hw2. specialize (IH w2).
        destruct (Wait fuel p ctx w2) as [r w'].
        destruct IH as (den & Hden & Happ & Hlog).
        exists (EvAllow (clock w) false :: den).
        split; [constructor; exact Hden|].
        split; [intros tl Htl; cbn; constructor; auto|].
        rewrite Hw2 in Hlog. subst w1. cbn [log emit set_limiter] in Hlog.
        destruct r; rewrite Hlog, <- app_assoc; reflexivity. }
      assert (Hstop : exists den : list Event,
                 pipeline_trace rs den
                 /\ (forall tl, pipeline_trace rs tl -> pipeline_trace rs (den ++ tl))
                 /\ log w1 = log w ++ den).
      { exists [EvAllow (clock w) false]. split; [repeat constructor|].
        split; [intros tl Htl; cbn; constructor; auto|reflexivity]. }
      destruct ctx as [done_at|].
      * destruct (done_at <=? clock w1 + Z.max 0 (waitTime_of rl')).
        -- cbn. exact Hstop.
        -- apply Hcase. reflexivity.
      * apply Hcase. reflexivity.
Qed.

Lemma net_RoundTrip_log (req : Request) (w : World) :
  log (net_RoundTrip req w).2 = log w ++ [EvSend req].
Proof. unfold net_RoundTrip. destruct (answer _); reflexivity. Qed.

Lemma base_RoundTrip (fuel : nat) (base : RoundTripper) (req : Request) (w : World) :
  is_base base = true -> RoundTrip fuel base req w = net_RoundTrip req w.
Proof. destruct base; cbn; intros; congruence. Qed.

(** One pass through the limiter, the signer and the base transport. *)
Lemma gated_signed_trace (rs : RequestSigner) (fuel : nat) (base : RoundTripper)
    (p : nat) (req : Request) (w : World) :
  is_base base = true ->
  exists tr,
    log (RoundTrip fuel
           (rateLimitTransport (signingTransport base (Some rs)) (Some p)) req w).2
    = log w ++ tr
    /\ pipeline_trace rs tr.
Proof.
  intros Hb. cbn [RoundTrip Wait_ptr].
  pose proof (Wait_trace rs fuel p (ctxDone req) w) as Hw.
  destruct (Wait fuel p (ctxDone req) w) as [r w1].
  destruct Hw as (den & Hden & Happ & Hlog).
  destruct r.
  - unfold signing_step. fold (body_of req).
    destruct (SignRequest_signed_at rs (clock w1) req) as [Hs _].
    set (req' := SignRequest (Some rs) (clock w1) req (body_of req)) in *.
    rewrite (base_RoundTrip fuel base _ _ Hb).
    rewrite net_RoundTrip_log. cbn [log emit]. rewrite Hlog.
    exists (den ++ [EvAllow (clock w1) true; EvSign (Time_Unix (clock w1)); EvSend req']).
    split.
    + rewrite <- !app_assoc. reflexivity.
    + apply Happ. constructor; [exact Hs|constructor].
  - exists den. auto.
  - exists den. auto.
  - exists den. auto.
Qed.
Lemma Sleep_log (d : Z) (w : World) : log (Sleep d w) = log w ++ [EvSleep d].
Proof. reflexivity. Qed.

Lemma retry_loop_trace (rs : RequestSigner)
    (inner : Request -> World -> Result * Request * World) (m d : Z) :
  (forall req w, exists tr,
      log (inner req w).2 = log w ++ tr /\ pipeline_trace rs tr) ->
  forall fuel i last req w,
  exists tr,
    log (retry_loop inner m d fuel i last req w).1.2 = log w ++ tr
    /\ pipeline_trace rs tr.
Proof.
  intros Hin. induction fuel as [|fuel IH]; intros i last req w; cbn [retry_loop].
  - destruct (i <=? m); exists []; cbn; rewrite app_nil_r; split; auto; constructor.
  - destruct (i <=? m).
    2:{ exists []; cbn; rewrite app_nil_r; split; auto; constructor. }
    destruct (Hin req w) as (tr & Htr & Hp).
    destruct (inner req w) as [[res req1] w1]. cbn [snd] in Htr.
    assert (Hstop : forall (x : Result) (r : Request) (a : list Attempt),
               exists tr0, log (x, r, w1, a).1.2 = log w ++ tr0 /\ pipeline_trace rs tr0).
    { intros. exists tr. auto. }
    assert (Hretry :
      exists tr0,
        log (if i =? m then (res, req1, w1, [mkAttempt i req w res None])
             else
               let '(res', req', w', atts) :=
                 retry_loop inner m d fuel (i + 1) res (restore_Body (Body req) req1)
                   (Sleep (int64_mul d (int64_shl1 i)) w1) in
               (res', req', w',
                mkAttempt i req w res (Some (int64_mul d (int64_shl1 i))) :: atts)).1.2
        = log w ++ tr0 /\ pipeline_trace rs tr0).
    { destruct (i =? m); [apply Hstop|].
      specialize (IH (i + 1) res (restore_Body (Body req) req1)
                    (Sleep (int64_mul d (int64_shl1 i)) w1)).
      destruct (retry_loop inner m d fuel (i + 1) res _ _) as [[[res' req'] w'] atts].
      destruct IH as (tr' & Htr' & Hp'). cbn [fst snd] in *.
      exists (tr ++ EvSleep (int64_mul d (int64_shl1 i)) :: tr').
      split.
      - rewrite Htr', Sleep_log, Htr, <- !app_assoc. reflexivity.
      - apply pipeline_trace_app; [exact Hp|]. constructor. exact Hp'. }
    destruct res as [r|e| | |]; try apply Hstop; try exact Hretry.
    destruct (StatusCode r <? 500); [apply Hstop|exact Hretry].
Qed.

(** C1, as amended.  [New] with signing and rate limiting enabled builds
    the chain rate limit over signing over the base transport, and
    [SetRetryPolicy] wraps it in the retry layer: outermost to innermost
    the layers are Retry, Admission Control, Signing, base transport.
    Every request the server observes was admitted by the limiter just
    before and then stamped with the time of that admission and signed
    for it: each retry attempt is itself rate limited and carries a
    freshly computed timestamp and signature, and the rate limiter gates
    the attempt before it is signed. *)
Theorem chain_order (cfg : Config) (sec : SecurityConfig) (rlc : RateLimitConfig)
    (hc : HTTPClient) (w : World) (maxRetries retryDelay : Z) :
  Security cfg = Some sec ->
  EnableRequestSigning_ sec = true ->
  SigningSecret sec <> "" ->
  RateLimit cfg = Some rlc ->
  Enabled rlc = true ->
  HTTPClient_ cfg = Some hc ->
  is_base (configured_base hc) = true ->
  let rs := NewRequestSigner (SigningSecret sec) in
  let c := (New (Some cfg) w).1 in
  exists p c',
    rateLimiter c = Some p
    /\ client_transport c
       = Some (rateLimitTransport
                 (signingTransport (configured_base hc) (Some rs)) (Some p))
    /\ SetRetryPolicy c maxRetries retryDelay = Some c'
    /\ client_transport c'
       = Some (retryTransport
                 (rateLimitTransport
                    (signingTransport (configured_base hc) (Some rs)) (Some p))
                 maxRetries retryDelay)
    /\ (forall t, client_transport c' = Some t ->
          layers t = [LRetry; LRateLimit; LSigning; LBase]
          /\ forall fuel req w0,
               exists tr,
                 log (RoundTrip fuel t req w0).2 = log w0 ++ tr
                 /\ pipeline_trace rs tr).
Proof.
  intros Hsec Hen Hss Hrl Hrle Hhc Hbase rs c.
  apply String.eqb_neq in Hss.
  subst c. unfold New. rewrite Hsec, Hrl, Hhc. unfold NewRateLimiter.
  rewrite Hen, Hss, Hrle. cbn [negb andb alloc_limiter fst].
  set (p := fresh_ptr w).
  fold (configured_base hc). fold rs.
  exists p. eexists. split; [reflexivity|]. split; [reflexivity|].
  split; [reflexivity|]. split; [reflexivity|].
  intros t Ht. cbn in Ht. injection Ht as <-.
  split.
  - cbn [layers]. destruct (configured_base hc); try discriminate; reflexivity.
  - intros fuel req w0. cbn [RoundTrip]. unfold retry_RoundTrip.
    pose proof (retry_loop_trace rs
                 (RoundTrip fuel
                    (rateLimitTransport
                       (signingTransport (configured_base hc) (Some rs)) (Some p)))
                 maxRetries retryDelay
                 (fun r w1 => gated_signed_trace rs fuel _ p r w1 Hbase)
                 (Z.to_nat (maxRetries + 1)) 0 RNil req w0) as H.
    destruct (retry_loop _ _ _ _ _ _ _ _) as [[[res req'] w'] atts].
    exact H.
Qed.
End Chain.

(** C1, counterexample.  On the client of the end-to-end scenario
    (5 requests per second, burst 10, secret "s3cret") with a retry
    policy, the outermost layer is Retry and the innermost wrapper is
    Signing; a request answered 500 then 200 is gated, signed and sent
    twice, the admission coming before the signature each time. *)
Lemma signing_first_counterexample :
  let '(c, w) := New (H := example_Hashing) (Some example_config) example_world in
  match SetRetryPolicy c 2 (100 * Millisecond) with
  | Some c' =>
      match client_transport c' with
      | Some t =>
          layers t <> [LSigning; LRateLimit; LRetry; LBase]
          /\ map kind_of (log (RoundTrip (H := example_Hashing) 100 t example_request w).2)
             = [KAllow true; KSign; KSend; KSleep; KAllow true; KSign; KSend]
      | None => False
      end
  | None => False
  end.
Proof. vm_compute. split; [discriminate|reflexivity]. Qed.

Lemma chain_order_witness :
  exists t c',
    SetRetryPolicy (New (H := example_Hashing) (Some example_config) example_world).1
      2 (100 * Millisecond) = Some c'
    /\ client_transport c' = Some t
    /\ layers t = [LRetry; LRateLimit; LSigning; LBase].
Proof.
  destruct (chain_order (HH := example_Hashing) example_config
              (mkSecurityConfig false "" None true "s3cret")
              (mkRateLimitConfig (5 # 1) 10 true)
              (mkHTTPClient None (30 * Second))
              example_world 2 (100 * Millisecond)
              eq_refl eq_refl ltac:(discriminate) eq_refl eq_refl eq_refl eq_refl)
    as (p & c' & _ & _ & Hset & Ht & Hall).
  eexists _, c'. split; [exact Hset|]. split; [exact Ht|].
  exact (proj1 (Hall _ Ht)).
Defined.

(** ** Rebuilding the chain *)

Lemma updateTransportChain_shape (c : Client) :
  match updateTransportChain c with
  | Some c' =>
      client_transport c' =
        Some (match rateLimiter c, requestSigner c with
              | Some _, Some _ =>
                  rateLimitTransport
                    (signingTransport DefaultTransport (requestSigner c))
                    (rateLimiter c)
              | Some _, None => rateLimitTransport DefaultTransport (rateLimiter c)
              | None, Some _ => signingTransport DefaultTransport (requestSigner c)
              | None, None => DefaultTransport
              end)
      /\ requestSigner c' = requestSigner c
      /\ rateLimiter c' = rateLimiter c
  | None => httpClient c = None
  end.
Proof.
  unfold updateTransportChain, set_Transport, client_transport.
  destruct (httpClient c) as [hc|]; [|reflexivity].
  cbn. destruct (rateLimiter c), (requestSigner c); auto.
Qed.

Lemma updateTransportChain_rebuilt (c c' : Client) (t : RoundTripper) :
  updateTransportChain c = Some c' ->
  client_transport c' = Some t ->
  rebuilt_shape t /\ ~ In LRetry (layers t).
Proof.
  intros Hc Ht. pose proof (updateTransportChain_shape c) as H.
  rewrite Hc in H. destruct H as (H & _ & _). rewrite Ht in H.
  injection H as ->. unfold rebuilt_shape.
  destruct (rateLimiter c), (requestSigner c); cbn; intuition congruence.
Qed.

(** C10. [EnableRequestSigning] and [DisableRequestSigning] rebuild the
    chain from [http.DefaultTransport]: whatever the transport of the
    client was before (a retry layer of [SetRetryPolicy], a custom base
    transport), the chain is afterwards at most a rate limit layer over
    at most a signing layer over the default transport, with no retry
    layer; the call panics on a client without HTTP client. *)
Theorem signing_toggle_rebuilds_chain (c : Client) (signingSecret : string) :
  (match EnableRequestSigning c signingSecret with
   | Some c' =>
       exists t, client_transport c' = Some t
         /\ rebuilt_shape t
         /\ ~ In LRetry (layers t)
         /\ In LSigning (layers t)
   | None => httpClient c = None
   end)
  /\
  (match DisableRequestSigning c with
   | Some c' =>
       exists t, client_transport c' = Some t
         /\ rebuilt_shape t
         /\ ~ In LRetry (layers t)
         /\ ~ In LSigning (layers t)
   | None => httpClient c = None
   end).
Proof.
  split.
  - unfold EnableRequestSigning.
    match goal with |- context [updateTransportChain ?x] => set (c1 := x) end.
    pose proof (updateTransportChain_shape c1) as H.
    destruct (updateTransportChain c1) as [c'|] eqn:E; [|exact H].
    destruct H as (Ht & _ & _).
    eexists; split; [exact Ht|].
    destruct (updateTransportChain_rebuilt _ _ _ E Ht) as [Hs Hr].
    split; [exact Hs|]. split; [exact Hr|].
    subst c1; cbn. destruct (rateLimiter c); cbn; auto.
  - unfold DisableRequestSigning.
    match goal with |- context [updateTransportChain ?x] => set (c1 := x) end.
    pose proof (updateTransportChain_shape c1) as H.
    destruct (updateTransportChain c1) as [c'|] eqn:E; [|exact H].
    destruct H as (Ht & _ & _).
    eexists; split; [exact Ht|].
    destruct (updateTransportChain_rebuilt _ _ _ E Ht) as [Hs Hr].
    split; [exact Hs|]. split; [exact Hr|].
    subst c1; cbn. destruct (rateLimiter c); cbn; intuition congruence.
Qed.

(** ** Bearer token: sequential calls *)

Section Auth.
Context `{J : JWT}.

Lemma login_fail_keeps (a : AuthManager) ex now err a' :
  login a ex now = (Fail err, a') -> a' = a.
Proof.
  unfold login. intros H.
  repeat match type of H with
         | context [match ?x with _ => _ end] => destruct x
         | context [if ?x then _ else _] => destruct x
         end; congruence.
Qed.

Lemma login_val (a : AuthManager) ex now tok a' :
  login a ex now = (Val tok, a') ->
  exists resp fields,
    ex = LoginAnswer resp /\ login_StatusCode resp = 200
    /\ login_apiResp resp = Some (JObject fields)
    /\ JSON_field fields "token" = Some (JString tok)
    /\ a' = mkAuthManager tok
              (match jwt_exp tok with
               | Some e => time_Unix e
               | None => Time_Add now (23 * Hour)
               end).
Proof.
  unfold login. intros H.
  destruct ex as [e|e|resp]; try discriminate.
  destruct (login_StatusCode resp =? 200) eqn:Es; cbn in H.
  2:{ destruct (login_errorResp resp); discriminate. }
  destruct (login_apiResp resp) as [[| | | |?|fields]|] eqn:Ea; try discriminate.
  destruct (JSON_field fields "token") as [[| | |s| |]|] eqn:Ef; try discriminate.
  injection H as <- <-.
  exists resp, fields. apply Z.eqb_eq in Es.
  repeat split; auto. unfold parseTokenExpiration.
  destruct (jwt_exp s); reflexivity.
Qed.

Lemma GetToken_cases (a : AuthManager) env :
  GetToken a env = (Val (token a), a)
  \/ GetToken a env = login a (exchange env) (t_login env).
Proof.
  unfold GetToken, refreshToken.
  destruct (isTokenValid a (t_check env)); auto.
  destruct (isTokenValid a (t_recheck env)); auto.
Qed.

(** C3. A [GetToken] call that fails, for whatever reason, leaves the
    cached token and expiry as they were: later calls behave as if the
    failed one had not happened, and the next call that finds no valid
    token performs the login again. *)
Theorem failed_refresh_keeps_cache (a a' : AuthManager) (env : TokenEnv) (err : string) :
  GetToken a env = (Fail err, a') ->
  a' = a
  /\ (forall env', GetToken a' env' = GetToken a env')
  /\ (forall env',
        isTokenValid a (t_check env') = false ->
        isTokenValid a (t_recheck env') = false ->
        GetToken a' env' = login a (exchange env') (t_login env')).
Proof.
  intros H.
  assert (Ha : a' = a).
  { destruct (GetToken_cases a env) as [E|E]; rewrite E in H; [congruence|].
    eapply login_fail_keeps; eauto. }
  subst a'. split; [reflexivity|]. split; [reflexivity|].
  intros env' H1 H2. unfold GetToken, refreshToken. rewrite H1, H2. reflexivity.
Qed.

Lemma zeroTime_neg : zeroTime < 0.
Proof. reflexivity. Qed.

Lemma apply_AuthOp_inv (a : AuthManager) (op : AuthOp) :
  sane_op op -> token_invariant a -> token_invariant (apply_AuthOp a op).
Proof.
  intros Hs Ha. destruct op as [env|]; cbn.
  - destruct (GetToken_cases a env) as [E|E]; rewrite E; [exact Ha|].
    destruct (login a (exchange env) (t_login env)) as [[tok|err] a'] eqn:El; cbn.
    + apply login_val in El as (resp & fields & Hex & _ & Hd & Hf & ->).
      destruct Hs as [Hs Ht]. destruct (Hs resp fields tok Hex Hd Hf) as [Hne Hexp].
      unfold token_invariant; cbn. split; [intros; contradiction|].
      destruct (jwt_exp tok) as [e|] eqn:Ee.
      * intros Hz. exfalso. exact (Hexp e eq_refl Hz).
      * unfold Time_Add, Hour, Minute, Second. intros Hz.
        pose proof zeroTime_neg. lia.
    + apply login_fail_keeps in El. subst a'. exact Ha.
  - unfold token_invariant; cbn. split; reflexivity.
Qed.

(** C2, as amended.  After any sequence of [GetToken] and [ClearToken]
    calls on a new manager in which the login endpoint delivers no empty
    token and no token whose expiry claim is the zero timestamp (and the
    clock is past the Unix epoch), the cached token is empty exactly
    when the cached expiry is the zero timestamp. *)
Theorem token_empty_iff_expiry_zero (ops : list AuthOp) :
  Forall sane_op ops -> token_invariant (run_AuthOps ops).
Proof.
  unfold run_AuthOps.
  assert (H0 : token_invariant NewAuthManager) by (split; reflexivity).
  revert H0. generalize NewAuthManager as a.
  induction ops as [|op ops IH]; intros a Ha Hs; cbn; [exact Ha|].
  inversion Hs; subst. apply IH; [apply apply_AuthOp_inv; assumption|assumption].
Qed.
End Auth.

(** C2, counterexample.  The endpoint answers 200 with the token [""]:
    the token cached by [refreshToken] is empty and its expiry is 23
    hours ahead, not the zero timestamp. *)
Lemma token_invariant_counterexample :
  ~ token_invariant
      (run_AuthOps (H := example_JWT)
         [OpGetToken (example_env empty_token_answer (1700000000 * Second))]).
Proof.
  unfold token_invariant. intros [H _].
  specialize (H eq_refl). vm_compute in H. discriminate H.
Qed.

Lemma token_invariant_witness :
  token_invariant
    (run_AuthOps (H := example_JWT)
       [OpGetToken (example_env (good_exchanges 0) (1700000000 * Second));
        OpClearToken;
        OpGetToken (example_env (failing_exchanges 0) (1700000100 * Second))]).
Proof.
  apply (token_empty_iff_expiry_zero (J := example_JWT)).
  apply Forall_cons_2; [split; [|vm_compute; discriminate]|].
  { intros r0 f0 k0 [= <-] [= <-] [= <-]. split; [discriminate|].
    intros e He. vm_compute in He. injection He as <-. discriminate. }
  apply Forall_cons_2; [exact I|].
  apply Forall_cons_2; [split; [|vm_compute; discriminate]|apply Forall_nil_2].
  intros r0 f0 k0 [= <-] [=].
Defined.

Lemma failed_refresh_witness :
  GetToken (H := example_JWT) (mkAuthManager "old" (1700000100 * Second))
    (example_env (failing_exchanges 0) (1700000000 * Second))
  = (Fail "login failed: service unavailable",
     mkAuthManager "old" (1700000100 * Second))
  /\ forall env',
       GetToken (H := example_JWT) (mkAuthManager "old" (1700000100 * Second)) env'
       = GetToken (H := example_JWT) (mkAuthManager "old" (1700000100 * Second)) env'.
Proof.
  split; [reflexivity|].
  exact (proj1 (proj2 (failed_refresh_keeps_cache (J := example_JWT)
                         (mkAuthManager "old" (1700000100 * Second))
                         (mkAuthManager "old" (1700000100 * Second))
                         (example_env (failing_exchanges 0) (1700000000 * Second))
                         "login failed: service unavailable" eq_refl))).
Defined.

(** ** Bearer token: concurrent callers *)

Section Concurrent.
Context `{J : JWT}.
Variable exchanges : nat -> LoginExchange.

Lemma lock_inv_free (s : Sys) (i : nat) (pc : PC) :
  lock_inv s -> refreshMutex s = None -> pcs s !! i = Some pc ->
  holds_refresh pc = false.
Proof.
  intros Hinv Hm Hi. destruct (holds_refresh pc) eqn:E; [|reflexivity].
  specialize (Hinv i pc Hi E). congruence.
Qed.

Lemma lock_inv_set_pc (s : Sys) (i : nat) (pc pc' : PC) :
  lock_inv s -> pcs s !! i = Some pc ->
  (holds_refresh pc' = true -> holds_refresh pc = true) ->
  lock_inv (set_pc s i pc').
Proof.
  intros Hinv Hi Hh j pcj Hj Hhj. cbn in *.
  apply list_lookup_insert_Some in Hj as [(<- & <- & _)|(Hne & Hj)].
  - apply (Hinv i pc Hi). auto.
  - apply (Hinv j pcj Hj Hhj).
Qed.

Lemma thread_step_lock_inv (i : nat) (s : Sys) :
  lock_inv s -> lock_inv (thread_step exchanges i s).
Proof.
  intros Hinv. unfold thread_step.
  destruct (pcs s !! i) as [pc|] eqn:Hi; [|exact Hinv].
  destruct pc as [| | |ex|r|r].
  - destruct (isTokenValid _ _); eapply lock_inv_set_pc; eauto; cbn; congruence.
  - destruct (refreshMutex s) eqn:Hm; [exact Hinv|].
    intros j pcj Hj Hhj. cbn in *.
    apply list_lookup_insert_Some in Hj as [(<- & <- & _)|(Hne & Hj)]; [reflexivity|].
    rewrite (lock_inv_free s j pcj Hinv Hm Hj) in Hhj. discriminate.
  - destruct (isTokenValid _ _).
    + eapply lock_inv_set_pc; eauto.
    + destruct (exchanges (attempts s)); intros j pcj Hj Hhj; cbn in *;
        apply list_lookup_insert_Some in Hj as [(<- & <- & _)|(Hne & Hj)];
        solve [apply (Hinv _ _ Hi); reflexivity | apply (Hinv _ _ Hj Hhj)].
  - destruct (login _ _ _) as [r a]. intros j pcj Hj Hhj; cbn in *.
    apply list_lookup_insert_Some in Hj as [(<- & <- & _)|(Hne & Hj)];
      solve [apply (Hinv _ _ Hi); reflexivity | apply (Hinv _ _ Hj Hhj)].
  - intros j pcj Hj Hhj; cbn in *.
    apply list_lookup_insert_Some in Hj as [(<- & <- & _)|(Hne & Hj)]; [discriminate|].
    pose proof (Hinv _ _ Hi eq_refl) as H1. pose proof (Hinv _ _ Hj Hhj) as H2.
    congruence.
  - exact Hinv.
Qed.

Lemma exec_lock_inv (a : Action) (s : Sys) :
  lock_inv s -> lock_inv (exec exchanges s a).
Proof.
  destruct a as [i|d]; [apply thread_step_lock_inv|].
  intros Hinv. exact Hinv.
Qed.

Lemma run_sched_lock_inv (sched : list Action) (s : Sys) :
  lock_inv s -> lock_inv (run_sched exchanges s sched).
Proof.
  revert s. induction sched as [|a sched IH]; intros s Hs; [exact Hs|].
  cbn. apply IH. apply exec_lock_inv. exact Hs.
Qed.

Lemma init_lock_inv (a : AuthManager) (t0 : Time) (n : nat) :
  lock_inv (init_sys a t0 n).
Proof.
  intros i pc Hi Hh. cbn in Hi. apply lookup_replicate in Hi as [-> _]. discriminate.
Qed.

Lemma filter_unique_length {A} (P : A -> bool) (l : list A) :
  (forall i j x y, l !! i = Some x -> l !! j = Some y ->
                   P x = true -> P y = true -> i = j) ->
  (List.length (List.filter P l) <= 1)%nat.
Proof.
  induction l as [|x l IH]; intros H; cbn; [lia|].
  destruct (P x) eqn:Ex.
  - assert (Hnone : List.filter P l = []).
    { destruct (List.filter P l) as [|y l'] eqn:E; [reflexivity|].
      assert (Hy : In y (List.filter P l)) by (rewrite E; left; reflexivity).
      apply filter_In in Hy as [Hy Py].
      apply list_elem_of_In, list_elem_of_lookup in Hy as [j Hj].
      specialize (H 0%nat (S j) x y eq_refl Hj Ex Py). discriminate. }
    rewrite Hnone. cbn. lia.
  - apply IH. intros i j a b Hi Hj Pa Pb.
    specialize (H (S i) (S j) a b Hi Hj Pa Pb). lia.
Qed.

Lemma lock_inv_in_flight (s : Sys) : lock_inv s -> (in_flight s <= 1)%nat.
Proof.
  intros Hinv. unfold in_flight. apply filter_unique_length.
  intros i j x y Hi Hj Px Py.
  assert (Hx : holds_refresh x = true) by (destruct x; auto; discriminate).
  assert (Hy : holds_refresh y = true) by (destruct y; auto; discriminate).
  pose proof (Hinv i x Hi Hx). pose proof (Hinv j y Hj Hy). congruence.
Qed.
End Concurrent.

Section SingleRefresh.
Context `{J : JWT}.
Variable exchanges : nat -> LoginExchange.
Variables (a : AuthManager) (t0 T : Time) (tok : string) (n : nat).
Hypothesis expired : isTokenValid a t0 = false.
Hypothesis fresh : fresh_token_ok a (exchanges 0) t0 T tok.

Lemma isTokenValid_stays_false (b : AuthManager) (t t' : Time) :
  isTokenValid b t = false -> t <= t' -> isTokenValid b t' = false.
Proof.
  unfold isTokenValid, Time_Before, Time_Add.
  destruct (String.eqb (token b) ""); [reflexivity|].
  intros H Ht. apply Z.ltb_ge in H. apply Z.ltb_ge. lia.
Qed.

Lemma isTokenValid_earlier (b : AuthManager) (t t' : Time) :
  isTokenValid b t' = true -> t <= t' -> isTokenValid b t = true.
Proof.
  unfold isTokenValid, Time_Before, Time_Add.
  destruct (String.eqb (token b) ""); [discriminate|].
  intros H Ht. apply Z.ltb_lt in H. apply Z.ltb_lt. lia.
Qed.

Lemma thread_step_frame (i : nat) (s : Sys) :
  sys_clock (thread_step exchanges i s) = sys_clock s
  /\ List.length (pcs (thread_step exchanges i s)) = List.length (pcs s).
Proof.
  unfold thread_step. destruct (pcs s !! i) as [[| | |ex|r|r]|];
    repeat match goal with
           | |- context [if ?c then _ else _] => destruct c
           | |- context [match ?x with _ => _ end] => destruct x
           end;
    cbn; rewrite ?length_insert; auto.
Qed.

Lemma exec_clock_mono (act : Action) (s : Sys) :
  sys_clock s <= sys_clock (exec exchanges s act).
Proof.
  destruct act as [i|d]; cbn.
  - rewrite (proj1 (thread_step_frame i s)). lia.
  - lia.
Qed.

Lemma run_sched_clock_mono (sched : list Action) (s : Sys) :
  sys_clock s <= sys_clock (run_sched exchanges s sched).
Proof.
  revert s. induction sched as [|act sched IH]; intros s; cbn; [lia|].
  etransitivity; [apply (exec_clock_mono act)|apply IH].
Qed.

(** Under [lock_inv], the goroutine at [i] that holds [refreshMutex] is
    the only one past [refreshMutex.Lock()]. *)
Lemma others_outside (s : Sys) (i j : nat) (pci pcj : PC) :
  lock_inv s -> pcs s !! i = Some pci -> holds_refresh pci = true ->
  i <> j -> pcs s !! j = Some pcj -> holds_refresh pcj = false.
Proof.
  intros Hinv Hi Hhi Hne Hj. destruct (holds_refresh pcj) eqn:E; [|reflexivity].
  pose proof (Hinv i pci Hi Hhi). pose proof (Hinv j pcj Hj E). congruence.
Qed.

Lemma thread_step_inv (i : nat) (s : Sys) :
  sys_clock s <= T ->
  single_refresh_inv a t0 T tok (exchanges 0) n s ->
  single_refresh_inv a t0 T tok (exchanges 0) n (thread_step exchanges i s).
Proof.
  intros HT (Hlock & Ht0 & Hlen & Hphase).
  destruct (thread_step_frame i s) as [Hclk Hl].
  split; [apply thread_step_lock_inv; exact Hlock|].
  split; [rewrite Hclk; exact Ht0|]. split; [rewrite Hl; exact Hlen|].
  unfold thread_step. destruct (pcs s !! i) as [pc|] eqn:Hi; [|exact Hphase].
  destruct Hphase as [(Hlog & Hatt & Ham & Hall)|[(Hlog & Hatt & Ham & Hmx & Hall)
                                                  |(Hlog & Htok & Hval & Hall)]].
  - (* before the login *)
    pose proof (Forall_lookup_1 _ _ _ _ Hall Hi) as Hpc.
    assert (Hinv : isTokenValid (sys_am s) (sys_clock s) = false).
    { rewrite Ham. eapply isTokenValid_stays_false; eauto. }
    destruct pc as [| | |ex|r|r]; cbn in Hpc; try contradiction.
    + rewrite Hinv. left. cbn. repeat split; auto. apply Forall_insert; cbn; auto.
    + destruct (refreshMutex s); [left; auto|].
      left. cbn. repeat split; auto. apply Forall_insert; cbn; auto.
    + rewrite Hinv, Hatt.
      destruct (fresh (sys_clock s) ltac:(lia)) as (a' & Hlogin & _).
      destruct (exchanges 0) as [e|e|resp] eqn:Eex; try discriminate Hlogin.
      right; left. cbn. rewrite Hlog.
      split; [reflexivity|]. split; [reflexivity|]. split; [exact Ham|].
      split; [rewrite (Hlock i pcRecheck Hi eq_refl); discriminate|].
      apply Forall_lookup_2. intros j pcj Hj.
      apply list_lookup_insert_Some in Hj as [(<- & <- & _)|(Hne & Hj)]; [reflexivity|].
      pose proof (Forall_lookup_1 _ _ _ _ Hall Hj) as Hpj.
      pose proof (others_outside s i j _ _ Hlock Hi eq_refl Hne Hj) as Hout.
      destruct pcj; cbn in *; auto; try contradiction; discriminate.
  - (* the login is in flight *)
    pose proof (Forall_lookup_1 _ _ _ _ Hall Hi) as Hpc.
    assert (Hinv : isTokenValid (sys_am s) (sys_clock s) = false).
    { rewrite Ham. eapply isTokenValid_stays_false; eauto. }
    destruct pc as [| | |ex|r|r]; cbn in Hpc; try contradiction.
    + rewrite Hinv. right; left. cbn. repeat split; auto.
      apply Forall_insert; cbn; auto.
    + destruct (refreshMutex s) eqn:Em; [|congruence]. right; left.
      repeat split; auto. rewrite Em. discriminate.
    + rewrite Ham, Hpc.
      destruct (fresh (sys_clock s) ltac:(lia)) as (a' & Hlogin & Hv).
      rewrite Hlogin. right; right. cbn.
      apply login_val in Hlogin as (resp & fields & _ & _ & _ & _ & Ha').
      split; [exact Hlog|]. split; [rewrite Ha'; reflexivity|]. split; [exact Hv|].
      apply Forall_lookup_2. intros j pcj Hj.
      apply list_lookup_insert_Some in Hj as [(<- & <- & _)|(Hne & Hj)]; [reflexivity|].
      pose proof (Forall_lookup_1 _ _ _ _ Hall Hj) as Hpj.
      pose proof (others_outside s i j _ _ Hlock Hi eq_refl Hne Hj) as Hout.
      destruct pcj; cbn in *; auto; try contradiction; discriminate.
  - (* the token is stored *)
    pose proof (Forall_lookup_1 _ _ _ _ Hall Hi) as Hpc.
    assert (Hv : isTokenValid (sys_am s) (sys_clock s) = true).
    { eapply isTokenValid_earlier; eauto. }
    destruct pc as [| | |ex|r|r]; cbn in Hpc; try contradiction.
    + rewrite Hv. right; right. cbn. repeat split; auto.
      apply Forall_insert; cbn; auto. rewrite Htok. reflexivity.
    + destruct (refreshMutex s); right; right; cbn; repeat split; auto.
      apply Forall_insert; cbn; auto.
    + rewrite Hv. right; right. cbn. repeat split; auto.
      apply Forall_insert; cbn; auto. rewrite Htok. reflexivity.
    + right; right. cbn. repeat split; auto. apply Forall_insert; cbn; auto.
    + right; right. repeat split; auto.
Qed.

Lemma exec_inv (act : Action) (s : Sys) :
  sys_clock (exec exchanges s act) <= T ->
  single_refresh_inv a t0 T tok (exchanges 0) n s ->
  single_refresh_inv a t0 T tok (exchanges 0) n (exec exchanges s act).
Proof.
  destruct act as [i|d]; cbn [exec].
  - intros HT. apply thread_step_inv.
    rewrite <- (proj1 (thread_step_frame i s)). exact HT.
  - intros HT (Hlock & Ht0 & Hlen & Hphase).
    split; [exact Hlock|]. split; [cbn; lia|]. split; [exact Hlen|]. exact Hphase.
Qed.

Lemma run_sched_inv (sched : list Action) (s : Sys) :
  sys_clock (run_sched exchanges s sched) <= T ->
  single_refresh_inv a t0 T tok (exchanges 0) n s ->
  single_refresh_inv a t0 T tok (exchanges 0) n (run_sched exchanges s sched).
Proof.
  revert s. induction sched as [|act sched IH]; intros s HT Hs; [exact Hs|].
  cbn in *. apply IH; [exact HT|]. apply exec_inv; [|exact Hs].
  etransitivity; [apply run_sched_clock_mono|exact HT].
Qed.

Lemma init_inv : single_refresh_inv a t0 T tok (exchanges 0) n (init_sys a t0 n).
Proof.
  split; [apply init_lock_inv|]. split; [cbn; lia|].
  split; [cbn; apply length_replicate|]. left. cbn. repeat split; auto.
  apply Forall_replicate. exact I.
Qed.
End SingleRefresh.




(** ** Base64 *)

Lemma b64_facts (n : N) :
  (n < 64)%N ->
  b64_val (b64_char n) = Some n
  /\ Ascii.eqb (b64_char n) pad = false
  /\ isNewline (b64_char n) = false.
Proof.
  intros H.
  assert (Hall : forallb (fun k => match b64_val (b64_char k) with
                                   | Some k' => (k' =? k)%N
                                   | None => false
                                   end
                                   && negb (Ascii.eqb (b64_char k) pad)
                                   && negb (isNewline (b64_char k)))
                         (map N.of_nat (seq 0 64)) = true) by (vm_compute; reflexivity).
  rewrite forallb_forall in Hall.
  specialize (Hall n). 
  assert (Hin : In n (map N.of_nat (seq 0 64))).
  { apply in_map_iff. exists (N.to_nat n). split; [lia|]. apply in_seq. lia. }
  specialize (Hall Hin).
  apply andb_true_iff in Hall as [Hall H3]. apply andb_true_iff in Hall as [H1 H2].
  destruct (b64_val (b64_char n)) as [k|]; [|discriminate].
  apply N.eqb_eq in H1. subst k.
  apply negb_true_iff in H2. apply negb_true_iff in H3. auto.
Qed.

Lemma N_of_ascii_lt (c : ascii) : (N_of_ascii c < 256)%N.
Proof. destruct c as [[] [] [] [] [] [] [] []]; vm_compute; reflexivity. Qed.

Lemma byte_of_N_of_ascii (n : N) (c : ascii) : n = N_of_ascii c -> byte_of n = c.
Proof.
  intros ->. unfold byte_of. rewrite N.mod_small by apply N_of_ascii_lt.
  apply ascii_N_embedding.
Qed.

Ltac div_mod_N := zify; Z.to_euclidean_division_equations; lia.

Lemma decode_encode_quanta : forall n s,
  (String.length s <= n)%nat ->
  decode_quanta (base64_EncodeToString s) = Some s.
Proof.
  induction n as [|n IH]; intros s Hlen.
  - destruct s; [reflexivity|cbn in Hlen; lia].
  - destruct s as [|a [|b [|c rest]]]; [reflexivity|..].
    + cbn [base64_EncodeToString decode_quanta].
      pose proof (N_of_ascii_lt a) as Ha. set (x := N_of_ascii a) in *.
      change (Ascii.eqb pad pad) with true. cbv iota.
      destruct (b64_facts (x / 4)) as (-> & _ & _); [div_mod_N|].
      destruct (b64_facts (x mod 4 * 16)) as (-> & _ & _); [div_mod_N|].
      f_equal. f_equal. apply byte_of_N_of_ascii. subst x. 
      generalize dependent (N_of_ascii a). intros; div_mod_N.
    + cbn [base64_EncodeToString decode_quanta].
      pose proof (N_of_ascii_lt a) as Ha. pose proof (N_of_ascii_lt b) as Hb.
      change (Ascii.eqb pad pad) with true. cbv iota.
      destruct (b64_facts (N_of_ascii a / 4)) as (-> & _ & _); [div_mod_N|].
      destruct (b64_facts (N_of_ascii a mod 4 * 16 + N_of_ascii b / 16)) as (-> & _ & _); [div_mod_N|].
      destruct (b64_facts (N_of_ascii b mod 16 * 4)) as (-> & -> & _); [div_mod_N|].
      f_equal. f_equal; [|f_equal]; apply byte_of_N_of_ascii; div_mod_N.
    + cbn [base64_EncodeToString decode_quanta].
      pose proof (N_of_ascii_lt a) as Ha. pose proof (N_of_ascii_lt b) as Hb.
      pose proof (N_of_ascii_lt c) as Hc.
      destruct (b64_facts (N_of_ascii a / 4)) as (-> & _ & _); [div_mod_N|].
      destruct (b64_facts (N_of_ascii a mod 4 * 16 + N_of_ascii b / 16)) as (-> & _ & _); [div_mod_N|].
      destruct (b64_facts (N_of_ascii b mod 16 * 4 + N_of_ascii c / 64)) as (-> & _ & _); [div_mod_N|].
      destruct (b64_facts (N_of_ascii c mod 64)) as (-> & -> & _); [div_mod_N|].
      rewrite IH by (cbn in Hlen; lia).
      f_equal. f_equal; [|f_equal; [|f_equal]]; apply byte_of_N_of_ascii; div_mod_N.
Qed.

Lemma strip_newlines_encode : forall n s,
  (String.length s <= n)%nat ->
  strip_newlines (base64_EncodeToString s) = base64_EncodeToString s.
Proof.
  induction n as [|n IH]; intros s Hlen.
  - destruct s; [reflexivity|cbn in Hlen; lia].
  - destruct s as [|a [|b [|c rest]]]; [reflexivity|..];
      cbn [base64_EncodeToString strip_newlines];
      pose proof (N_of_ascii_lt a) as Ha.
    + destruct (b64_facts (N_of_ascii a / 4)) as (_ & _ & ->); [div_mod_N|].
      destruct (b64_facts (N_of_ascii a mod 4 * 16)) as (_ & _ & ->); [div_mod_N|].
      reflexivity.
    + pose proof (N_of_ascii_lt b) as Hb.
      destruct (b64_facts (N_of_ascii a / 4)) as (_ & _ & ->); [div_mod_N|].
      destruct (b64_facts (N_of_ascii a mod 4 * 16 + N_of_ascii b / 16))
        as (_ & _ & ->); [div_mod_N|].
      destruct (b64_facts (N_of_ascii b mod 16 * 4)) as (_ & _ & ->); [div_mod_N|].
      reflexivity.
    + pose proof (N_of_ascii_lt b) as Hb. pose proof (N_of_ascii_lt c) as Hc.
      destruct (b64_facts (N_of_ascii a / 4)) as (_ & _ & ->); [div_mod_N|].
      destruct (b64_facts (N_of_ascii a mod 4 * 16 + N_of_ascii b / 16))
        as (_ & _ & ->); [div_mod_N|].
      destruct (b64_facts (N_of_ascii b mod 16 * 4 + N_of_ascii c / 64))
        as (_ & _ & ->); [div_mod_N|].
      destruct (b64_facts (N_of_ascii c mod 64)) as (_ & _ & ->); [div_mod_N|].
      rewrite IH by (cbn in Hlen; lia). reflexivity.
Qed.

(** Decoding inverts encoding. *)
Lemma base64_Decode_Encode (data : string) :
  base64_DecodeString (base64_EncodeToString data) = Some data.
Proof.
  unfold base64_DecodeString.
  rewrite (strip_newlines_encode (String.length data)) by lia.
  apply (decode_encode_quanta (String.length data)). lia.
Qed.

Lemma base64_Encode_nonempty (data : string) :
  data <> "" -> base64_EncodeToString data <> "".
Proof. destruct data as [|a [|b [|c rest]]]; [congruence|discriminate..]. Qed.

Example base64_example :
  base64_EncodeToString "hello?>" = "aGVsbG8_Pg=="
  /\ base64_DecodeString "aGVsbG8_Pg==" = Some "hello?>"
  /\ base64_DecodeString "aGVsbG8_Pg=" = None.
Proof. vm_compute. repeat split; reflexivity. Qed.

(** ** Credential vault *)

Section Vault.
Context `{HH : Hashing} `{HA : AEAD}.
Hypothesis sha256_size : forall m, String.length (sha256_Sum256 m) = 32%nat.
Hypothesis gcm_Open_Seal :
  forall key nonce plaintext,
    String.length nonce = gcm_NonceSize ->
    gcm_Open key nonce (gcm_Seal key nonce plaintext) = Some plaintext.

Lemma substring_app_l (a b : string) :
  String.substring 0 (String.length a) (a +:+ b) = a.
Proof.
  induction a as [|c a IH]; [destruct b; reflexivity|].
  change (String c a +:+ b) with (String c (a +:+ b)).
  cbn [String.length String.substring]. f_equal. exact IH.
Qed.

Lemma substring_all (b : string) : String.substring 0 (String.length b) b = b.
Proof.
  induction b as [|c b IH]; [reflexivity|].
  cbn [String.length String.substring]. f_equal. exact IH.
Qed.

Lemma substring_app_r (a b : string) :
  String.substring (String.length a) (String.length (a +:+ b) - String.length a) (a +:+ b) = b.
Proof.
  induction a as [|c a IH].
  - change ("" +:+ b) with b. cbn [String.length]. rewrite Nat.sub_0_r. apply substring_all.
  - change (String c a +:+ b) with (String c (a +:+ b)).
    cbn [String.length Nat.sub String.substring]. exact IH.
Qed.

Lemma length_append (a b : string) :
  String.length (a +:+ b) = (String.length a + String.length b)%nat.
Proof.
  induction a as [|c a IH]; [reflexivity|].
  change (String c a +:+ b) with (String c (a +:+ b)).
  cbn [String.length Nat.add]. f_equal. exact IH.
Qed.

Lemma NewCipher_key (password : string) :
  aes_NewCipher (key (NewCredentialEncryption password))
  = Val (sha256_Sum256 password).
Proof.
  unfold aes_NewCipher, NewCredentialEncryption. cbn [key].
  rewrite sha256_size. reflexivity.
Qed.

(** C8. With the key derived from any password, decrypting what
    [Encrypt] returned for a non-empty string gives that string back,
    without error; the empty string is mapped to itself by both
    functions, without error.  The random source delivers the nonce; the
    cryptographic libraries are taken with their documented properties:
    SHA-256 digests have 32 bytes, and [Open] inverts [Seal] under the
    same key and nonce. *)
Theorem decrypt_encrypt (password s nonce : string) :
  s <> "" ->
  String.length nonce = gcm_NonceSize ->
  let ce := NewCredentialEncryption password in
  (exists ciphertext,
     Encrypt ce (Some nonce) s = Val ciphertext
     /\ Decrypt ce ciphertext = Val s)
  /\ (forall entropy, Encrypt ce entropy "" = Val "")
  /\ Decrypt ce "" = Val "".
Proof.
  intros Hs Hn ce. split; [|split; [intros; reflexivity|reflexivity]].
  exists (base64_EncodeToString (nonce +:+ gcm_Seal (sha256_Sum256 password) nonce s)).
  unfold Encrypt, Decrypt. subst ce. rewrite NewCipher_key.
  apply String.eqb_neq in Hs. rewrite Hs. split; [reflexivity|].
  assert (Hne : nonce +:+ gcm_Seal (sha256_Sum256 password) nonce s <> "").
  { destruct nonce; [discriminate Hn|discriminate]. }
  apply base64_Encode_nonempty in Hne. apply String.eqb_neq in Hne. rewrite Hne.
  rewrite base64_Decode_Encode.
  rewrite length_append, Hn.
  destruct (Nat.ltb_spec (gcm_NonceSize + String.length (gcm_Seal (sha256_Sum256 password) nonce s)) gcm_NonceSize); [lia|].
  unfold slice_to, slice_from. rewrite <- Hn.
  rewrite substring_app_l.
  replace (String.length nonce + String.length (gcm_Seal (sha256_Sum256 password) nonce s) - String.length nonce)%nat
    with (String.length (nonce +:+ gcm_Seal (sha256_Sum256 password) nonce s) - String.length nonce)%nat
    by (rewrite length_append; lia).
  rewrite substring_app_r. rewrite gcm_Open_Seal by exact Hn. reflexivity.
Qed.
End Vault.

Lemma fixed_width_length (n : nat) (s : string) :
  String.length (fixed_width n s) = n.
Proof.
  revert s. induction n as [|n IH]; intros s; [reflexivity|].
  destruct s; cbn [fixed_width String.length]; rewrite IH; reflexivity.
Qed.

(** A password, a 12-byte nonce and a secret, under the stand-ins. *)
Lemma decrypt_encrypt_witness :
  let ce := NewCredentialEncryption (H := example_Hashing) "vault password" in
  exists ciphertext,
    Encrypt (H := example_AEAD) ce (Some "nonce-12-byt") "hunter2"
    = Val ciphertext
    /\ Decrypt (H := example_AEAD) ce ciphertext = Val "hunter2".
Proof.
  refine (proj1 (decrypt_encrypt (HH := example_Hashing) (HA := example_AEAD)
                   _ _ "vault password" "hunter2" "nonce-12-byt" _ _)).
  - intros m. apply fixed_width_length.
  - intros k nonce plaintext _. reflexivity.
  - discriminate.
  - reflexivity.
Defined.

(** ** The retry policy on the scenarios of the specification *)

(** Two failures with 500 and then 200: three observed requests, each
    with the body of the original request, a final 200, and pauses of
    [baseDelay] and [2 * baseDelay]. *)
Example retry_three_attempts :
  let w := mkWorld (1700000000 * Second) ∅ server_500_500_200 0 [] in
  let '(res, _, w', atts) :=
    retry_RoundTrip net_RoundTrip 3 (100 * Millisecond) post_request w in
  res = RResp (mkResponse 200 "{}")
  /\ served w' = 3%nat
  /\ map att_sleep atts = [Some (100 * Millisecond); Some (200 * Millisecond); None]
  /\ map (fun a => Body (att_req a)) atts = [Some "{}"; Some "{}"; Some "{}"]
  /\ clock w' = clock w + 3 * (20 * Millisecond) + 300 * Millisecond.
Proof. vm_compute. repeat split; reflexivity. Qed.

(** A 400 response: exactly one observed request, obtained from the
    general statement. *)
Lemma retry_policy_witness :
  let w := mkWorld (1700000000 * Second) ∅ server_400 0 [] in
  let '(res, _, w', atts) :=
    retry_RoundTrip net_RoundTrip 3 (100 * Millisecond) post_request w in
  List.length atts = 1%nat /\ served w' = 1%nat
  /\ res = RResp (mkResponse 400 "bad request").
Proof.
  intros w.
  pose proof (retry_policy net_RoundTrip 3 (100 * Millisecond) post_request w) as H.
  destruct (retry_RoundTrip net_RoundTrip 3 (100 * Millisecond) post_request w)
    as [[[res req'] w'] atts] eqn:E.
  destruct H as (_ & H0 & Hall).
  destruct (H0 ltac:(lia)) as (a & Ha & Hreq & Hw).
  destruct (Hall 0%nat a Ha) as (_ & Hres & _ & Hfinal & _).
  rewrite Hreq, Hw in Hres.
  destruct (Hfinal ltac:(rewrite Hres; reflexivity)) as (Hlen & _ & Hr).
  split; [symmetry; exact Hlen|]. split.
  - vm_compute in E. injection E as _ _ <- _. reflexivity.
  - rewrite Hr, Hres. reflexivity.
Defined.

(** ** The cases of the repository's tests of the token cache *)

(** [TestIsTokenValid]: an empty token, a token that expires in an hour,
    an expired token, and a token that expires within the five minute
    buffer. *)
Example isTokenValid_cases :
  let now := 1700000000 * Second in
  isTokenValid (mkAuthManager "" (now + Hour)) now = false
  /\ isTokenValid (mkAuthManager "valid-token" (now + Hour)) now = true
  /\ isTokenValid (mkAuthManager "expired-token" (now - Hour)) now = false
  /\ isTokenValid (mkAuthManager "expiring-soon" (now + 2 * Minute)) now = false.
Proof. vm_compute. repeat split; reflexivity. Qed.

(** [TestClearToken] *)
Example ClearToken_case :
  let a := ClearToken (mkAuthManager "some-token" (1700000000 * Second + Hour)) in
  token a = "" /\ Time_IsZero (expiresAt a) = true.
Proof. vm_compute. split; reflexivity. Qed.

(** [TestRefreshTokenInvalidResponse]: a 200 answer without token is an
    error and caches nothing. *)
Example missing_token_case :
  GetToken (H := example_JWT) NewAuthManager
    (example_env (LoginAnswer (mkLoginResponse 200 None (Some (JObject []))))
                 (1700000000 * Second))
  = (Fail "token not found in login response", NewAuthManager).
Proof. vm_compute. reflexivity. Qed.

(** ** Reconfiguration on a client with a custom transport *)

(** A client built over a custom base transport and given a retry policy
    sends through retry, rate limit, signing and that transport; after
    [EnableRequestSigning] with a new secret, the retry layer and the
    custom transport are gone. *)
Example reconfiguration_drops_layers :
  let cfg := mkConfig "http://127.0.0.1:8080" "user" "pass"
               (Some (mkHTTPClient (Some (customTransport 7)) (30 * Second)))
               (30 * Second)
               (Some (mkRateLimitConfig (5 # 1) 10 true))
               (Some (mkSecurityConfig false "" None true "s3cret")) in
  let c := (New (H := example_Hashing) (Some cfg) example_world).1 in
  match SetRetryPolicy c 3 (2 * Second) with
  | Some c1 =>
      client_transport c1
      = Some (retryTransport
                (rateLimitTransport
                   (signingTransport (customTransport 7)
                      (Some (NewRequestSigner "s3cret")))
                   (rateLimiter c))
                3 (2 * Second))
      /\ match EnableRequestSigning c1 "other" with
         | Some c2 =>
             client_transport c2
             = Some (rateLimitTransport
                       (signingTransport DefaultTransport
                          (Some (NewRequestSigner "other")))
                       (rateLimiter c))
         | None => False
         end
  | None => False
  end.
Proof. vm_compute. split; reflexivity. Qed.

(** * Further properties of the package *)

(** ** Splitting and joining *)

Lemma string_append_nil_r (s : string) : s +:+ "" = s.
Proof.
  induction s as [|c s IH]; [reflexivity|].
  change (String c s +:+ "") with (String c (s +:+ "")). rewrite IH. reflexivity.
Qed.

Lemma string_append_assoc (a b c : string) : (a +:+ b) +:+ c = a +:+ (b +:+ c).
Proof.
  induction a as [|x a IH]; [reflexivity|].
  change (String x a +:+ b) with (String x (a +:+ b)).
  change (String x (a +:+ b) +:+ c) with (String x ((a +:+ b) +:+ c)).
  change (String x a +:+ (b +:+ c)) with (String x (a +:+ (b +:+ c))).
  rewrite IH. reflexivity.
Qed.

Lemma rev_app_append (a b c : string) :
  String.rev_app a b +:+ c = String.rev_app a (b +:+ c).
Proof.
  revert b. induction a as [|x a IH]; intros b; [reflexivity|].
  cbn [String.rev_app]. rewrite IH. reflexivity.
Qed.

Lemma rev_app_rev_app (a b c : string) :
  String.rev_app (String.rev_app a b) c = String.rev_app b (a +:+ c).
Proof.
  revert b c. induction a as [|x a IH]; intros b c; [reflexivity|].
  cbn [String.rev_app]. rewrite IH. reflexivity.
Qed.

Lemma string_rev_rev (s : string) : String.rev (String.rev s) = s.
Proof. unfold String.rev. rewrite rev_app_rev_app. apply string_append_nil_r. Qed.

Lemma Split_aux_nonnil (sep : ascii) (s cur : string) : Split_aux sep s cur <> [].
Proof.
  revert cur. induction s as [|c s IH]; intros cur; cbn [Split_aux]; [discriminate|].
  destruct (Ascii.eqb c sep); [discriminate|apply IH].
Qed.

Lemma String_concat_cons (sep x : string) (l : list string) :
  l <> [] -> String.concat sep (x :: l) = x +:+ sep +:+ String.concat sep l.
Proof. destruct l; [congruence|reflexivity]. Qed.

(** Joining the pieces of a split gives the string back. *)
Lemma Join_Split_aux (sep : ascii) (s cur : string) :
  strings_Join (Split_aux sep s cur) (String sep "") = String.rev_app cur s.
Proof.
  unfold strings_Join. revert cur.
  induction s as [|c s IH]; intros cur; cbn [Split_aux].
  - reflexivity.
  - destruct (Ascii.eqb_spec c sep) as [->|Hne].
    + rewrite String_concat_cons by apply Split_aux_nonnil. rewrite IH.
      unfold String.rev. rewrite rev_app_append. reflexivity.
    + rewrite IH. reflexivity.
Qed.

Lemma Join_Split (s : string) (sep : ascii) :
  strings_Join (strings_Split s sep) (String sep "") = s.
Proof. unfold strings_Split. rewrite Join_Split_aux. reflexivity. Qed.

Lemma free_of_append (sep : ascii) (a b : string) :
  free_of sep a -> free_of sep b -> free_of sep (a +:+ b).
Proof.
  unfold free_of. induction a as [|x a IH]; intros Ha Hb; [exact Hb|].
  change (String x a +:+ b) with (String x (a +:+ b)).
  cbn [forallb_string] in *. apply andb_true_iff in Ha as [Hx Ha].
  rewrite Hx, IH by assumption. reflexivity.
Qed.

Lemma free_of_rev_app (sep : ascii) (a b : string) :
  free_of sep a -> free_of sep b -> free_of sep (String.rev_app a b).
Proof.
  revert b. induction a as [|x a IH]; intros b Ha Hb; [exact Hb|].
  unfold free_of in Ha. cbn [forallb_string] in Ha.
  apply andb_true_iff in Ha as [Hx Ha].
  cbn [String.rev_app]. apply IH; [exact Ha|].
  unfold free_of. cbn [forallb_string]. rewrite Hx. exact Hb.
Qed.

Lemma free_of_rev (sep : ascii) (a : string) :
  free_of sep a -> free_of sep (String.rev a).
Proof. intros Ha. apply free_of_rev_app; [exact Ha|reflexivity]. Qed.

Lemma Split_aux_free (sep : ascii) (s cur : string) :
  free_of sep cur -> Forall (free_of sep) (Split_aux sep s cur).
Proof.
  revert cur. induction s as [|c s IH]; intros cur Hc; cbn [Split_aux].
  - apply Forall_cons_2; [apply free_of_rev; exact Hc|apply Forall_nil_2].
  - destruct (Ascii.eqb c sep) eqn:E.
    + apply Forall_cons_2; [apply free_of_rev; exact Hc|]. apply IH. reflexivity.
    + apply IH. unfold free_of. cbn [forallb_string]. rewrite E. exact Hc.
Qed.

Lemma Split_aux_prefix (sep : ascii) (x s cur : string) :
  free_of sep x ->
  Split_aux sep (x +:+ s) cur = Split_aux sep s (String.rev_app x cur).
Proof.
  revert cur. induction x as [|c x IH]; intros cur Hx; [reflexivity|].
  unfold free_of in Hx. cbn [forallb_string] in Hx.
  apply andb_true_iff in Hx as [Hc Hx].
  change (String c x +:+ s) with (String c (x +:+ s)). cbn [Split_aux].
  apply negb_true_iff in Hc. rewrite Hc. rewrite IH by exact Hx. reflexivity.
Qed.

(** Splitting the join of pieces without the separator gives the pieces
    back. *)
Lemma Split_Join (sep : ascii) (l : list string) :
  l <> [] -> Forall (free_of sep) l ->
  strings_Split (strings_Join l (String sep "")) sep = l.
Proof.
  unfold strings_Split, strings_Join.
  induction l as [|x l IH]; intros Hne Hall; [congruence|].
  apply Forall_cons_1 in Hall as [Hx Hl].
  destruct l as [|y l].
  - cbn [String.concat]. rewrite <- (string_append_nil_r x) at 1.
    rewrite Split_aux_prefix by exact Hx. cbn [Split_aux].
    fold (String.rev x). rewrite string_rev_rev. reflexivity.
  - rewrite String_concat_cons by discriminate.
    rewrite Split_aux_prefix by exact Hx.
    change (String sep "" +:+ String.concat (String sep "") (y :: l))
      with (String sep (String.concat (String sep "") (y :: l))).
    cbn [Split_aux]. rewrite Ascii.eqb_refl.
    fold (String.rev x). rewrite string_rev_rev. f_equal. apply IH; [discriminate|exact Hl].
Qed.

Lemma sort_Strings_nonnil (l : list string) : l <> [] -> sort_Strings l <> [].
Proof.
  intros Hne E. pose proof (sort_Strings_perm l) as Hp. rewrite E in Hp.
  apply Permutation_nil_l in Hp. congruence.
Qed.

Lemma Split_canonicalizeQuery (q : string) :
  strings_Split (canonicalizeQuery q) "&" = sort_Strings (strings_Split q "&").
Proof.
  unfold canonicalizeQuery. destruct (String.eqb_spec q "") as [->|Hne].
  - vm_compute. reflexivity.
  - apply Split_Join.
    + apply sort_Strings_nonnil. apply Split_aux_nonnil.
    + rewrite sort_Strings_perm. apply Split_aux_free. reflexivity.
Qed.

Lemma canonicalizeQuery_perm (q q' : string) :
  Permutation (strings_Split q' "&") (strings_Split q "&") ->
  canonicalizeQuery q' = canonicalizeQuery q.
Proof.
  intros Hp.
  assert (Hs : sort_Strings (strings_Split q' "&") = sort_Strings (strings_Split q "&")).
  { apply sort_Strings_unique; [|apply sort_Strings_sorted].
    rewrite sort_Strings_perm. exact Hp. }
  rewrite <- (Join_Split (canonicalizeQuery q') "&"),
          <- (Join_Split (canonicalizeQuery q) "&").
  rewrite !Split_canonicalizeQuery, Hs. reflexivity.
Qed.

(** X1.  The canonical form of a raw query has the tokens of the query, in
    increasing order; it is its own canonical form, and a query whose
    tokens are already in increasing order is left as it is. *)
Theorem canonicalizeQuery_canonical (q : string) :
  Permutation (strings_Split (canonicalizeQuery q) "&") (strings_Split q "&")
  /\ StronglySorted string_le (strings_Split (canonicalizeQuery q) "&")
  /\ canonicalizeQuery (canonicalizeQuery q) = canonicalizeQuery q
  /\ (StronglySorted string_le (strings_Split q "&") -> canonicalizeQuery q = q).
Proof.
  rewrite Split_canonicalizeQuery.
  split; [apply sort_Strings_perm|]. split; [apply sort_Strings_sorted|]. split.
  - apply canonicalizeQuery_perm. rewrite Split_canonicalizeQuery.
    apply sort_Strings_perm.
  - intros Hs.
    rewrite <- (Join_Split (canonicalizeQuery q) "&"), Split_canonicalizeQuery.
    rewrite <- (sort_Strings_unique (strings_Split q "&") (strings_Split q "&"))
      by (reflexivity || exact Hs).
    apply Join_Split.
Qed.

(** ** What the signature covers *)

Section SigningCoverage.
Context `{HH : Hashing}.

Lemma createStringToSign_query (req : Request) (body : string) (ts : Z) :
  createStringToSign req body ts
  = strings_Join [Method req; URL_Path req; canonicalizeQuery (URL_RawQuery req);
                  canonicalizeHeaders req; hex_EncodeToString (sha256_Sum256 body);
                  FormatInt ts] LF.
Proof.
  unfold createStringToSign. cbn [app].
  destruct (String.eqb_spec (URL_RawQuery req) "") as [->|Hne]; reflexivity.
Qed.

(** X2.  Two requests that differ only in the order of the [&]-separated
    tokens of their raw queries have the same canonical string; a
    signature verifies for the one exactly when it does for the other. *)
Theorem signature_ignores_query_order (rs : option RequestSigner)
    (req req' : Request) (body : string) :
  Method req' = Method req -> URL_Path req' = URL_Path req ->
  Header req' = Header req ->
  Permutation (strings_Split (URL_RawQuery req') "&")
              (strings_Split (URL_RawQuery req) "&") ->
  (forall ts, createStringToSign req' body ts = createStringToSign req body ts)
  /\ forall now sig,
       VerifySignature rs now req' body sig = VerifySignature rs now req body sig.
Proof.
  intros Hm Hp Hh Hq.
  assert (Hc : forall ts, createStringToSign req' body ts = createStringToSign req body ts).
  { intros ts. rewrite !createStringToSign_query.
    rewrite Hm, Hp, (canonicalizeQuery_perm _ _ Hq).
    unfold canonicalizeHeaders. rewrite Hh. reflexivity. }
  split; [exact Hc|]. intros now sig. unfold VerifySignature.
  destruct rs as [s|]; [|reflexivity]. rewrite Hh.
  destruct (String.eqb _ ""); [reflexivity|].
  destruct (ParseInt _) as [ts|]; [|reflexivity].
  rewrite Hc. reflexivity.
Qed.

(** X3.  Only the headers Authorization, Content-Type and X-Timestamp enter
    the signature: setting any other header of a request, to any value,
    changes neither its canonical string nor the verdict of
    [VerifySignature]. *)
Theorem unsigned_headers_not_covered (rs : option RequestSigner) (now : Time)
    (req : Request) (body sig : string) (k v : string) :
  ~ In (CanonicalMIMEHeaderKey k) ["Authorization"; "Content-Type"; "X-Timestamp"] ->
  let req' := set_Header req (Header_Set (Header req) k v) in
  (forall ts, createStringToSign req' body ts = createStringToSign req body ts)
  /\ VerifySignature rs now req' body sig = VerifySignature rs now req body sig.
Proof.
  intros Hk req'.
  assert (Hget : forall name, In name ("X-Timestamp" :: headersToSign) ->
                   Header_Get (Header req') name = Header_Get (Header req) name).
  { intros name Hn. subst req'. cbn [Header set_Header].
    apply Header_Get_Set_ne. intros E. apply Hk. rewrite E.
    cbn in Hn. destruct Hn as [<-|[<-|[<-|[<-|[]]]]]; vm_compute; auto. }
  assert (Hc : forall ts, createStringToSign req' body ts = createStringToSign req body ts).
  { intros ts. apply createStringToSign_ext; try reflexivity.
    intros name Hn. apply Hget. right. exact Hn. }
  split; [exact Hc|]. unfold VerifySignature.
  destruct rs as [s|]; [|reflexivity].
  rewrite (Hget "X-Timestamp") by (left; reflexivity).
  destruct (String.eqb _ ""); [reflexivity|].
  destruct (ParseInt _) as [ts|]; [|reflexivity].
  rewrite Hc. reflexivity.
Qed.

(** X5.  Signing again forgets the earlier signature: a request that already
    carries the headers of an earlier [SignRequest], by whatever signer,
    at whatever time and for whatever body, is signed to exactly the
    request that signing the original one gives.  What a retry sends is
    therefore what a first attempt at that moment would have sent. *)
Theorem signing_again_forgets_the_earlier_signature (rs' : option RequestSigner)
    (s : RequestSigner) (t1 t2 : Time) (req : Request) (body body' : string) :
  SignRequest (Some s) t2 (SignRequest rs' t1 req body') body
  = SignRequest (Some s) t2 req body.
Proof.
  destruct rs' as [s'|]; [|reflexivity].
  unfold SignRequest, set_Header.
  cbn [Header Method URL_Path URL_RawQuery Body ctxDone].
  set (h1 := Header_Set (Header_Set (Header req) "X-Timestamp" _) "X-Signature" _).
  assert (Hsig :
    createStringToSign
      (mkRequest (Method req) (URL_Path req) (URL_RawQuery req)
         (Header_Set h1 "X-Timestamp" (FormatInt (Time_Unix t2))) (Body req) (ctxDone req))
      body (Time_Unix t2)
    = createStringToSign
        (mkRequest (Method req) (URL_Path req) (URL_RawQuery req)
           (Header_Set (Header req) "X-Timestamp" (FormatInt (Time_Unix t2)))
           (Body req) (ctxDone req))
        body (Time_Unix t2)).
  { apply createStringToSign_ext; try reflexivity.
    intros name Hn. cbn [Header]. subst h1. unfold Header_Get, Header_Set.
    cbn in Hn. destruct Hn as [<-|[<-|[<-|[]]]].
    - rewrite !lookup_insert_ne by (vm_compute; discriminate). reflexivity.
    - rewrite !lookup_insert_ne by (vm_compute; discriminate). reflexivity.
    - change (CanonicalMIMEHeaderKey "x-timestamp") with (CanonicalMIMEHeaderKey "X-Timestamp").
      rewrite !lookup_insert_eq. reflexivity. }
  rewrite Hsig. f_equal. subst h1. unfold Header_Set. apply map_eq. intros k.
  destruct (decide (k = CanonicalMIMEHeaderKey "X-Signature")) as [->|Hs].
  { rewrite !lookup_insert_eq. reflexivity. }
  rewrite !(lookup_insert_ne _ (CanonicalMIMEHeaderKey "X-Signature")) by congruence.
  destruct (decide (k = CanonicalMIMEHeaderKey "X-Timestamp")) as [->|Ht].
  { rewrite !lookup_insert_eq. reflexivity. }
  rewrite !lookup_insert_ne by congruence. reflexivity.
Qed.

Lemma parse_digits_ge (s : string) (acc n : Z) :
  parse_digits s acc = Some n -> 0 <= acc -> 0 <= n.
Proof.
  revert acc. induction s as [|c s IH]; intros acc; cbn [parse_digits].
  - intros [= <-]. auto.
  - unfold digit_val.
    destruct ((48 <=? Z.of_N (N_of_ascii c)) && (Z.of_N (N_of_ascii c) <=? 57)) eqn:E;
      [|discriminate].
    intros Hp Hacc. apply (IH _ Hp). lia.
Qed.

Lemma ParseInt_range (s : string) (z : Z) : ParseInt s = Some z -> in_int64 z.
Proof.
  unfold ParseInt, in_int64. destruct s as [|c s]; [discriminate|].
  destruct (Ascii.eqb c "+"); [|destruct (Ascii.eqb c "-")].
  - destruct s; [discriminate|].
    destruct (parse_digits _ 0) as [n|] eqn:E; [|discriminate].
    apply parse_digits_ge in E; [|lia].
    destruct (Z.ltb_spec n (2 ^ 63)); [|discriminate]. intros [= <-]. lia.
  - destruct s; [discriminate|].
    destruct (parse_digits _ 0) as [n|] eqn:E; [|discriminate].
    apply parse_digits_ge in E; [|lia].
    destruct (Z.leb_spec n (2 ^ 63)); [|discriminate]. intros [= <-]. lia.
  - destruct (parse_digits _ 0) as [n|] eqn:E; [|discriminate].
    apply parse_digits_ge in E; [|lia].
    destruct (Z.ltb_spec n (2 ^ 63)); [|discriminate]. intros [= <-]. lia.
Qed.

(** The freshness test [abs(now - timestamp) > 300] in 64-bit
    arithmetic: besides the timestamps within 300 seconds of [now] it
    lets pass the one at distance [2^63], where the difference and its
    negation both wrap to the minimal [int64]. *)
Lemma freshness_test (u ts : Z) :
  0 <= u < 2 ^ 62 -> in_int64 ts ->
  (abs (int64_sub u ts) >? 300) = false
  <-> (Z.abs (u - ts) <= 300 \/ ts = u - 2 ^ 63).
Proof.
  unfold in_int64, abs, int64_sub, int64_neg, wrap64.
  change (2 ^ 62) with 4611686018427387904.
  change (2 ^ 63) with 9223372036854775808.
  change (2 ^ 64) with 18446744073709551616.
  intros Hu Hts.
  destruct (Z.ltb_spec ((u - ts + 9223372036854775808) mod 18446744073709551616
                        - 9223372036854775808) 0) as [Hneg|Hpos].
  - rewrite Z.gtb_ltb, Z.ltb_ge. split; intros H.
    + Z.to_euclidean_division_equations. lia.
    + Z.to_euclidean_division_equations. lia.
  - rewrite Z.gtb_ltb, Z.ltb_ge. split; intros H.
    + Z.to_euclidean_division_equations. lia.
    + Z.to_euclidean_division_equations. lia.
Qed.

(** X4.  [VerifySignature] accepts a request exactly when its [X-Timestamp]
    is a decimal [int64], the signature is the one computed for the
    request at that timestamp, and the timestamp is within 300 seconds of
    the current time, or lies exactly [2^63] seconds before it: at that
    distance [abs] overflows and the freshness test passes. *)
Theorem VerifySignature_accepts (rs : RequestSigner) (now : Time)
    (req : Request) (body sig : string) :
  0 <= now < 2 ^ 63 ->
  VerifySignature (Some rs) now req body sig = true
  <-> exists ts,
        ParseInt (Header_Get (Header req) "X-Timestamp") = Some ts
        /\ (Z.abs (Time_Unix now - ts) <= 300 \/ ts = Time_Unix now - 2 ^ 63)
        /\ sig = generateSignature rs (createStringToSign req body ts).
Proof.
  intros Hnow.
  assert (Hu : 0 <= Time_Unix now < 2 ^ 62).
  { unfold Time_Unix, Second. split.
    - apply Z.div_pos; lia.
    - apply Z.div_lt_upper_bound; [lia|].
      change (2 ^ 63) with 9223372036854775808 in Hnow.
      change (2 ^ 62) with 4611686018427387904. lia. }
  unfold VerifySignature.
  destruct (String.eqb_spec (Header_Get (Header req) "X-Timestamp") "") as [E|E].
  { split; [discriminate|]. intros (ts & Hp & _). rewrite E in Hp. discriminate. }
  destruct (ParseInt (Header_Get (Header req) "X-Timestamp")) as [ts|] eqn:Hp.
  2:{ split; [discriminate|]. intros (ts & [=] & _). }
  pose proof (freshness_test (Time_Unix now) ts Hu (ParseInt_range _ _ Hp)) as Hf.
  destruct (abs (int64_sub (Time_Unix now) ts) >? 300) eqn:Eabs.
  - split; [discriminate|]. intros (ts' & [= <-] & Hw & _).
    apply Hf in Hw. discriminate.
  - split.
    + intros Hs. apply String.eqb_eq in Hs. exists ts.
      split; [reflexivity|]. split; [apply Hf; reflexivity|exact Hs].
    + intros (ts' & [= <-] & _ & ->). apply String.eqb_refl.
Qed.
End SigningCoverage.

(** The query of the example request, with its two parameters swapped. *)
Lemma signature_ignores_query_order_witness :
  createStringToSign (H := example_Hashing)
    (mkRequest "GET" "/employees" "limit=10&page=2" (Header example_request) None None)
    "" 1700000000
  = createStringToSign (H := example_Hashing) example_request "" 1700000000.
Proof.
  refine (proj1 (signature_ignores_query_order (HH := example_Hashing) None
                   example_request
                   (mkRequest "GET" "/employees" "limit=10&page=2"
                      (Header example_request) None None)
                   "" eq_refl eq_refl eq_refl _) 1700000000).
  vm_compute. apply perm_swap.
Defined.

(** An [Accept] header added after signing does not disturb the
    verification. *)
Lemma unsigned_headers_witness :
  let rs := NewRequestSigner "s3cret" in
  let req := SignRequest (H := example_Hashing) (Some rs)
               (1700000000 * Second) example_request "" in
  VerifySignature (H := example_Hashing) (Some rs) (1700000010 * Second)
    (set_Header req (Header_Set (Header req) "accept" "text/html")) ""
    (Header_Get (Header req) "X-Signature")
  = VerifySignature (H := example_Hashing) (Some rs) (1700000010 * Second)
      req "" (Header_Get (Header req) "X-Signature").
Proof.
  intros rs req.
  refine (proj2 (unsigned_headers_not_covered (HH := example_Hashing) (Some rs)
                   (1700000010 * Second) req ""
                   (Header_Get (Header req) "X-Signature") "accept" "text/html" _)).
  vm_compute. intros [H|[H|[H|[]]]]; discriminate H.
Defined.

(** A request stamped [2^63] seconds before the current time, and signed
    for that timestamp, is accepted. *)
Lemma VerifySignature_accepts_witness :
  let rs := NewRequestSigner "s3cret" in
  let req := mkRequest "GET" "/employees" ""
               (<["X-Timestamp" := ["-9223372035154775808"]]> ∅) None None in
  VerifySignature (H := example_Hashing) (Some rs) (1700000000 * Second) req ""
    (generateSignature (H := example_Hashing) rs
       (createStringToSign (H := example_Hashing) req "" (-9223372035154775808)))
  = true.
Proof.
  intros rs req.
  apply (proj2 (VerifySignature_accepts (HH := example_Hashing) rs
                  (1700000000 * Second) req ""
                  (generateSignature (H := example_Hashing) rs
                     (createStringToSign (H := example_Hashing) req ""
                        (-9223372035154775808)))
                  ltac:(vm_compute; split; [discriminate|reflexivity]))).
  exists (-9223372035154775808).
  split; [vm_compute; reflexivity|]. split; [right; vm_compute; reflexivity|reflexivity].
Defined.

(** ** Token bucket: range and admission bound *)

Lemma Duration_Seconds_nonneg (d : Z) : 0 <= d -> (0 <= Duration_Seconds d)%Q.
Proof.
  intros Hd. unfold Duration_Seconds. apply Qle_shift_div_l; [reflexivity|].
  rewrite Qmult_0_l. change 0%Q with (inject_Z 0). rewrite <- Zle_Qle. exact Hd.
Qed.

Lemma elapsed_tokens_nonneg (rl : RateLimiter) (now : Time) :
  (0 <= refillRate rl)%Q -> lastRefill rl <= now -> (0 <= elapsed_tokens rl now)%Q.
Proof.
  intros Hr Hn. unfold elapsed_tokens, Time_Sub.
  apply Qmult_le_0_compat; [apply Duration_Seconds_nonneg; lia|exact Hr].
Qed.

Lemma refilled_range (rl : RateLimiter) (now : Time) :
  bucket_ok rl -> lastRefill rl <= now ->
  (tokens rl <= refilled rl now)%Q /\ (refilled rl now <= maxTokens rl)%Q.
Proof.
  intros (H0 & Hm & Hr) Hn.
  pose proof (elapsed_tokens_nonneg rl now Hr Hn) as He.
  pose proof (refilled_min rl now) as Hf.
  destruct (Q.min_spec (maxTokens rl) (tokens rl + elapsed_tokens rl now))
    as [[Hlt Hmin]|[Hle Hmin]]; rewrite Hmin in Hf; split; lra.
Qed.

Lemma Allow_bucket_ok (rl : RateLimiter) (now : Time) :
  bucket_ok rl -> lastRefill rl <= now -> bucket_ok (Allow rl now).2.
Proof.
  intros Hok Hn. destruct (refilled_range rl now Hok Hn) as [Hlo Hhi].
  destruct Hok as (H0 & Hm & Hr).
  pose proof (Allow_spec rl now) as H. destruct (Allow rl now) as [ok rl'].
  destruct H as (Hl & Hmx & Hrr & Hadm & Htok). cbn [snd].
  unfold bucket_ok. rewrite Hmx, Hrr. destruct ok.
  - assert (1 <= refilled rl now)%Q by (apply Hadm; reflexivity).
    repeat split; lra.
  - repeat split; lra.
Qed.

Lemma List_last_cons {A} (x d : A) (l : list A) : List.last (x :: l) d = List.last l x.
Proof.
  revert x d. induction l as [|y l IH]; intros x d; [reflexivity|].
  change (List.last (x :: y :: l) d) with (List.last (y :: l) d).
  rewrite (IH y d), (IH y x). reflexivity.
Qed.

Lemma Allow_seq_bucket_ok (ts : list Time) (rl : RateLimiter) :
  bucket_ok rl -> nondecreasing_from (lastRefill rl) ts ->
  bucket_ok (Allow_seq rl ts).2
  /\ maxTokens (Allow_seq rl ts).2 = maxTokens rl
  /\ lastRefill (Allow_seq rl ts).2 = List.last ts (lastRefill rl).
Proof.
  revert rl. induction ts as [|t ts IH]; intros rl Hok Hts.
  - cbn. auto.
  - rewrite Allow_seq_cons. cbn [snd]. destruct Hts as [Ht Hts].
    pose proof (Allow_bucket_ok rl t Hok Ht) as Hok1.
    pose proof (Allow_spec rl t) as H. destruct (Allow rl t) as [ok rl1].
    destruct H as (Hl & Hmx & _). cbn [snd] in *.
    rewrite <- Hl in Hts. destruct (IH rl1 Hok1 Hts) as (H1 & H2 & H3).
    split; [exact H1|]. split; [congruence|].
    rewrite H3, Hl, List_last_cons. reflexivity.
Qed.

(** The tokens spent and the tokens left are covered by the tokens there
    were and the refill of the time elapsed. *)
Lemma Allow_seq_balance (ts : list Time) (rl : RateLimiter) :
  (inject_Z (Z.of_nat (count_admitted (Allow_seq rl ts).1))
   + tokens (Allow_seq rl ts).2
   <= tokens rl + elapsed_tokens rl (lastRefill (Allow_seq rl ts).2))%Q.
Proof.
  revert rl. induction ts as [|t ts IH]; intros rl.
  - cbn [Allow_seq fst snd]. change (count_admitted []) with 0%nat.
    change (inject_Z (Z.of_nat 0)) with 0%Q.
    unfold elapsed_tokens, Time_Sub. rewrite Z.sub_diag, Duration_Seconds_0. lra.
  - rewrite Allow_seq_cons. cbn [fst snd].
    pose proof (Allow_spec rl t) as H. pose proof (refilled_le rl t) as Hle.
    destruct (Allow rl t) as [ok rl1]. cbn [fst snd].
    destruct H as (Hl & Hmx & Hr & Hadm & Htok).
    specialize (IH rl1).
    set (rl2 := (Allow_seq rl1 ts).2) in *.
    set (oks := (Allow_seq rl1 ts).1) in *.
    assert (H2 : (elapsed_tokens rl (lastRefill rl2)
                  == elapsed_tokens rl t + elapsed_tokens rl1 (lastRefill rl2))%Q).
    { unfold elapsed_tokens, Time_Sub. rewrite Hl, Hr.
      replace (lastRefill rl2 - lastRefill rl)
        with ((t - lastRefill rl) + (lastRefill rl2 - t)) by lia.
      rewrite Duration_Seconds_add. ring. }
    rewrite H2. unfold count_admitted in *. cbn [List.filter]. destruct ok.
    + cbn [List.length]. rewrite Nat2Z.inj_succ. unfold Z.succ.
      rewrite inject_Z_plus. change (inject_Z 1) with 1%Q. lra.
    + lra.
Qed.



(** ** Waiting for a token *)

Lemma Wait_frame (fuel : nat) (p : nat) (ctx : option Time) :
  forall w,
    clock w <= clock (Wait fuel p ctx w).2
    /\ served (Wait fuel p ctx w).2 = served w
    /\ (forall q, q <> p -> limiters (Wait fuel p ctx w).2 !! q = limiters w !! q)
    /\ (forall done_at, ctx = Some done_at ->
          clock (Wait fuel p ctx w).2 <= Z.max (clock w) done_at)
    /\ (forall e, (Wait fuel p ctx w).1 = WaitErr e ->
          exists done_at, ctx = Some done_at /\ done_at <= clock (Wait fuel p ctx w).2).
Proof.
  induction fuel as [|fuel IH]; intros w; cbn [Wait].
  - cbn. repeat split; auto; try lia; discriminate.
  - destruct (limiters w !! p) as [rl|] eqn:Hp.
    2:{ cbn. repeat split; auto; try lia; discriminate. }
    destruct (Allow rl (clock w)) as [ok rl'] eqn:Ea.
    destruct ok.
    { cbn. repeat split; auto; try lia; try discriminate.
      intros q Hq. apply lookup_insert_ne. auto. }
    set (w1 := emit (set_limiter w p rl') (EvAllow (clock w) false)).
    assert (Hrec : forall fires, clock w <= fires ->
              (forall done_at, ctx = Some done_at -> fires < done_at) ->
              let r := Wait fuel p ctx (set_clock w1 fires) in
              clock w <= clock r.2
              /\ served r.2 = served w
              /\ (forall q, q <> p -> limiters r.2 !! q = limiters w !! q)
              /\ (forall done_at, ctx = Some done_at ->
                    clock r.2 <= Z.max (clock w) done_at)
              /\ (forall e, r.1 = WaitErr e ->
                    exists done_at, ctx = Some done_at /\ done_at <= clock r.2)).
    { intros fires Hf Hlt r. subst r.
      destruct (IH (set_clock w1 fires)) as (H1 & H2 & H3 & H4 & H5).
      cbn [clock set_clock served limiters] in *.
      split; [lia|]. split; [exact H2|]. split.
      - intros q Hq. rewrite (H3 q Hq). subst w1. cbn. apply lookup_insert_ne. auto.
      - split; [|exact H5]. intros done_at Hd. specialize (H4 _ Hd).
        specialize (Hlt _ Hd). lia. }
    destruct ctx as [done_at|].
    + change (clock w1) with (clock w).
      destruct (Z.leb_spec done_at (clock w + Z.max 0 (waitTime_of rl'))).
      * cbn. repeat split; auto; try lia.
        -- intros q Hq. apply lookup_insert_ne. auto.
        -- intros d [= <-]. lia.
        -- intros e _. exists done_at. split; [reflexivity|lia].
      * apply Hrec; [lia|]. intros d [= <-]. lia.
    + change (clock w1) with (clock w). apply Hrec; [lia|discriminate].
Qed.

(** X8.  Waiting for a token never goes past the end of the request's
    context.  [Wait] only lets time pass: it sends nothing and touches no
    other limiter; called at [t] with a context that ends at [done_at] it
    returns no later than [max t done_at], and when it returns the error
    of the context, the context has ended and the rate limit transport
    returns that error without calling the transport it wraps. *)
Theorem Wait_respects_deadline `{Hashing} (fuel : nat) (p : nat)
    (ctx : option Time) (w : World) :
  let r := Wait fuel p ctx w in
  clock w <= clock r.2
  /\ served r.2 = served w
  /\ (forall q, q <> p -> limiters r.2 !! q = limiters w !! q)
  /\ (forall done_at, ctx = Some done_at -> clock r.2 <= Z.max (clock w) done_at)
  /\ (forall e, r.1 = WaitErr e ->
        (exists done_at, ctx = Some done_at /\ done_at <= clock r.2)
        /\ forall t req, ctxDone req = ctx ->
             RoundTrip fuel (rateLimitTransport t (Some p)) req w = (RErr e, req, r.2)).
Proof.
  intros r. destruct (Wait_frame fuel p ctx w) as (H1 & H2 & H3 & H4 & H5).
  fold r in H1, H2, H3, H4, H5.
  split; [exact H1|]. split; [exact H2|]. split; [exact H3|]. split; [exact H4|].
  intros e He. split; [apply (H5 e He)|].
  intros t req Hctx. cbn [RoundTrip Wait_ptr]. rewrite Hctx. fold r.
  destruct r as [r0 w']. cbn in He. subst r0. reflexivity.
Qed.

(** X9.  [Wait] looks at the bucket before it looks at the context: when a
    token is there, the call takes it and returns nil at once, also for a
    request whose context has already ended. *)
Theorem Wait_admits_before_cancellation (fuel : nat) (p : nat)
    (ctx : option Time) (w : World) (rl : RateLimiter) :
  limiters w !! p = Some rl ->
  (1 <= refilled rl (clock w))%Q ->
  Wait (S fuel) p ctx w
  = (WaitNil,
     emit (set_limiter w p
             (mkRateLimiter (refilled rl (clock w) - 1) (maxTokens rl)
                            (refillRate rl) (clock w)))
          (EvAllow (clock w) true)).
Proof.
  intros Hp Ht. cbn [Wait]. rewrite Hp. unfold Allow.
  apply Qle_bool_iff in Ht. rewrite Ht. reflexivity.
Qed.



(** A full bucket and a context that ended a second ago. *)
Lemma Wait_admits_before_cancellation_witness :
  (Wait 1 0 (Some (1699999999 * Second))
     (mkWorld (1700000000 * Second) (<[0%nat := mkRateLimiter 10 10 (5 # 1) 0]> ∅)
        flaky_server 0 [])).1 = WaitNil.
Proof.
  rewrite (Wait_admits_before_cancellation 0 0 (Some (1699999999 * Second))
             (mkWorld (1700000000 * Second)
                (<[0%nat := mkRateLimiter 10 10 (5 # 1) 0]> ∅) flaky_server 0 [])
             (mkRateLimiter 10 10 (5 # 1) 0) ltac:(apply lookup_insert_eq)
             ltac:(vm_compute; discriminate)).
  reflexivity.
Defined.

(** ** Retry: a budget that is spent, and one that is negative *)

Lemma attempts_chain_exhausted inner m d res :
  forall atts req w i,
    Forall (fun a => retryable (att_result a) = true) atts ->
    0 <= i <= m ->
    attempts_chain inner m d res req w i atts ->
    Z.of_nat (List.length atts) = m + 1 - i
    /\ retryable res = true
    /\ (forall k a, atts !! k = Some a ->
          att_sleep a = if i + Z.of_nat k <? m
                        then Some (wrap64 (d * 2 ^ (i + Z.of_nat k))) else None)
    /\ (0 <= d -> d * 2 ^ m < 2 ^ 63 -> total_pause atts = d * (2 ^ m - 2 ^ i)).
Proof.
  induction atts as [|a rest IH]; intros req w i Hall Hi Hc; [destruct Hc|].
  destruct Hc as (Hidx & Hreq & Hw & Hres & Hrest).
  apply Forall_cons_1 in Hall as [Hr Hall].
  destruct rest as [|a1 rest'].
  - destruct Hrest as (Hs & Hret & Hlast). specialize (Hlast Hr).
    split; [cbn; lia|]. split.
    { rewrite Hret. destruct (att_result a); cbn in *; congruence. }
    split.
    + intros k a' Hk. destruct k; [|discriminate]. injection Hk as <-.
      change (Z.of_nat 0) with 0. rewrite Z.add_0_r, Hlast, Z.ltb_irrefl. exact Hs.
    + intros _ _. cbn. rewrite Hs, Hlast. lia.
  - destruct Hrest as (_ & Hlt & Hs & Hc).
    destruct (IH _ _ (i + 1) Hall ltac:(lia) Hc) as (Hlen & Hres' & Hsl & Htot).
    split; [cbn [List.length] in *; lia|]. split; [exact Hres'|]. split.
    + intros k a' Hk. destruct k as [|k].
      * injection Hk as <-. change (Z.of_nat 0) with 0. rewrite Z.add_0_r.
        destruct (Z.ltb_spec i m); [|lia]. rewrite Hs, backoff_wrap by lia. reflexivity.
      * cbn in Hk. rewrite (Hsl k a' Hk).
        replace (i + 1 + Z.of_nat k) with (i + Z.of_nat (S k)) by lia. reflexivity.
    + intros Hd Hm.
      change (total_pause (a :: a1 :: rest'))
        with (match att_sleep a with
              | Some d0 => Z.max 0 d0 + total_pause (a1 :: rest')
              | None => total_pause (a1 :: rest')
              end).
      rewrite Hs, (Htot Hd Hm), backoff_wrap by lia.
      assert (Hp : 0 < 2 ^ i) by (apply Z.pow_pos_nonneg; lia).
      assert (Hle : 2 ^ i <= 2 ^ m) by (apply Z.pow_le_mono_r; lia).
      rewrite wrap64_id by (unfold in_int64; nia).
      rewrite Z.pow_add_r by lia. nia.
Qed.

(** X10.  With a negative [maxRetries] the loop of [retryTransport.RoundTrip]
    is not entered: nothing is sent and the caller gets neither a
    response nor an error.  With [maxRetries >= 0], when every attempt
    made fails in a retryable way, exactly [maxRetries + 1] attempts
    were made, the failure of the last one is what is returned,
    the pause after attempt [k] is [retryDelay * 2^k] reduced to 64 bits,
    and as long as [retryDelay * 2^maxRetries] is a representable
    duration the pauses add up to [retryDelay * (2^maxRetries - 1)]. *)
Theorem retry_budget_spent
    (inner : Request -> World -> Result * Request * World)
    (maxRetries retryDelay : Z) (req : Request) (w : World) :
  (maxRetries < 0 ->
   retry_RoundTrip inner maxRetries retryDelay req w = (RNil, req, w, []))
  /\ (0 <= maxRetries ->
      let '(res, _, _, atts) := retry_RoundTrip inner maxRetries retryDelay req w in
      Forall (fun a => retryable (att_result a) = true) atts ->
      Z.of_nat (List.length atts) = maxRetries + 1
      /\ retryable res = true
      /\ (exists a, last atts = Some a /\ res = att_result a)
      /\ (forall k a, atts !! k = Some a ->
            att_sleep a = if Z.of_nat k <? maxRetries
                          then Some (wrap64 (retryDelay * 2 ^ Z.of_nat k))
                          else None)
      /\ (0 <= retryDelay -> retryDelay * 2 ^ maxRetries < 2 ^ 63 ->
          total_pause atts = retryDelay * (2 ^ maxRetries - 1))).
Proof.
  unfold retry_RoundTrip. split.
  - intros Hm. replace (Z.to_nat (maxRetries + 1)) with 0%nat by lia.
    cbn [retry_loop]. destruct (Z.leb_spec 0 maxRetries); [lia|reflexivity].
  - intros Hm.
    pose proof (retry_loop_chain inner maxRetries retryDelay
                  (Z.to_nat (maxRetries + 1)) 0 RNil req w ltac:(lia)
                  ltac:(f_equal; lia)) as H.
    destruct (retry_loop inner maxRetries retryDelay (Z.to_nat (maxRetries + 1))
                0 RNil req w) as [[[res req'] w'] atts].
    destruct H as [Hc _]. intros Hall.
    destruct (attempts_chain_exhausted inner maxRetries retryDelay res
                atts req w 0 Hall ltac:(lia) Hc) as (Hlen & Hres & Hsl & Htot).
    split; [lia|]. split; [exact Hres|]. split; [|split].
    + destruct (lookup_lt_is_Some_2 atts (Z.to_nat maxRetries) ltac:(lia)) as [a Ha].
      exists a. split.
      * rewrite last_lookup. rewrite <- Ha. f_equal. lia.
      * destruct (attempts_chain_lookup _ _ _ _ _ _ _ _ _ _ Hc Ha) as (_ & _ & _ & H4 & _).
        destruct H4 as (_ & Hret & _); [lia|].
        rewrite Hret. destruct (att_result a); cbn in *; try reflexivity.
        rewrite Hret in Hres. discriminate.
    + intros k a Hk. rewrite (Hsl k a Hk), Z.add_0_l. reflexivity.
    + intros Hd Hmx. rewrite (Htot Hd Hmx). rewrite Z.pow_0_r. reflexivity.
Qed.

(** Three retries at 100 ms against a server that always answers 500:
    four requests and 700 ms of pauses. *)
Lemma retry_budget_spent_witness :
  let w := mkWorld (1700000000 * Second) ∅
             (fun _ _ => mkNetOutcome (20 * Millisecond) (inl (mkResponse 500 ""))) 0 [] in
  let r := retry_RoundTrip net_RoundTrip 3 (100 * Millisecond) post_request w in
  Z.of_nat (List.length r.2) = 4 /\ total_pause r.2 = 700 * Millisecond.
Proof.
  intros w r.
  pose proof (proj2 (retry_budget_spent net_RoundTrip 3 (100 * Millisecond)
                       post_request w) ltac:(lia)) as H.
  fold r in H. destruct r as [[[res req'] w'] atts] eqn:E.
  destruct H as (Hlen & _ & _ & _ & Htot).
  { vm_compute in E. injection E as _ _ _ <-. repeat constructor. }
  split; [exact Hlen|]. apply Htot; vm_compute; congruence.
Defined.

(** ** The retry delay of the wrapper, in seconds *)

Lemma wrap64_mul_l (a b : Z) : wrap64 (wrap64 a * b) = wrap64 (a * b).
Proof.
  apply wrap64_congr. rewrite <- Zmult_mod_idemp_l, wrap64_mod, Zmult_mod_idemp_l.
  reflexivity.
Qed.

(** X11.  [SDK.SetRetryPolicy(maxRetries, retryDelay)] installs a retry layer
    over the current transport whose delay is [retryDelay] seconds
    reduced to a 64-bit count of nanoseconds; the pause before retry
    [k + 1] is then [retryDelay * 2^k] seconds, reduced to 64 bits, and
    exactly that whenever it is representable. *)
Theorem SDK_retry_delay_in_seconds (c : Client) (maxRetries retryDelay : Z) :
  match SDK_SetRetryPolicy c maxRetries retryDelay with
  | Some c' =>
      exists t,
        client_transport c = Some t
        /\ client_transport c'
           = Some (retryTransport t maxRetries (wrap64 (retryDelay * Second)))
        /\ forall k, 0 <= k ->
             int64_mul (wrap64 (retryDelay * Second)) (int64_shl1 k)
             = wrap64 (retryDelay * 2 ^ k * Second)
             /\ (in_int64 (retryDelay * 2 ^ k * Second) ->
                 int64_mul (wrap64 (retryDelay * Second)) (int64_shl1 k)
                 = retryDelay * 2 ^ k * Second)
  | None => httpClient c = None
  end.
Proof.
  unfold SDK_SetRetryPolicy, SetRetryPolicy, set_Transport, client_transport.
  destruct (httpClient c) as [hc|]; [|reflexivity]. cbn.
  eexists. split; [reflexivity|]. split; [reflexivity|].
  intros k Hk.
  assert (E : int64_mul (wrap64 (retryDelay * Second)) (int64_shl1 k)
              = wrap64 (retryDelay * 2 ^ k * Second)).
  { rewrite backoff_wrap by exact Hk. rewrite wrap64_mul_l. f_equal. lia. }
  split; [exact E|]. intros Hin. rewrite E. apply wrap64_id. exact Hin.
Qed.

(** ** API errors and the responses that are retried *)

(** X12.  [makeRequest] reports an error for a response exactly when its
    status is 400 or more.  The classes of an [APIError] exclude each
    other: a client error (4xx) is no server error (5xx and above), and
    401, 403, 404, 409 and 429 are client errors.  When the body does not
    decode, the error carries the HTTP status, so that it is a server
    error exactly when the retry transport took the response for a
    failure to retry: in particular a 429 is never retried.  When the
    body decodes, the error carries the status code found in the body,
    whatever the HTTP status was. *)
Theorem APIError_classes (resp : Response) (endpoint : string) :
  (forall e : errors.APIError,
     (errors.IsClientError e = true -> errors.IsServerError e = false)
     /\ (errors.IsUnauthorized e || errors.IsForbidden e || errors.IsNotFound e
         || errors.IsConflict e || errors.IsRateLimited e = true ->
         errors.IsClientError e = true))
  /\ (forall errorResp,
        error_of_response resp errorResp endpoint = None <-> StatusCode resp < 400)
  /\ (forall e, error_of_response resp None endpoint = Some e ->
        errors.StatusCode e = StatusCode resp
        /\ errors.IsServerError e = retryable (RResp resp)
        /\ (errors.IsClientError e = true -> retryable (RResp resp) = false))
  /\ (forall statusCode message details,
        400 <= StatusCode resp ->
        error_of_response resp (Some (statusCode, message, details)) endpoint
        = Some (errors.NewAPIError statusCode message details endpoint)).
Proof.
  split; [|split; [|split]].
  - intros e.
    unfold errors.IsClientError, errors.IsServerError, errors.IsUnauthorized,
      errors.IsForbidden, errors.IsNotFound, errors.IsConflict, errors.IsRateLimited.
    split; intros H.
    + apply andb_true_iff in H as [_ H]. apply Z.ltb_lt in H. apply Z.leb_gt. lia.
    + repeat (apply orb_true_iff in H as [H|H]); apply Z.eqb_eq in H; rewrite H;
        reflexivity.
  - intros errorResp. unfold error_of_response.
    destruct (Z.leb_spec 400 (StatusCode resp)).
    + destruct errorResp as [[[? ?] ?]|]; split; (discriminate || lia).
    + split; [intros _; lia|reflexivity].
  - intros e. unfold error_of_response.
    destruct (Z.leb_spec 400 (StatusCode resp)); [|discriminate].
    intros [= <-]. cbn. unfold errors.IsServerError, errors.IsClientError. cbn.
    split; [reflexivity|]. split.
    + destruct (Z.leb_spec 500 (StatusCode resp)), (Z.ltb_spec (StatusCode resp) 500);
        try reflexivity; lia.
    + intros Hc. apply andb_true_iff in Hc as [_ Hc]. rewrite Hc. reflexivity.
  - intros statusCode message details H. unfold error_of_response.
    destruct (Z.leb_spec 400 (StatusCode resp)); [reflexivity|lia].
Qed.

(** ** Rate limiting switched on and off on the client *)

Lemma fresh_ptr_fresh (w : World) : limiters w !! fresh_ptr w = None.
Proof. apply not_elem_of_dom. unfold fresh_ptr. apply is_fresh. Qed.

(** X13.  [EnableRateLimit] on a client whose configuration has rate limit
    settings puts a new limiter, full and not shared with any layer
    there was, on top of the transport of the client, whatever that
    transport is: a limiter that is already in the chain stays there.
    [DisableRateLimit] right after takes the new layer off again: the
    transport is the one from before, the client has no limiter, and
    [GetSecurityStatus] reports rate limiting as off. *)
Theorem rate_limit_enable_disable (c : Client) (w : World) (rlc : RateLimitConfig) :
  RateLimit (config c) = Some rlc ->
  match EnableRateLimit c w with
  | Some (c1, w1) =>
      exists p t,
        client_transport c = Some t
        /\ limiters w !! p = None
        /\ rateLimiter c1 = Some p
        /\ limiters w1 !! p
           = Some (mkRateLimiter (inject_Z (BurstSize rlc)) (inject_Z (BurstSize rlc))
                                 (RequestsPerSecond rlc) (clock w))
        /\ client_transport c1 = Some (rateLimitTransport t (Some p))
        /\ layers (rateLimitTransport t (Some p)) = LRateLimit :: layers t
        /\ rateLimiting (GetSecurityStatus c1) = true
        /\ exists c2,
             DisableRateLimit c1 = Some c2
             /\ client_transport c2 = Some t
             /\ rateLimiter c2 = None
             /\ rateLimiting (GetSecurityStatus c2) = false
  | None => httpClient c = None
  end.
Proof.
  intros Hrl. unfold EnableRateLimit. rewrite Hrl.
  cbn [NewRateLimiter Enabled negb alloc_limiter BurstSize RequestsPerSecond].
  cbn [httpClient]. unfold client_transport.
  destruct (httpClient c) as [hc|] eqn:Hhc; [|reflexivity].
  unfold set_Transport. cbn [httpClient].
  exists (fresh_ptr w). eexists. split; [reflexivity|].
  split; [apply fresh_ptr_fresh|]. split; [reflexivity|].
  split; [cbn; apply lookup_insert_eq|]. split; [reflexivity|].
  split; [reflexivity|].
  split. { unfold GetSecurityStatus. cbn. destruct (Security (config c)); reflexivity. }
  unfold DisableRateLimit. cbn.
  eexists. split; [reflexivity|]. cbn. split; [reflexivity|].
  split; [reflexivity|].
  unfold GetSecurityStatus. cbn. destruct (Security (config c)); reflexivity.
Qed.

(** The default configuration, rate limiting switched on and off again. *)
Lemma rate_limit_enable_disable_witness :
  match EnableRateLimit (New (H := example_Hashing) None example_world).1 example_world with
  | Some (c1, w1) =>
      exists p t,
        client_transport (New (H := example_Hashing) None example_world).1 = Some t
        /\ client_transport c1 = Some (rateLimitTransport t (Some p))
  | None => False
  end.
Proof.
  pose proof (rate_limit_enable_disable
                (New (H := example_Hashing) None example_world).1 example_world
                (mkRateLimitConfig (10 # 1) 20 false) eq_refl) as H.
  destruct (EnableRateLimit _ _) as [[c1 w1]|]; [|discriminate H].
  destruct H as (p & t & H1 & _ & _ & _ & H2 & _).
  exists p, t. split; assumption.
Defined.

(** ** The limiter of [New] under a retry layer *)

Lemma New_rate_limited `{Hashing} (cfg : Config) (rlc : RateLimitConfig)
    (hc : HTTPClient) (w : World) :
  RateLimit cfg = Some rlc -> Enabled rlc = true -> HTTPClient_ cfg = Some hc ->
  exists X,
    New (Some cfg) w
    = (mkClient cfg NewAuthManager
         (Some (mkHTTPClient (Some (rateLimitTransport X (Some (fresh_ptr w))))
                             (hc_Timeout hc)))
         (Some (fresh_ptr w))
         (credentialManager (New (Some cfg) w).1)
         (requestSigner (New (Some cfg) w).1),
       set_limiter w (fresh_ptr w)
         (mkRateLimiter (inject_Z (BurstSize rlc)) (inject_Z (BurstSize rlc))
                        (RequestsPerSecond rlc) (clock w)))
    /\ (X = configured_base hc
        \/ exists s, X = signingTransport (configured_base hc) (Some s)
                     /\ requestSigner (New (Some cfg) w).1 = Some s).
Proof.
  intros Hrl Hen Hhc. unfold New. rewrite Hrl, Hhc. unfold NewRateLimiter.
  rewrite Hen. cbn [negb alloc_limiter]. fold (configured_base hc).
  destruct (Security cfg) as [sec|].
  - destruct (EnableRequestSigning_ sec && negb (String.eqb (SigningSecret sec) "")).
    + eexists. split; [reflexivity|]. right. eexists. split; reflexivity.
    + eexists. split; [reflexivity|]. left. reflexivity.
  - eexists. split; [reflexivity|]. left. reflexivity.
Qed.

(** X14.  [DisableRateLimit] takes a rate limit layer off only when it is the
    outermost one.  On a client that [New] built with rate limiting and
    that was then given a retry policy, it leaves the transport as it is:
    the limiter of [New] stays in the chain, under the retry layer, while
    the client holds no limiter any more and [GetSecurityStatus] reports
    rate limiting as off. *)
Theorem DisableRateLimit_under_retry `{Hashing} (cfg : Config)
    (rlc : RateLimitConfig) (hc : HTTPClient) (w : World) (maxRetries retryDelay : Z) :
  RateLimit cfg = Some rlc -> Enabled rlc = true -> HTTPClient_ cfg = Some hc ->
  exists c1 c2 X p,
    SetRetryPolicy (New (Some cfg) w).1 maxRetries retryDelay = Some c1
    /\ DisableRateLimit c1 = Some c2
    /\ rateLimiter c1 = Some p
    /\ client_transport c1
       = Some (retryTransport (rateLimitTransport X (Some p)) maxRetries retryDelay)
    /\ client_transport c2 = client_transport c1
    /\ rateLimiter c2 = None
    /\ rateLimiting (GetSecurityStatus c2) = false.
Proof.
  intros Hrl Hen Hhc.
  destruct (New_rate_limited cfg rlc hc w Hrl Hen Hhc) as (X & E & _).
  rewrite E. cbn [fst]. unfold SetRetryPolicy, set_Transport. cbn.
  eexists _, _, X, (fresh_ptr w). split; [reflexivity|].
  unfold DisableRateLimit. cbn. split; [reflexivity|]. cbn.
  split; [reflexivity|]. split; [reflexivity|]. split; [reflexivity|].
  split; [reflexivity|].
  unfold GetSecurityStatus. cbn. rewrite Hrl. cbn.
  destruct (Security cfg); reflexivity.
Qed.

Lemma DisableRateLimit_under_retry_witness :
  exists c1 c2,
    SetRetryPolicy (New (H := example_Hashing) (Some example_config) example_world).1
      3 (100 * Millisecond) = Some c1
    /\ DisableRateLimit c1 = Some c2
    /\ client_transport c2 = client_transport c1
    /\ rateLimiter c2 = None.
Proof.
  destruct (DisableRateLimit_under_retry (H := example_Hashing) example_config
              (mkRateLimitConfig (5 # 1) 10 true) (mkHTTPClient None (30 * Second))
              example_world 3 (100 * Millisecond) eq_refl eq_refl eq_refl)
    as (c1 & c2 & X & p & H1 & H2 & _ & _ & H3 & H4 & _).
  exists c1, c2. auto.
Defined.

(** ** One admission per request *)

Section Admissions.
Context `{HH : Hashing}.

Lemma admissions_app (l1 l2 : list Event) :
  admissions (l1 ++ l2) = (admissions l1 + admissions l2)%nat.
Proof. unfold admissions. rewrite List.filter_app, length_app. reflexivity. Qed.

(** What [Wait] adds to the trace: denials, then at most one admission. *)
Lemma Wait_admissions (fuel : nat) (p : nat) (ctx : option Time) :
  forall w, exists tr,
    log (Wait fuel p ctx w).2 = log w ++ tr /\ (admissions tr <= 1)%nat.
Proof.
  induction fuel as [|fuel IH]; intros w; cbn [Wait].
  - exists []. cbn. rewrite app_nil_r. auto.
  - destruct (limiters w !! p) as [rl|].
    2:{ exists []. cbn. rewrite app_nil_r. auto. }
    destruct (Allow rl (clock w)) as [ok rl'].
    destruct ok.
    { exists [EvAllow (clock w) true]. cbn. auto. }
    set (w1 := emit (set_limiter w p rl') (EvAllow (clock w) false)).
    assert (Hrec : forall fires, exists tr,
              log (Wait fuel p ctx (set_clock w1 fires)).2 = log w ++ tr
              /\ (admissions tr <= 1)%nat).
    { intros fires. destruct (IH (set_clock w1 fires)) as (tr & Hlog & Hadm).
      exists (EvAllow (clock w) false :: tr). split.
      - rewrite Hlog. subst w1. cbn. rewrite <- app_assoc. reflexivity.
      - exact Hadm. }
    destruct ctx as [done_at|]; [|apply Hrec].
    destruct (done_at <=? clock w1 + Z.max 0 (waitTime_of rl')); [|apply Hrec].
    exists [EvAllow (clock w) false]. cbn. auto.
Qed.

Lemma retry_loop_admissions
    (inner : Request -> World -> Result * Request * World) (m d : Z) :
  (forall req w, exists tr,
      log (inner req w).2 = log w ++ tr /\ admissions tr = 0%nat) ->
  forall fuel i last req w,
  exists tr,
    log (retry_loop inner m d fuel i last req w).1.2 = log w ++ tr
    /\ admissions tr = 0%nat.
Proof.
  intros Hin. induction fuel as [|fuel IH]; intros i last req w; cbn [retry_loop].
  - destruct (i <=? m); exists []; cbn; rewrite app_nil_r; auto.
  - destruct (i <=? m).
    2:{ exists []; cbn; rewrite app_nil_r; auto. }
    destruct (Hin req w) as (tr & Htr & Hp).
    destruct (inner req w) as [[res req1] w1]. cbn [snd] in Htr.
    assert (Hstop : forall (x : Result) (r : Request) (a : list Attempt),
               exists tr0, log (x, r, w1, a).1.2 = log w ++ tr0
                           /\ admissions tr0 = 0%nat).
    { intros. exists tr. auto. }
    assert (Hretry :
      exists tr0,
        log (if i =? m then (res, req1, w1, [mkAttempt i req w res None])
             else
               let '(res', req', w', atts) :=
                 retry_loop inner m d fuel (i + 1) res (restore_Body (Body req) req1)
                   (Sleep (int64_mul d (int64_shl1 i)) w1) in
               (res', req', w',
                mkAttempt i req w res (Some (int64_mul d (int64_shl1 i))) :: atts)).1.2
        = log w ++ tr0 /\ admissions tr0 = 0%nat).
    { destruct (i =? m); [apply Hstop|].
      specialize (IH (i + 1) res (restore_Body (Body req) req1)
                    (Sleep (int64_mul d (int64_shl1 i)) w1)).
      destruct (retry_loop inner m d fuel (i + 1) res _ _) as [[[res' req'] w'] atts].
      destruct IH as (tr' & Htr' & Hp'). cbn [fst snd] in *.
      exists (tr ++ EvSleep (int64_mul d (int64_shl1 i)) :: tr').
      split.
      - rewrite Htr', Sleep_log, Htr, <- !app_assoc. reflexivity.
      - rewrite admissions_app, Hp. exact Hp'. }
    destruct res as [r|e| | |]; try apply Hstop; try exact Hretry.
    destruct (StatusCode r <? 500); [apply Hstop|exact Hretry].
Qed.

(** A chain without rate limit layer asks no limiter. *)
Lemma no_limiter_no_admission (t : RoundTripper) :
  ~ In LRateLimit (layers t) ->
  forall fuel req w, exists tr,
    log (RoundTrip fuel t req w).2 = log w ++ tr /\ admissions tr = 0%nat.
Proof.
  induction t as [|id|t IH signer|t IH rl|t IH m d]; intros Hno fuel req w;
    cbn [layers] in Hno.
  - exists [EvSend req]. split; [apply net_RoundTrip_log|reflexivity].
  - exists [EvSend req]. split; [apply net_RoundTrip_log|reflexivity].
  - cbn [RoundTrip]. unfold signing_step.
    match goal with |- context [RoundTrip fuel t ?r ?w'] =>
      destruct (IH ltac:(intros Hin; apply Hno; right; exact Hin) fuel r w')
        as (tr & Hlog & Hadm) end.
    destruct signer as [s|].
    + exists (EvSign (Time_Unix (clock w)) :: tr). split; [|exact Hadm].
      rewrite Hlog. cbn. rewrite <- app_assoc. reflexivity.
    + exists tr. split; [exact Hlog|exact Hadm].
  - exfalso. apply Hno. left. reflexivity.
  - cbn [RoundTrip]. unfold retry_RoundTrip.
    pose proof (retry_loop_admissions (RoundTrip fuel t) m d
                  (fun r w1 => IH ltac:(intros Hin; apply Hno; right; exact Hin) fuel r w1)
                  (Z.to_nat (m + 1)) 0 RNil req w) as H.
    destruct (retry_loop _ _ _ _ _ _ _ _) as [[[res req'] w'] atts]. exact H.
Qed.

(** A rate limit layer over a chain without one admits a request at most
    once, however many attempts the layers below make. *)
Lemma outer_limiter_one_admission (t : RoundTripper) (p : option nat) :
  ~ In LRateLimit (layers t) ->
  forall fuel req w, exists tr,
    log (RoundTrip fuel (rateLimitTransport t p) req w).2 = log w ++ tr
    /\ (admissions tr <= 1)%nat.
Proof.
  intros Hno fuel req w. cbn [RoundTrip]. destruct p as [p|]; cbn [Wait_ptr].
  - destruct (Wait_admissions fuel p (ctxDone req) w) as (tr & Hlog & Hadm).
    destruct (Wait fuel p (ctxDone req) w) as [r w1]. cbn [snd] in Hlog.
    destruct r; try (exists tr; split; [exact Hlog|exact Hadm]).
    destruct (no_limiter_no_admission t Hno fuel req w1) as (tr' & Hlog' & Hadm').
    exists (tr ++ tr'). split.
    + rewrite Hlog', Hlog, <- app_assoc. reflexivity.
    + rewrite admissions_app, Hadm'. lia.
  - destruct (no_limiter_no_admission t Hno fuel req w) as (tr' & Hlog' & Hadm').
    exists tr'. split; [exact Hlog'|lia].
Qed.

(** X15.  [SetRateLimit] on a client that [New] built with rate limiting and
    that was then given a retry policy: the limiter of [New] sat under
    the retry layer and admitted every attempt; the call takes it out and
    puts a new limiter, full, with the new rate and burst, on top of the
    retry layer.  From then on a request is admitted at most once,
    whatever the number of attempts it takes. *)
Theorem SetRateLimit_moves_limiter_above_retry (cfg : Config)
    (rlc : RateLimitConfig) (hc : HTTPClient) (w : World)
    (maxRetries retryDelay : Z) (requestsPerSecond : Q) (burstSize : Z) :
  RateLimit cfg = Some rlc -> Enabled rlc = true -> HTTPClient_ cfg = Some hc ->
  is_base (configured_base hc) = true ->
  exists c1 c2 w2 X p0 p,
    SetRetryPolicy (New (Some cfg) w).1 maxRetries retryDelay = Some c1
    /\ client_transport c1
       = Some (retryTransport (rateLimitTransport X (Some p0)) maxRetries retryDelay)
    /\ SetRateLimit c1 requestsPerSecond burstSize (New (Some cfg) w).2 = Some (c2, w2)
    /\ client_transport c2
       = Some (rateLimitTransport (retryTransport X maxRetries retryDelay) (Some p))
    /\ p <> p0
    /\ rateLimiter c2 = Some p
    /\ limiters w2 !! p
       = Some (mkRateLimiter (inject_Z burstSize) (inject_Z burstSize)
                             requestsPerSecond (clock w))
    /\ ~ In LRateLimit (layers X)
    /\ forall fuel req w3, exists tr,
         log (RoundTrip fuel
                (rateLimitTransport (retryTransport X maxRetries retryDelay) (Some p))
                req w3).2 = log w3 ++ tr
         /\ (admissions tr <= 1)%nat.
Proof.
  intros Hrl Hen Hhc Hbase.
  destruct (New_rate_limited cfg rlc hc w Hrl Hen Hhc) as (X & E & HX).
  rewrite E. cbn [fst snd]. unfold SetRetryPolicy, set_Transport. cbn.
  set (w0 := set_limiter w (fresh_ptr w) _).
  assert (HnoX : ~ In LRateLimit (layers X)).
  { destruct HX as [->|(s & -> & _)]; destruct (configured_base hc);
      try discriminate Hbase; cbn; intuition discriminate. }
  assert (Hadm := outer_limiter_one_admission
                    (retryTransport X maxRetries retryDelay) (Some (fresh_ptr w0))
                    ltac:(cbn; intros [Hd|Hin]; [discriminate|auto])).
  eexists _, _, _, X, (fresh_ptr w), (fresh_ptr w0).
  split; [reflexivity|]. split; [reflexivity|].
  unfold SetRateLimit. cbn. split; [reflexivity|]. cbn.
  split; [reflexivity|]. split.
  { intros Heq. pose proof (fresh_ptr_fresh w0) as Hf. rewrite Heq in Hf.
    subst w0. cbn in Hf. rewrite lookup_insert_eq in Hf. discriminate. }
  split; [reflexivity|]. split; [apply lookup_insert_eq|]. split; [exact HnoX|].
  exact Hadm.
Qed.
End Admissions.

(** The client of the end-to-end scenario with a retry policy, then
    [SetRateLimit]: against the server that fails once, the request is
    admitted once and sent twice. *)
Lemma SetRateLimit_moves_limiter_above_retry_witness :
  exists c1 c2 w2 X p0 p,
    SetRetryPolicy (New (H := example_Hashing) (Some example_config) example_world).1
      2 (100 * Millisecond) = Some c1
    /\ SetRateLimit c1 (2 # 1) 4
         (New (H := example_Hashing) (Some example_config) example_world).2
       = Some (c2, w2)
    /\ client_transport c1
       = Some (retryTransport (rateLimitTransport X (Some p0)) 2 (100 * Millisecond))
    /\ client_transport c2
       = Some (rateLimitTransport (retryTransport X 2 (100 * Millisecond)) (Some p)).
Proof.
  destruct (SetRateLimit_moves_limiter_above_retry (HH := example_Hashing)
              example_config (mkRateLimitConfig (5 # 1) 10 true)
              (mkHTTPClient None (30 * Second)) example_world 2 (100 * Millisecond)
              (2 # 1) 4 eq_refl eq_refl eq_refl eq_refl)
    as (c1 & c2 & w2 & X & p0 & p & H1 & H2 & H3 & H4 & _).
  exists c1, c2, w2, X, p0, p. auto.
Defined.

Example one_admission_two_sends :
  let '(c, w) := New (H := example_Hashing) (Some example_config) example_world in
  match SetRetryPolicy c 2 (100 * Millisecond) with
  | Some c1 =>
      match SetRateLimit c1 (2 # 1) 4 w with
      | Some (c2, w2) =>
          match client_transport c2 with
          | Some t =>
              map kind_of (log (RoundTrip (H := example_Hashing) 100 t example_request w2).2)
              = [KAllow true; KSign; KSend; KSleep; KSign; KSend]
          | None => False
          end
      | None => False
      end
  | None => False
  end.
Proof. vm_compute. reflexivity. Qed.

(** ** Configuring before [New] and reconfiguring after *)

Section Builders.
Context `{HH : Hashing}.

(** X16.  Request signing can be asked for in the configuration handed to
    [New] or on the client that [New] returned.  Over the default
    transport and with a non-empty secret the two ways give the same
    client.  With the empty secret they differ: [New] installs no signer,
    whereas [EnableRequestSigning] on the client installs a signing layer
    that signs with the empty key. *)
Theorem signing_configured_or_enabled (cfg : Config) (hc : HTTPClient)
    (w : World) (signingSecret : string) :
  HTTPClient_ cfg = Some hc -> Transport hc = None ->
  (signingSecret <> "" ->
   EnableRequestSigning (New (Some cfg) w).1 signingSecret
   = Some (New (Some (Config_EnableRequestSigning cfg signingSecret)) w).1)
  /\ requestSigner (New (Some (Config_EnableRequestSigning cfg "")) w).1 = None
  /\ exists c' t,
       EnableRequestSigning (New (Some cfg) w).1 "" = Some c'
       /\ requestSigner c' = Some (NewRequestSigner "")
       /\ client_transport c' = Some t
       /\ In LSigning (layers t).
Proof.
  intros Hhc Ht. split; [|split].
  - intros Hs. apply String.eqb_neq in Hs.
    unfold EnableRequestSigning, Config_EnableRequestSigning, New,
      updateTransportChain, set_Transport, zeroSecurityConfig.
    cbn [Security set_Security HTTPClient_ RateLimit]. rewrite Hhc, Ht.
    destruct (alloc_limiter w (NewRateLimiter (RateLimit cfg) (clock w)))
      as [[p|] w'];
      destruct (Security cfg) as [sec|] eqn:Esec;
      cbn [EncryptCredentials EncryptionPassword CredentialStore_
           EnableRequestSigning_ SigningSecret andb negb fst config authManager
           httpClient rateLimiter credentialManager requestSigner hc_Timeout
           Security set_Security];
      rewrite ?Esec, ?Hs; cbn [negb andb];
      try destruct (EnableRequestSigning_ sec && negb (String.eqb (SigningSecret sec) ""));
      reflexivity.
  - unfold Config_EnableRequestSigning, New.
    cbn [Security set_Security HTTPClient_ RateLimit]. rewrite Hhc.
    destruct (alloc_limiter w (NewRateLimiter (RateLimit cfg) (clock w))) as [rl w'].
    cbn. reflexivity.
  - unfold EnableRequestSigning, New, updateTransportChain, set_Transport.
    rewrite Hhc.
    destruct (alloc_limiter w (NewRateLimiter (RateLimit cfg) (clock w)))
      as [[p|] w']; cbn; eexists _, _; (split; [reflexivity|]);
      (split; [reflexivity|]); (split; [reflexivity|]); cbn; auto.
Qed.

(** X17.  [SetRateLimit] on the client that [New] returned and the rate limit
    set in the configuration before [New] give the same chain: one rate
    limit layer, with a full limiter of the given burst and rate, over
    the signing layer or the base transport.  When the configuration had
    no rate limiting enabled the two clients and worlds are equal; when
    it had, the limiter of [New] is dropped from the chain. *)
Theorem rate_limit_configured_or_set (cfg : Config) (hc : HTTPClient)
    (w : World) (requestsPerSecond : Q) (burstSize : Z) :
  HTTPClient_ cfg = Some hc -> is_base (configured_base hc) = true ->
  let configured := New (Some (Config_SetRateLimit cfg requestsPerSecond burstSize)) w in
  let limiter := mkRateLimiter (inject_Z burstSize) (inject_Z burstSize)
                               requestsPerSecond (clock w) in
  exists c2 w2 p1 p2 X,
    SetRateLimit (New (Some cfg) w).1 requestsPerSecond burstSize (New (Some cfg) w).2
    = Some (c2, w2)
    /\ config c2 = config configured.1
    /\ requestSigner c2 = requestSigner configured.1
    /\ rateLimiter configured.1 = Some p1 /\ rateLimiter c2 = Some p2
    /\ limiters configured.2 !! p1 = Some limiter
    /\ limiters w2 !! p2 = Some limiter
    /\ client_transport configured.1 = Some (rateLimitTransport X (Some p1))
    /\ client_transport c2 = Some (rateLimitTransport X (Some p2))
    /\ ~ In LRateLimit (layers X)
    /\ (NewRateLimiter (RateLimit cfg) (clock w) = None -> (c2, w2) = configured).
Proof.
  intros Hhc Hbase configured limiter. subst configured limiter.
  unfold Config_SetRateLimit, SetRateLimit, New, set_Transport.
  cbn [RateLimit set_RateLimit HTTPClient_ Security NewRateLimiter Enabled negb
       BurstSize RequestsPerSecond].
  rewrite Hhc. fold (configured_base hc).
  assert (Hb : forall s, ~ In LRateLimit (layers (signingTransport (configured_base hc) s))
                         /\ ~ In LRateLimit (layers (configured_base hc))).
  { intros s. destruct (configured_base hc); try discriminate Hbase; cbn;
      intuition discriminate. }
  set (signer := match Security cfg with
                 | Some sec =>
                     if EnableRequestSigning_ sec && negb (String.eqb (SigningSecret sec) "")
                     then Some (NewRequestSigner (SigningSecret sec)) else None
                 | None => None
                 end).
  destruct (NewRateLimiter (RateLimit cfg) (clock w)) as [rl0|] eqn:Erl;
    cbn [alloc_limiter].
  - set (w0 := set_limiter w (fresh_ptr w) rl0).
    destruct signer as [s|] eqn:Es; cbn;
      destruct (configured_base hc) eqn:Eb; try discriminate Hbase; cbn;
      eexists _, _, (fresh_ptr w), (fresh_ptr w0), _;
      (split; [reflexivity|]); cbn;
      repeat (split; [first [reflexivity | apply lookup_insert_eq
                            | cbn; intuition discriminate]|]);
      discriminate.
  - destruct signer as [s|] eqn:Es; cbn;
      destruct (configured_base hc) eqn:Eb; try discriminate Hbase; cbn;
      eexists _, _, (fresh_ptr w), (fresh_ptr w), _;
      (split; [reflexivity|]); cbn;
      repeat (split; [first [reflexivity | apply lookup_insert_eq
                            | cbn; intuition discriminate]|]);
      reflexivity.
Qed.
(** X18.  Credential encryption, likewise: with a non-empty password, asking
    for it in the configuration and enabling it on the client give the
    same client.  With the empty password [New] installs no credential
    manager, whereas [EnableCredentialEncryption] on the client installs
    one, whose key derives from the empty password. *)
Theorem encryption_configured_or_enabled (cfg : Config) (w : World)
    (encryptionPassword : string) :
  (encryptionPassword <> "" ->
   EnableCredentialEncryption (New (Some cfg) w).1 encryptionPassword
   = (New (Some (Config_EnableCredentialEncryption cfg encryptionPassword)) w).1)
  /\ credentialManager (New (Some (Config_EnableCredentialEncryption cfg "")) w).1 = None
  /\ exists cm,
       credentialManager (EnableCredentialEncryption (New (Some cfg) w).1 "") = Some cm
       /\ encryption cm = NewCredentialEncryption "".
Proof.
  split; [|split].
  - intros Hs. apply String.eqb_neq in Hs.
    unfold EnableCredentialEncryption, Config_EnableCredentialEncryption, New,
      zeroSecurityConfig.
    cbn [Security set_Security HTTPClient_ RateLimit].
    destruct (alloc_limiter w (NewRateLimiter (RateLimit cfg) (clock w)))
      as [rl w'].
    destruct (Security cfg) as [sec|] eqn:Esec;
      cbn [EncryptCredentials EncryptionPassword CredentialStore_
           EnableRequestSigning_ SigningSecret andb negb fst config authManager
           httpClient rateLimiter credentialManager requestSigner hc_Timeout
           Security set_Security];
      rewrite ?Esec, ?Hs; cbn [negb andb]; reflexivity.
  - unfold Config_EnableCredentialEncryption, New.
    cbn [Security set_Security HTTPClient_ RateLimit].
    destruct (alloc_limiter w (NewRateLimiter (RateLimit cfg) (clock w))) as [rl w'].
    cbn. reflexivity.
  - unfold EnableCredentialEncryption. cbn [credentialManager].
    eexists. split; reflexivity.
Qed.

(** X19.  [New] honours the switches of the configuration.  A configuration
    made by [NewConfig] has everything off: the client sends over the
    bare default transport, with no limiter, no signer and no credential
    manager.  After [DisableRateLimit] on the configuration the client
    has no limiter; after [EnableRateLimit] it has a full limiter with
    the rate and burst of the configuration, or 10 per second and 20 when
    the configuration had no rate limit settings.  After
    [DisableRequestSigning] the client has no signer and after
    [DisableCredentialEncryption] no credential manager, whatever
    secret and password the configuration keeps. *)
Theorem New_honours_the_switches (cfg : Config) (w : World)
    (baseURL username password : string) :
  (let c := (New (Some (NewConfig baseURL username password)) w).1 in
   client_transport c = Some DefaultTransport /\ rateLimiter c = None
   /\ requestSigner c = None /\ credentialManager c = None
   /\ GetSecurityStatus c = mkSecurityStatus false false false)
  /\ rateLimiter (New (Some (Config_DisableRateLimit cfg)) w).1 = None
  /\ (let '(c, w') := New (Some (Config_EnableRateLimit cfg)) w in
      exists p,
        rateLimiter c = Some p
        /\ limiters w' !! p
           = Some (match RateLimit cfg with
                   | Some rl =>
                       mkRateLimiter (inject_Z (BurstSize rl)) (inject_Z (BurstSize rl))
                                     (RequestsPerSecond rl) (clock w)
                   | None => mkRateLimiter 20 20 (10 # 1) (clock w)
                   end))
  /\ requestSigner (New (Some (Config_DisableRequestSigning cfg)) w).1 = None
  /\ credentialManager (New (Some (Config_DisableCredentialEncryption cfg)) w).1 = None.
Proof.
  split; [|split; [|split; [|split]]].
  - repeat split; reflexivity.
  - unfold Config_DisableRateLimit, New.
    destruct (RateLimit cfg) as [rl|] eqn:E; cbn [RateLimit set_RateLimit].
    + cbn. reflexivity.
    + rewrite E. cbn. reflexivity.
  - unfold Config_EnableRateLimit, New.
    destruct (RateLimit cfg) as [rl|] eqn:E; cbn [RateLimit set_RateLimit];
      cbn [NewRateLimiter Enabled negb alloc_limiter BurstSize RequestsPerSecond];
      exists (fresh_ptr w); (split; [reflexivity|]); cbn; apply lookup_insert_eq.
  - unfold Config_DisableRequestSigning, New.
    destruct (Security cfg) as [sec|] eqn:E; cbn [Security set_Security];
      rewrite ?E; destruct (alloc_limiter _ _); reflexivity.
  - unfold Config_DisableCredentialEncryption, New.
    destruct (Security cfg) as [sec|] eqn:E; cbn [Security set_Security];
      rewrite ?E; destruct (alloc_limiter _ _); reflexivity.
Qed.
End Builders.

Lemma signing_configured_or_enabled_witness :
  EnableRequestSigning (New (H := example_Hashing) (Some DefaultConfig) example_world).1
    "s3cret"
  = Some (New (H := example_Hashing)
            (Some (Config_EnableRequestSigning DefaultConfig "s3cret")) example_world).1.
Proof.
  apply (proj1 (signing_configured_or_enabled (HH := example_Hashing) DefaultConfig
                  (mkHTTPClient None (30 * Second)) example_world "s3cret"
                  eq_refl eq_refl)).
  discriminate.
Defined.

Lemma encryption_configured_or_enabled_witness :
  EnableCredentialEncryption (H := example_Hashing)
    (New (H := example_Hashing) (Some DefaultConfig) example_world).1 "vault password"
  = (New (H := example_Hashing)
       (Some (Config_EnableCredentialEncryption DefaultConfig "vault password"))
       example_world).1.
Proof.
  apply (proj1 (encryption_configured_or_enabled (HH := example_Hashing) DefaultConfig
                  example_world "vault password")).
  discriminate.
Defined.

Lemma rate_limit_configured_or_set_witness :
  exists c2 w2,
    SetRateLimit (New (H := example_Hashing) (Some DefaultConfig) example_world).1
      (5 # 1) 10 (New (H := example_Hashing) (Some DefaultConfig) example_world).2
    = Some (c2, w2)
    /\ (c2, w2) = New (H := example_Hashing)
                    (Some (Config_SetRateLimit DefaultConfig (5 # 1) 10)) example_world.
Proof.
  destruct (rate_limit_configured_or_set (HH := example_Hashing) DefaultConfig
              (mkHTTPClient None (30 * Second)) example_world (5 # 1) 10
              eq_refl eq_refl)
    as (c2 & w2 & p1 & p2 & X & H1 & _ & _ & _ & _ & _ & _ & _ & _ & _ & H2).
  exists c2, w2. split; [exact H1|]. apply H2. reflexivity.
Defined.

(** ** The credential manager *)

Lemma fold_delete_lookup (keys : list string) (ms : MemoryCredentialStore) (k : string) :
  fold_left (fun (ms : MemoryCredentialStore) (key : string) => delete key ms) keys ms !! k
  = if bool_decide (k ∈ keys) then None else ms !! k.
Proof.
  unfold MemoryCredentialStore in *.
  revert ms. induction keys as [|key keys IH]; intros ms; cbn [fold_left].
  - reflexivity.
  - rewrite IH. destruct (decide (k = key)) as [->|Hne].
    + rewrite lookup_delete_eq.
      rewrite (bool_decide_eq_true_2 (key ∈ key :: keys)) by apply list_elem_of_here.
      destruct (bool_decide (key ∈ keys)); reflexivity.
    + rewrite lookup_delete_ne by congruence.
      destruct (bool_decide_reflect (k ∈ keys)) as [Hin|Hnin].
      * rewrite bool_decide_eq_true_2 by (apply list_elem_of_further; exact Hin).
        reflexivity.
      * rewrite bool_decide_eq_false_2; [reflexivity|].
        intros Hin. apply elem_of_cons in Hin as [?|?]; congruence.
Qed.

Lemma ClearCredentials_empty (cm : CredentialManager) :
  store (ClearCredentials cm) = ∅.
Proof.
  unfold ClearCredentials. cbn [store]. unfold MemoryCredentialStore in *.
  apply map_eq. intros k.
  rewrite fold_delete_lookup, lookup_empty.
  case_bool_decide as Hnin; [reflexivity|].
  destruct (store cm !! k) as [v|] eqn:E; [|reflexivity].
  exfalso. apply Hnin. apply list_elem_of_fmap. exists (k, v). split; [reflexivity|].
  apply elem_of_map_to_list. exact E.
Qed.

(** X20.  [DeleteCredentials] removes the entry of its key and no other:
    afterwards [CredentialsExist] is false for the key and
    [RetrieveCredentials] fails with the error of a missing key, while
    every other key is as before.  [ClearCredentials] leaves the store
    empty: no key exists and every retrieval fails. *)
Theorem deleted_credentials_are_gone `{AEAD} (cm : CredentialManager) (key : string) :
  CredentialsExist (DeleteCredentials cm key) key = false
  /\ RetrieveCredentials (DeleteCredentials cm key) key
     = Fail ("credentials not found for key: " +:+ key)
  /\ (forall k, k <> key ->
        CredentialsExist (DeleteCredentials cm key) k = CredentialsExist cm k
        /\ RetrieveCredentials (DeleteCredentials cm key) k = RetrieveCredentials cm k)
  /\ store (ClearCredentials cm) = ∅
  /\ (forall k,
        CredentialsExist (ClearCredentials cm) k = false
        /\ RetrieveCredentials (ClearCredentials cm) k
           = Fail ("credentials not found for key: " +:+ k)).
Proof.
  assert (Hex : forall cm0 k, CredentialsExist cm0 k
                              = bool_decide (is_Some (store cm0 !! k)))
    by reflexivity.
  assert (Hre : forall cm0 k, store cm0 !! k = None ->
                  RetrieveCredentials cm0 k
                  = Fail ("credentials not found for key: " +:+ k)).
  { intros cm0 k Hn. unfold RetrieveCredentials.
    cbn [Retrieve MemoryCredentialStore_store]. rewrite Hn. reflexivity. }
  assert (Hdel : forall k, store (DeleteCredentials cm key) !! k
                           = if decide (k = key) then None else store cm !! k).
  { intros k. unfold DeleteCredentials. cbn [store Delete MemoryCredentialStore_store].
    unfold MemoryCredentialStore in *. destruct (decide (k = key)) as [->|Hne].
    - apply lookup_delete_eq.
    - apply lookup_delete_ne. congruence. }
  split; [|split; [|split; [|split]]].
  - rewrite Hex, Hdel. destruct (decide (key = key)); [|congruence].
    apply bool_decide_eq_false_2. intros [x Hx]. discriminate.
  - apply Hre. rewrite Hdel. destruct (decide (key = key)); congruence.
  - intros k Hk. rewrite !Hex, Hdel. destruct (decide (k = key)); [congruence|].
    split; [reflexivity|]. unfold RetrieveCredentials.
    cbn [Retrieve MemoryCredentialStore_store encryption DeleteCredentials].
    rewrite Hdel. destruct (decide (k = key)); [congruence|]. reflexivity.
  - apply ClearCredentials_empty.
  - intros k.
    assert (Hn : store (ClearCredentials cm) !! k = None).
    { rewrite ClearCredentials_empty. apply lookup_empty. }
    split; [|apply Hre; exact Hn].
    rewrite Hex, Hn. apply bool_decide_eq_false_2. intros [x Hx]. discriminate.
Qed.

Section VaultManager.
Context `{HH : Hashing} `{HA : AEAD}.
Hypothesis sha256_size : forall m, String.length (sha256_Sum256 m) = 32%nat.
Hypothesis gcm_Open_Seal :
  forall key nonce plaintext,
    String.length nonce = gcm_NonceSize ->
    gcm_Open key nonce (gcm_Seal key nonce plaintext) = Some plaintext.

(** Decryption inverts encryption, the empty string included. *)
Lemma Decrypt_Encrypt (password s nonce : string) :
  String.length nonce = gcm_NonceSize ->
  exists ciphertext,
    Encrypt (NewCredentialEncryption password) (Some nonce) s = Val ciphertext
    /\ Decrypt (NewCredentialEncryption password) ciphertext = Val s.
Proof.
  intros Hn. destruct (String.eqb_spec s "") as [->|Hs].
  { exists "". split; reflexivity. }
  exists (base64_EncodeToString (nonce +:+ gcm_Seal (sha256_Sum256 password) nonce s)).
  unfold Encrypt, Decrypt. rewrite (NewCipher_key sha256_size).
  apply String.eqb_neq in Hs. rewrite Hs. split; [reflexivity|].
  assert (Hne : nonce +:+ gcm_Seal (sha256_Sum256 password) nonce s <> "").
  { destruct nonce; [discriminate Hn|discriminate]. }
  apply base64_Encode_nonempty in Hne. apply String.eqb_neq in Hne. rewrite Hne.
  rewrite base64_Decode_Encode.
  rewrite length_append, Hn.
  destruct (Nat.ltb_spec (gcm_NonceSize
              + String.length (gcm_Seal (sha256_Sum256 password) nonce s))
              gcm_NonceSize); [lia|].
  unfold slice_to, slice_from. rewrite <- Hn.
  rewrite substring_app_l.
  replace (String.length nonce
           + String.length (gcm_Seal (sha256_Sum256 password) nonce s)
           - String.length nonce)%nat
    with (String.length (nonce +:+ gcm_Seal (sha256_Sum256 password) nonce s)
          - String.length nonce)%nat
    by (rewrite length_append; lia).
  rewrite substring_app_r. rewrite gcm_Open_Seal by exact Hn. reflexivity.
Qed.

Lemma StoreCredentials_Retrieve (encryptionPassword : string)
    (store0 : option MemoryCredentialStore)
    (nonce1 nonce2 salt key username password : string) :
  String.length nonce1 = gcm_NonceSize ->
  String.length nonce2 = gcm_NonceSize ->
  key <> "" ->
  let cm := NewCredentialManager encryptionPassword store0 in
  exists cm',
    StoreCredentials cm (Some nonce1) (Some nonce2) (Some salt) key username password
    = Val cm'
    /\ CredentialsExist cm' key = true
    /\ RetrieveCredentials cm' key = Val (username, password)
    /\ forall k, k <> key ->
         CredentialsExist cm' k = CredentialsExist cm k
         /\ RetrieveCredentials cm' k = RetrieveCredentials cm k.
Proof.
  intros H1 H2 Hk cm.
  destruct (Decrypt_Encrypt encryptionPassword username nonce1 H1) as (cu & Eu & Du).
  destruct (Decrypt_Encrypt encryptionPassword password nonce2 H2) as (cp & Ep & Dp).
  unfold StoreCredentials, cm. cbn [encryption store NewCredentialManager].
  rewrite Eu, Ep. cbn [Store MemoryCredentialStore_store].
  apply String.eqb_neq in Hk. rewrite Hk.
  eexists. split; [reflexivity|].
  unfold CredentialsExist, RetrieveCredentials.
  cbn [Exists Retrieve MemoryCredentialStore_store store encryption].
  unfold MemoryCredentialStore in *.
  rewrite lookup_insert_eq. cbn [EncryptedUsername EncryptedPassword].
  rewrite Du, Dp. split; [apply bool_decide_eq_true_2; eauto|].
  split; [reflexivity|].
  intros k Hne. rewrite lookup_insert_ne by congruence. split; reflexivity.
Qed.

(** X21.  What [StoreCredentials] stored under a key, [RetrieveCredentials]
    gives back: for a manager created from any password, a key that is
    not empty, any user name and password (empty ones included) and a
    random source that delivers the two nonces and the salt, the call
    succeeds, the key exists afterwards and retrieves to the two strings,
    whatever was stored under it before, and the other keys retrieve to
    what they did.  With the empty key nothing is stored. *)
Theorem stored_credentials_are_retrieved (encryptionPassword : string)
    (store0 : option MemoryCredentialStore)
    (nonce1 nonce2 salt key username password : string) :
  String.length nonce1 = gcm_NonceSize ->
  String.length nonce2 = gcm_NonceSize ->
  let cm := NewCredentialManager encryptionPassword store0 in
  (key <> "" ->
   exists cm',
     StoreCredentials cm (Some nonce1) (Some nonce2) (Some salt) key username password
     = Val cm'
     /\ CredentialsExist cm' key = true
     /\ RetrieveCredentials cm' key = Val (username, password)
     /\ forall k, k <> key ->
          CredentialsExist cm' k = CredentialsExist cm k
          /\ RetrieveCredentials cm' k = RetrieveCredentials cm k)
  /\ StoreCredentials cm (Some nonce1) (Some nonce2) (Some salt) "" username password
     = Fail "key cannot be empty".
Proof.
  intros H1 H2 cm. split.
  - intros Hk. apply StoreCredentials_Retrieve; assumption.
  - destruct (Decrypt_Encrypt encryptionPassword username nonce1 H1) as (cu & Eu & _).
    destruct (Decrypt_Encrypt encryptionPassword password nonce2 H2) as (cp & Ep & _).
    unfold StoreCredentials, cm. cbn [encryption store NewCredentialManager].
    rewrite Eu, Ep. reflexivity.
Qed.

(** X22.  On the client.  Without a credential manager both calls fail with
    "credential encryption not enabled".  Once
    [EnableCredentialEncryption] has been called, credentials stored
    through the client are retrieved through it.  The call installs a new
    manager: on a client whose configuration names no credential store,
    that manager starts with an empty store, so that nothing stored
    before the call can be retrieved after it. *)
Theorem client_credentials (c : Client) (encryptionPassword : string)
    (nonce1 nonce2 salt key username password : string) :
  (forall sec, Security (config c) = Some sec -> CredentialStore_ sec = None) ->
  key <> "" ->
  String.length nonce1 = gcm_NonceSize ->
  String.length nonce2 = gcm_NonceSize ->
  let c1 := EnableCredentialEncryption c encryptionPassword in
  (credentialManager c = None ->
   StoreSecureCredentials c (Some nonce1) (Some nonce2) (Some salt) key username password
   = Fail "credential encryption not enabled"
   /\ RetrieveSecureCredentials c key = Fail "credential encryption not enabled")
  /\ (forall k, RetrieveSecureCredentials c1 k
                = Fail ("credentials not found for key: " +:+ k))
  /\ credentialEncryption (GetSecurityStatus c1) = true
  /\ client_transport c1 = client_transport c
  /\ exists c2,
       StoreSecureCredentials c1 (Some nonce1) (Some nonce2) (Some salt)
         key username password = Val c2
       /\ RetrieveSecureCredentials c2 key = Val (username, password)
       /\ forall k, RetrieveSecureCredentials (EnableCredentialEncryption c2 encryptionPassword) k
                    = Fail ("credentials not found for key: " +:+ k).
Proof.
  intros Hstore Hk H1 H2 c1.
  assert (Hnil : match Security (config c) with
                 | Some sec => CredentialStore_ sec
                 | None => CredentialStore_ zeroSecurityConfig
                 end = None).
  { destruct (Security (config c)) as [sec|] eqn:E; [apply (Hstore sec eq_refl)|reflexivity]. }
  assert (Hcm : credentialManager c1
                = Some (NewCredentialManager encryptionPassword None)).
  { subst c1. unfold EnableCredentialEncryption. cbn [credentialManager CredentialStore_].
    destruct (Security (config c)); rewrite Hnil; reflexivity. }
  split; [|split; [|split; [|split]]].
  - intros Hnone. unfold StoreSecureCredentials, RetrieveSecureCredentials.
    rewrite Hnone. split; reflexivity.
  - intros k. unfold RetrieveSecureCredentials. rewrite Hcm. reflexivity.
  - subst c1. unfold GetSecurityStatus, EnableCredentialEncryption. cbn.
    destruct (RateLimit (config c)); reflexivity.
  - reflexivity.
  - destruct (StoreCredentials_Retrieve encryptionPassword None
                nonce1 nonce2 salt key username password H1 H2 Hk)
      as (cm' & Es & _ & Er & _).
    unfold StoreSecureCredentials. rewrite Hcm, Es.
    eexists. split; [reflexivity|].
    split; [unfold RetrieveSecureCredentials; cbn; exact Er|].
    intros k. unfold RetrieveSecureCredentials, EnableCredentialEncryption.
    cbn [credentialManager set_credentialManager config CredentialStore_].
    subst c1. unfold EnableCredentialEncryption. cbn [config set_Security Security CredentialStore_].
    destruct (Security (config c)); rewrite Hnil; reflexivity.
Qed.
End VaultManager.

Lemma stored_credentials_are_retrieved_witness :
  exists cm',
    StoreCredentials (H := example_AEAD)
      (NewCredentialManager (H := example_Hashing) "vault password" None)
      (Some "nonce-12-byt") (Some "nonce-12-by2") (Some "salt") "prod" "alice" "hunter2"
    = Val cm'
    /\ RetrieveCredentials (H := example_AEAD) cm' "prod" = Val ("alice", "hunter2").
Proof.
  destruct (proj1 (stored_credentials_are_retrieved (HH := example_Hashing)
                     (HA := example_AEAD)
                     (fun m => fixed_width_length 32 m)
                     (fun k nonce plaintext _ => eq_refl)
                     "vault password" None "nonce-12-byt" "nonce-12-by2" "salt"
                     "prod" "alice" "hunter2" eq_refl eq_refl)
              ltac:(discriminate))
    as (cm' & H1 & _ & H2 & _).
  exists cm'. split; assumption.
Defined.

Lemma client_credentials_witness :
  let c1 := EnableCredentialEncryption (H := example_Hashing)
              (New (H := example_Hashing) None example_world).1 "vault password" in
  exists c2,
    StoreSecureCredentials (H := example_AEAD) c1
      (Some "nonce-12-byt") (Some "nonce-12-by2") (Some "salt") "prod" "alice" "hunter2"
    = Val c2
    /\ RetrieveSecureCredentials (H := example_AEAD) c2 "prod" = Val ("alice", "hunter2").
Proof.
  intros c1.
  destruct (client_credentials (HH := example_Hashing) (HA := example_AEAD)
              (fun m => fixed_width_length 32 m)
              (fun k nonce plaintext _ => eq_refl)
              (New (H := example_Hashing) None example_world).1 "vault password"
              "nonce-12-byt" "nonce-12-by2" "salt" "prod" "alice" "hunter2"
              ltac:(intros sec [= <-]; reflexivity) ltac:(discriminate)
              eq_refl eq_refl)
    as (_ & _ & _ & _ & c2 & H1 & H2 & _).
  exists c2. split; assumption.
Defined.

(** ** The life of a cached token *)

(** X23.  After a login that delivered the token [tok], the manager holds
    [tok] with the expiry of its [exp] claim, or of 23 hours after the
    login when the token has no readable claim.  [GetToken] then returns
    [tok] from the cache, with no login, as long as the expiry is more
    than five minutes ahead; from five minutes before the expiry on, and
    at any time when [tok] is the empty string, it logs in again.  After
    [ClearToken] the next call logs in. *)
Theorem token_lifetime `{JWT} (a a' : AuthManager) (ex : LoginExchange)
    (now : Time) (tok : string) :
  login a ex now = (Val tok, a') ->
  let expiry := match jwt_exp tok with
                | Some e => time_Unix e
                | None => Time_Add now (23 * Hour)
                end in
  token a' = tok /\ expiresAt a' = expiry
  /\ (forall env,
        tok <> "" -> t_check env + 5 * Minute < expiry ->
        GetToken a' env = (Val tok, a'))
  /\ (forall env,
        tok = "" \/ (expiry <= t_check env + 5 * Minute
                     /\ expiry <= t_recheck env + 5 * Minute) ->
        GetToken a' env = login a' (exchange env) (t_login env))
  /\ (forall env,
        GetToken (ClearToken a') env
        = login (ClearToken a') (exchange env) (t_login env)).
Proof.
  intros Hl expiry. apply login_val in Hl as (resp & fields & _ & _ & _ & _ & ->).
  fold expiry. cbn [token expiresAt].
  split; [reflexivity|]. split; [reflexivity|].
  unfold GetToken, refreshToken, isTokenValid, Time_Before, Time_Add.
  cbn [token expiresAt]. split; [|split].
  - intros env Hne Hlt. apply String.eqb_neq in Hne. rewrite Hne.
    destruct (Z.ltb_spec (t_check env + 5 * Minute) expiry); [reflexivity|].
    unfold Time_Add in *. lia.
  - intros env [->|[H1 H2]]; [reflexivity|].
    destruct (String.eqb tok ""); [reflexivity|].
    destruct (Z.ltb_spec (t_check env + 5 * Minute) expiry); [lia|].
    destruct (Z.ltb_spec (t_recheck env + 5 * Minute) expiry); [lia|]. reflexivity.
  - intros env. reflexivity.
Qed.

(** A token that expires a day after the login is returned from the
    cache an hour later. *)
Lemma token_lifetime_witness :
  GetToken (H := example_JWT)
    (mkAuthManager "hdr.1700086400.sig" (time_Unix 1700086400))
    (example_env (failing_exchanges 0) (1700003600 * Second))
  = (Val "hdr.1700086400.sig",
     mkAuthManager "hdr.1700086400.sig" (time_Unix 1700086400)).
Proof.
  refine (proj1 (proj2 (proj2 (token_lifetime (H := example_JWT) NewAuthManager
                                 (mkAuthManager "hdr.1700086400.sig" (time_Unix 1700086400))
                                 (good_exchanges 0) (1700000000 * Second)
                                 "hdr.1700086400.sig" eq_refl)))
            (example_env (failing_exchanges 0) (1700003600 * Second)) _ _).
  - discriminate.
  - vm_compute. reflexivity.
Defined.

(** ** Concurrent callers: a valid token, and logins that fail *)

Section ConcurrentMore.
Context `{J : JWT}.
Variable exchanges : nat -> LoginExchange.

Lemma thread_step_other (i j : nat) (s : Sys) :
  i <> j -> pcs (thread_step exchanges i s) !! j = pcs s !! j.
Proof.
  intros Hne. unfold thread_step. destruct (pcs s !! i) as [[| | |ex|r|r]|];
    repeat match goal with
           | |- context [if ?c then _ else _] => destruct c
           | |- context [match ?x with _ => _ end] => destruct x
           end;
    cbn; rewrite ?list_lookup_insert_ne by exact Hne; reflexivity.
Qed.

Lemma thread_step_done (i j : nat) (s : Sys) (r : Res string) :
  pcs s !! j = Some (pcDone r) ->
  pcs (thread_step exchanges i s) !! j = Some (pcDone r).
Proof.
  intros Hj. destruct (decide (i = j)) as [->|Hne].
  - unfold thread_step. rewrite Hj. exact Hj.
  - rewrite thread_step_other by exact Hne. exact Hj.
Qed.

Lemma run_sched_done (sched : list Action) (j : nat) (s : Sys) (r : Res string) :
  pcs s !! j = Some (pcDone r) ->
  pcs (run_sched exchanges s sched) !! j = Some (pcDone r).
Proof.
  revert s. induction sched as [|act sched IH]; intros s Hj; [exact Hj|].
  change (run_sched exchanges s (act :: sched))
    with (run_sched exchanges (exec exchanges s act) sched).
  apply IH. destruct act as [i|d]; [apply thread_step_done; exact Hj|exact Hj].
Qed.

Lemma run_sched_length (sched : list Action) (s : Sys) :
  List.length (pcs (run_sched exchanges s sched)) = List.length (pcs s).
Proof.
  revert s. induction sched as [|act sched IH]; intros s; [reflexivity|].
  change (run_sched exchanges s (act :: sched))
    with (run_sched exchanges (exec exchanges s act) sched).
  rewrite IH. destruct act as [i|d]; [|reflexivity].
  apply (thread_step_frame exchanges i s).
Qed.

Variable a : AuthManager.

Lemma thread_step_cached (i : nat) (s : Sys) :
  isTokenValid a (sys_clock s) = true -> cached_inv a s ->
  cached_inv a (thread_step exchanges i s)
  /\ ((i < List.length (pcs s))%nat ->
      pcs (thread_step exchanges i s) !! i = Some (pcDone (Val (token a)))).
Proof.
  intros Hv (Ham & Hlog & Hatt & Hmx & Hall). unfold thread_step.
  destruct (pcs s !! i) as [pc|] eqn:Hi.
  2:{ split; [repeat split; assumption|].
      intros Hlt. apply lookup_ge_None in Hi. lia. }
  destruct (Forall_lookup_1 _ _ _ _ Hall Hi) as [->| ->].
  - rewrite Ham, Hv. split.
    + repeat split; try assumption. cbn. apply Forall_insert; [exact Hall|]. auto.
    + intros Hlt. cbn. apply list_lookup_insert_eq. exact Hlt.
  - split; [repeat split; assumption|]. intros _. exact Hi.
Qed.

Lemma run_sched_cached (sched : list Action) (s : Sys) :
  isTokenValid a (sys_clock (run_sched exchanges s sched)) = true ->
  cached_inv a s ->
  cached_inv a (run_sched exchanges s sched)
  /\ forall i, (i < List.length (pcs s))%nat -> In (Run i) sched ->
       pcs (run_sched exchanges s sched) !! i = Some (pcDone (Val (token a))).
Proof.
  revert s. induction sched as [|act sched IH]; intros s Hv Hs.
  - split; [exact Hs|]. intros i _ [].
  - change (run_sched exchanges s (act :: sched))
      with (run_sched exchanges (exec exchanges s act) sched) in *.
    assert (Hnow : isTokenValid a (sys_clock (exec exchanges s act)) = true).
    { eapply isTokenValid_earlier; [exact Hv|]. apply run_sched_clock_mono. }
    assert (Hs' : cached_inv a (exec exchanges s act)
                  /\ forall i, act = Run i -> (i < List.length (pcs s))%nat ->
                       pcs (exec exchanges s act) !! i = Some (pcDone (Val (token a)))).
    { destruct act as [i|d]; cbn [exec] in *.
      - assert (Hv0 : isTokenValid a (sys_clock s) = true).
        { rewrite <- (proj1 (thread_step_frame exchanges i s)). exact Hnow. }
        destruct (thread_step_cached i s Hv0 Hs) as [H1 H2].
        split; [exact H1|]. intros i' [= <-]. exact H2.
      - split; [|discriminate]. destruct Hs as (? & ? & ? & ? & ?).
        repeat split; assumption. }
    destruct Hs' as [Hs' Hdone]. destruct (IH _ Hv Hs') as [Hinv Hall].
    split; [exact Hinv|]. intros i Hlt [->|Hin].
    + apply run_sched_done. apply Hdone; [reflexivity|exact Hlt].
    + apply Hall; [|exact Hin].
      destruct act as [k|d]; [|exact Hlt]. cbn [exec].
      rewrite (proj2 (thread_step_frame exchanges k s)). exact Hlt.
Qed.

(** X24.  While the cached token is valid, concurrent callers never log in:
    whatever the number of callers and the schedule, if the token is
    still valid at the end, no login was begun, nobody took the refresh
    mutex, the cache is untouched, and every caller that ran at all has
    returned the cached token. *)
Theorem valid_token_is_served_to_all (t0 : Time) (n : nat) (sched : list Action) :
  let s := run_sched exchanges (init_sys a t0 n) sched in
  isTokenValid a (sys_clock s) = true ->
  logins s = 0%nat /\ attempts s = 0%nat /\ sys_am s = a /\ refreshMutex s = None
  /\ (forall i pc, pcs s !! i = Some pc ->
        pc = pcCheck \/ pc = pcDone (Val (token a)))
  /\ (forall i, (i < n)%nat -> In (Run i) sched ->
        pcs s !! i = Some (pcDone (Val (token a)))).
Proof.
  intros s Hv.
  assert (H0 : cached_inv a (init_sys a t0 n)).
  { repeat split. cbn. apply Forall_replicate. auto. }
  destruct (run_sched_cached sched _ Hv H0) as [(Ham & Hlog & Hatt & Hmx & Hall) Hdone].
  fold s in Ham, Hlog, Hatt, Hmx, Hall, Hdone.
  repeat split; try assumption.
  - intros i pc Hi. exact (Forall_lookup_1 _ _ _ _ Hall Hi).
  - intros i Hlt Hin. apply Hdone; [|exact Hin]. cbn. rewrite length_replicate. exact Hlt.
Qed.

Variable t0 : Time.
Hypothesis expired : isTokenValid a t0 = false.
Hypothesis failing :
  forall k b t, exists err, login b (exchanges k) t = (Fail err, b).

Lemma filter_begun_insert (l : list PC) (i : nat) (pc pc' : PC) :
  l !! i = Some pc ->
  List.length (List.filter begun (<[i := pc']> l))
  = (List.length (List.filter begun l)
     + (if begun pc' then 1 else 0) - (if begun pc then 1 else 0))%nat.
Proof.
  revert i. induction l as [|x l IH]; intros i Hi; [discriminate|].
  destruct i as [|i]; cbn in Hi.
  - injection Hi as ->. cbn [List.filter]. cbn.
    destruct (begun pc'), (begun pc); cbn [List.length]; lia.
  - change (<[S i := pc']> (x :: l)) with (x :: <[i := pc']> l).
    cbn [List.filter]. specialize (IH i Hi).
    assert (Hpos : begun pc = true -> (0 < List.length (List.filter begun l))%nat).
    { intros Hb. clear IH. revert i Hi. induction l as [|y l IHl]; intros i Hi; [discriminate|].
      destruct i as [|i]; cbn in Hi.
      - injection Hi as ->. cbn. rewrite Hb. cbn. lia.
      - cbn. destruct (begun y); cbn; [lia|]. eapply IHl; eauto. }
    destruct (begun x); cbn [List.length]; rewrite IH;
      destruct (begun pc'), (begun pc); try lia; specialize (Hpos eq_refl); lia.
Qed.

Lemma thread_step_failing (i : nat) (s : Sys) :
  failing_inv a t0 s -> failing_inv a t0 (thread_step exchanges i s).
Proof.
  intros (Ham & Ht & Hatt & Hall).
  assert (Hinv : isTokenValid (sys_am s) (sys_clock s) = false).
  { rewrite Ham. eapply isTokenValid_stays_false; eauto. }
  unfold thread_step. destruct (pcs s !! i) as [pc|] eqn:Hi.
  2:{ repeat split; assumption. }
  pose proof (Forall_lookup_1 _ _ _ _ Hall Hi) as Hpc.
  destruct pc as [| | |ex|r|r].
  - rewrite Hinv. repeat split; cbn; try assumption.
    + rewrite (filter_begun_insert _ _ _ _ Hi). cbn. lia.
    + apply Forall_insert; [exact Hall|exact I].
  - destruct (refreshMutex s); [repeat split; assumption|].
    repeat split; cbn; try assumption.
    + rewrite (filter_begun_insert _ _ _ _ Hi). cbn. lia.
    + apply Forall_insert; [exact Hall|exact I].
  - rewrite Hinv.
    destruct (failing (attempts s) (sys_am s) (sys_clock s)) as [err Hl].
    destruct (exchanges (attempts s)) as [e|e|resp] eqn:Eex.
    + repeat split; cbn; try assumption.
      * rewrite (filter_begun_insert _ _ _ _ Hi). cbn. lia.
      * apply Forall_insert; [exact Hall|]. cbn. eauto.
    + repeat split; cbn; try assumption.
      * rewrite (filter_begun_insert _ _ _ _ Hi). cbn. lia.
      * apply Forall_insert; [exact Hall|]. unfold result_failed.
        rewrite <- Eex. apply failing.
    + repeat split; cbn; try assumption.
      * rewrite (filter_begun_insert _ _ _ _ Hi). cbn. lia.
      * apply Forall_insert; [exact Hall|]. unfold result_failed.
        rewrite <- Eex. apply failing.
  - destruct (Hpc (sys_am s) (sys_clock s)) as [err Hl]. rewrite Hl.
    repeat split; cbn; try assumption.
    + rewrite (filter_begun_insert _ _ _ _ Hi). cbn. lia.
    + apply Forall_insert; [exact Hall|]. cbn. eauto.
  - repeat split; cbn; try assumption.
    + rewrite (filter_begun_insert _ _ _ _ Hi). cbn. lia.
    + apply Forall_insert; [exact Hall|exact Hpc].
  - repeat split; assumption.
Qed.

Lemma exec_failing (act : Action) (s : Sys) :
  failing_inv a t0 s -> failing_inv a t0 (exec exchanges s act).
Proof.
  destruct act as [i|d]; [apply thread_step_failing|].
  intros (Ham & Ht & Hatt & Hall). repeat split; cbn; try assumption. lia.
Qed.

Lemma run_sched_failing (sched : list Action) (s : Sys) :
  failing_inv a t0 s -> failing_inv a t0 (run_sched exchanges s sched).
Proof.
  revert s. induction sched as [|act sched IH]; intros s Hs; [exact Hs|].
  change (run_sched exchanges s (act :: sched))
    with (run_sched exchanges (exec exchanges s act) sched).
  apply IH. apply exec_failing. exact Hs.
Qed.

Lemma thread_step_logins (i : nat) (s : Sys) :
  (forall k e, exchanges k <> LoginNoRequest e) ->
  logins s = attempts s ->
  logins (thread_step exchanges i s) = attempts (thread_step exchanges i s).
Proof.
  intros Hno Heq. unfold thread_step.
  destruct (pcs s !! i) as [[| | |ex|r|r]|]; try exact Heq.
  - destruct (isTokenValid (sys_am s) (sys_clock s)); exact Heq.
  - destruct (refreshMutex s); exact Heq.
  - destruct (isTokenValid (sys_am s) (sys_clock s)); [exact Heq|].
    destruct (exchanges (attempts s)) as [e|e|resp] eqn:E; cbn; try congruence.
    exfalso. exact (Hno _ _ E).
  - destruct (login (sys_am s) ex (sys_clock s)). exact Heq.
Qed.

Lemma run_sched_logins (sched : list Action) (s : Sys) :
  (forall k e, exchanges k <> LoginNoRequest e) ->
  logins s = attempts s ->
  logins (run_sched exchanges s sched) = attempts (run_sched exchanges s sched).
Proof.
  intros Hno. revert s. induction sched as [|act sched IH]; intros s Hs; [exact Hs|].
  change (run_sched exchanges s (act :: sched))
    with (run_sched exchanges (exec exchanges s act) sched).
  apply IH. destruct act as [i|d]; [apply thread_step_logins; assumption|exact Hs].
Qed.

Lemma filter_all (l : list PC) :
  Forall (fun pc => is_done pc = true) l ->
  List.length (List.filter begun l) = List.length l.
Proof.
  induction 1 as [|pc l Hpc _ IH]; [reflexivity|].
  cbn. destruct pc; try discriminate Hpc. cbn. rewrite IH. reflexivity.
Qed.

End ConcurrentMore.

(** Three callers and a token that is valid for another hour. *)
Lemma valid_token_is_served_to_all_witness :
  logins (run_sched (H := example_JWT) failing_exchanges
            (init_sys (mkAuthManager "tok" (1700003600 * Second)) (1700000000 * Second) 3)
            [Run 0; Tick Second; Run 2; Run 1]%nat) = 0%nat.
Proof.
  refine (proj1 (valid_token_is_served_to_all (J := example_JWT) failing_exchanges
                   (mkAuthManager "tok" (1700003600 * Second))
                   (1700000000 * Second) 3 [Run 0; Tick Second; Run 2; Run 1]%nat _)).
  vm_compute. reflexivity.
Defined.


(** ** Concurrent callers: every call can return *)

Section Progress.
Context `{J : JWT}.
Variable exchanges : nat -> LoginExchange.

Lemma thread_step_owner_inv (i : nat) (s : Sys) :
  mutex_owner_inv s -> mutex_owner_inv (thread_step exchanges i s).
Proof.
  intros Hown. unfold thread_step.
  destruct (pcs s !! i) as [pc|] eqn:Hi; [|exact Hown].
  assert (Hkeep : forall pc' s',
            (holds_refresh pc = true -> holds_refresh pc' = true) ->
            refreshMutex s' = refreshMutex s -> pcs s' = <[i := pc']> (pcs s) ->
            mutex_owner_inv s').
  { intros pc' s' Hh Hm Hp j Hj. rewrite Hm in Hj. rewrite Hp.
    destruct (Hown j Hj) as (pcj & Hpj & Hhj).
    destruct (decide (i = j)) as [<-|Hne].
    - exists pc'. split.
      + apply list_lookup_insert_eq. eapply lookup_lt_Some; eauto.
      + apply Hh. congruence.
    - exists pcj. split; [|exact Hhj]. rewrite list_lookup_insert_ne by exact Hne.
      exact Hpj. }
  destruct pc as [| | |ex|r|r].
  - destruct (isTokenValid (sys_am s) (sys_clock s));
      eapply Hkeep; try reflexivity; discriminate.
  - destruct (refreshMutex s) eqn:Em; [exact Hown|].
    intros j Hj. cbn in Hj. injection Hj as <-. exists pcRecheck. split; [|reflexivity].
    cbn. apply list_lookup_insert_eq. eapply lookup_lt_Some; eauto.
  - destruct (isTokenValid (sys_am s) (sys_clock s));
      [eapply Hkeep; try reflexivity; auto|].
    destruct (exchanges (attempts s)); eapply Hkeep; try reflexivity; auto.
  - destruct (login (sys_am s) ex (sys_clock s)) as [r a'].
    eapply Hkeep; try reflexivity; auto.
  - intros j Hj. discriminate Hj.
  - exact Hown.
Qed.

Lemma run_sched_owner_inv (sched : list Action) (s : Sys) :
  mutex_owner_inv s -> mutex_owner_inv (run_sched exchanges s sched).
Proof.
  revert s. induction sched as [|act sched IH]; intros s Hs; [exact Hs|].
  change (run_sched exchanges s (act :: sched))
    with (run_sched exchanges (exec exchanges s act) sched).
  apply IH. destruct act as [i|d]; [apply thread_step_owner_inv; exact Hs|exact Hs].
Qed.

(** A goroutine that is not kept waiting by another one gets closer to
    its return with every step. *)
Lemma thread_step_progress (i : nat) (s : Sys) (pc : PC) :
  mutex_owner_inv s ->
  refreshMutex s = None \/ refreshMutex s = Some i ->
  pcs s !! i = Some pc ->
  exists pc',
    pcs (thread_step exchanges i s) !! i = Some pc'
    /\ (rank pc' <= Nat.pred (rank pc))%nat
    /\ (refreshMutex (thread_step exchanges i s) = None
        \/ refreshMutex (thread_step exchanges i s) = Some i).
Proof.
  intros Hown Hmx Hi. pose proof (lookup_lt_Some _ _ _ Hi) as Hlt.
  unfold thread_step. rewrite Hi.
  destruct pc as [| | |ex|r|r].
  - destruct (isTokenValid (sys_am s) (sys_clock s)); eexists;
      (split; [cbn; apply list_lookup_insert_eq; exact Hlt|]);
      (split; [cbn; lia|exact Hmx]).
  - destruct (refreshMutex s) as [j|] eqn:Em.
    + exfalso. destruct Hmx as [Hmx|Hmx]; [discriminate|]. injection Hmx as ->.
      destruct (Hown i Em) as (pc & Hp & Hh). rewrite Hi in Hp. injection Hp as <-.
      discriminate.
    + eexists. split; [cbn; apply list_lookup_insert_eq; exact Hlt|].
      split; [cbn; lia|right; reflexivity].
  - destruct (isTokenValid (sys_am s) (sys_clock s)).
    + eexists. split; [cbn; apply list_lookup_insert_eq; exact Hlt|].
      split; [cbn; lia|exact Hmx].
    + destruct (exchanges (attempts s)); eexists;
        (split; [cbn; apply list_lookup_insert_eq; exact Hlt|]);
        (split; [cbn; lia|exact Hmx]).
  - destruct (login (sys_am s) ex (sys_clock s)) as [r a'].
    eexists. split; [cbn; apply list_lookup_insert_eq; exact Hlt|].
    split; [cbn; lia|exact Hmx].
  - eexists. split; [cbn; apply list_lookup_insert_eq; exact Hlt|].
    split; [cbn; lia|left; reflexivity].
  - exists (pcDone r). split; [exact Hi|]. split; [cbn; lia|exact Hmx].
Qed.

Lemma run_steps (k : nat) (i : nat) (s : Sys) :
  run_sched exchanges s (replicate (S k) (Run i))
  = run_sched exchanges (thread_step exchanges i s) (replicate k (Run i)).
Proof. reflexivity. Qed.

Lemma finish_thread (k : nat) :
  forall (i : nat) (s : Sys) (pc : PC),
    mutex_owner_inv s ->
    refreshMutex s = None \/ refreshMutex s = Some i ->
    pcs s !! i = Some pc -> (rank pc <= k)%nat ->
    let s' := run_sched exchanges s (replicate k (Run i)) in
    (exists r, pcs s' !! i = Some (pcDone r))
    /\ refreshMutex s' = None
    /\ (forall j, j <> i -> pcs s' !! j = pcs s !! j).
Proof.
  induction k as [|k IH]; intros i s pc Hown Hmx Hi Hr s'.
  - subst s'. cbn. destruct pc; cbn in Hr; try lia.
    split; [eauto|]. split; [|reflexivity].
    destruct Hmx as [Hmx|Hmx]; [exact Hmx|].
    destruct (Hown i Hmx) as (pc & Hp & Hh). rewrite Hi in Hp. injection Hp as <-.
    discriminate.
  - subst s'. rewrite run_steps.
    destruct (thread_step_progress i s pc Hown Hmx Hi) as (pc' & Hi' & Hrk & Hmx').
    destruct (IH i (thread_step exchanges i s) pc'
                (thread_step_owner_inv i s Hown) Hmx' Hi' ltac:(lia))
      as (Hd & Hnone & Hoth).
    split; [exact Hd|]. split; [exact Hnone|].
    intros j Hj. rewrite (Hoth j Hj). apply thread_step_other. congruence.
Qed.

Lemma run_sched_app (l1 l2 : list Action) (s : Sys) :
  run_sched exchanges s (l1 ++ l2)
  = run_sched exchanges (run_sched exchanges s l1) l2.
Proof. unfold run_sched. apply fold_left_app. Qed.

Lemma finish_one (i : nat) (s : Sys) :
  mutex_owner_inv s ->
  refreshMutex s = None \/ refreshMutex s = Some i ->
  (i < List.length (pcs s))%nat ->
  (exists r, pcs (run_sched exchanges s (finish i)) !! i = Some (pcDone r))
  /\ refreshMutex (run_sched exchanges s (finish i)) = None.
Proof.
  intros Hown Hmx Hlt.
  destruct (lookup_lt_is_Some_2 (pcs s) i Hlt) as [pc Hi].
  assert (Hrk : (rank pc <= 5)%nat) by (destruct pc; cbn; lia).
  destruct (finish_thread 5 i s pc Hown Hmx Hi Hrk) as (Hd & Hnone & _).
  split; [exact Hd|exact Hnone].
Qed.

Lemma finish_all (l : list nat) :
  forall s,
    mutex_owner_inv s -> refreshMutex s = None ->
    (forall i, In i l -> (i < List.length (pcs s))%nat) ->
    refreshMutex (run_sched exchanges s (flat_map finish l)) = None
    /\ (forall i, In i l ->
          exists r, pcs (run_sched exchanges s (flat_map finish l)) !! i
                    = Some (pcDone r)).
Proof.
  induction l as [|i l IH]; intros s Hown Hmx Hlt.
  - split; [exact Hmx|intros i []].
  - change (flat_map finish (i :: l)) with (finish i ++ flat_map finish l).
    rewrite run_sched_app.
    destruct (finish_one i s Hown (or_introl Hmx) (Hlt i (or_introl eq_refl)))
      as ((r & Hd) & Hnone).
    assert (Hown1 : mutex_owner_inv (run_sched exchanges s (finish i)))
      by (apply run_sched_owner_inv; exact Hown).
    assert (Hlen1 : List.length (pcs (run_sched exchanges s (finish i)))
                    = List.length (pcs s)) by apply run_sched_length.
    generalize dependent (run_sched exchanges s (finish i)). intros s1 Hd Hnone Hown1 Hlen1.
    destruct (IH s1 Hown1 Hnone
                ltac:(intros j Hj; rewrite Hlen1; apply Hlt; right; exact Hj))
      as (Hmx2 & Hdone2).
    split; [exact Hmx2|].
    intros j [<-|Hj]; [exists r; apply run_sched_done; exact Hd|apply Hdone2; exact Hj].
Qed.

Lemma init_owner_inv (a : AuthManager) (t0 : Time) (n : nat) :
  mutex_owner_inv (init_sys a t0 n).
Proof. intros i Hi. discriminate Hi. Qed.

(** X26.  No deadlock.  Whatever has happened so far, the callers can all
    return: from any state the system reaches, letting the holder of the
    refresh mutex, if there is one, and then each caller in turn run for
    five steps brings every call to its return, with the mutex free.  In
    particular a caller that returns with an error has released the
    mutex. *)
Theorem every_call_can_return (a : AuthManager) (t0 : Time) (n : nat)
    (sched : list Action) :
  let s := run_sched exchanges (init_sys a t0 n) sched in
  let s' := run_sched exchanges s (completion s) in
  all_returned s'
  /\ refreshMutex s' = None
  /\ List.length (pcs s') = n
  /\ (forall j r, pcs s !! j = Some (pcDone r) -> pcs s' !! j = Some (pcDone r)).
Proof.
  intros s s'.
  assert (Hown : mutex_owner_inv s).
  { apply run_sched_owner_inv. apply init_owner_inv. }
  assert (Hlen : List.length (pcs s) = n).
  { unfold s. rewrite run_sched_length. cbn. apply length_replicate. }
  assert (Hlen' : List.length (pcs s') = n).
  { unfold s'. rewrite run_sched_length. exact Hlen. }
  assert (Hkeep : forall j r, pcs s !! j = Some (pcDone r) ->
                              pcs s' !! j = Some (pcDone r)).
  { intros j r. apply run_sched_done. }
  clearbody s. subst s'. unfold completion in *.
  rewrite run_sched_app in *.
  set (first := match refreshMutex s with Some j => finish j | None => [] end) in *.
  assert (H1 : refreshMutex (run_sched exchanges s first) = None).
  { subst first. destruct (refreshMutex s) as [j|] eqn:Em; [|exact Em].
    destruct (Hown j Em) as (pc & Hp & _).
    apply finish_one; [exact Hown|right; exact Em|eapply lookup_lt_Some; eauto]. }
  assert (Hown1 : mutex_owner_inv (run_sched exchanges s first))
    by (apply run_sched_owner_inv; exact Hown).
  assert (Hlen1 : List.length (pcs (run_sched exchanges s first)) = List.length (pcs s))
    by apply run_sched_length.
  generalize dependent (run_sched exchanges s first). intros s1 Hlen' Hkeep H1 Hown1 Hlen1.
  destruct (finish_all (seq 0 (List.length (pcs s))) s1 Hown1 H1
              ltac:(intros i Hi; apply in_seq in Hi; lia))
    as (Hmx2 & Hdone2).
  split; [|split; [exact Hmx2|split; [exact Hlen'|exact Hkeep]]].
  apply Forall_lookup_2. intros i pc Hi.
  pose proof (lookup_lt_Some _ _ _ Hi) as Hlt.
  destruct (Hdone2 i ltac:(apply in_seq; lia)) as [r Hr].
  rewrite Hi in Hr. injection Hr as ->. reflexivity.
Qed.
End Progress.

(** ** Reading all pages *)

Lemma GetAll_loop_paginated {Employee : Type} (L : list Employee) (fuel : nat) :
  forall (page : Z) (acc rest : list Employee),
    1 <= page ->
    rest = skipn (Z.to_nat ((page - 1) * 100)) L ->
    acc ++ rest = L ->
    GetAll_loop (paginate L) 100 fuel page acc
    = if (List.length rest / 100 <? fuel)%nat then Some (Val L) else None.
Proof.
  induction fuel as [|fuel IH]; intros page acc rest Hp Hrest Hacc.
  - reflexivity.
  - cbn [GetAll_loop]. unfold paginate at 1. rewrite <- Hrest.
    change (Z.to_nat 100) with 100%nat.
    rewrite length_firstn.
    destruct (Z.ltb_spec (Z.of_nat (100 `min` List.length rest)) 100) as [Hlt|Hge].
    + assert (Hl : (List.length rest < 100)%nat) by lia.
      rewrite firstn_all2 by lia. rewrite Hacc.
      rewrite Nat.div_small by exact Hl. reflexivity.
    + assert (Hl : (100 <= List.length rest)%nat) by lia.
      rewrite (IH (page + 1) (acc ++ firstn 100 rest) (skipn 100 rest)).
      * rewrite length_skipn.
        assert (Hd : (List.length rest / 100
                      = S ((List.length rest - 100) / 100))%nat).
        { replace (List.length rest) with ((List.length rest - 100) + 1 * 100)%nat at 1
            by lia.
          rewrite Nat.div_add by lia. lia. }
        rewrite Hd.
        destruct (Nat.ltb_spec ((List.length rest - 100) / 100) fuel),
                 (Nat.ltb_spec (S ((List.length rest - 100) / 100)) (S fuel));
          try reflexivity; lia.
      * lia.
      * rewrite Hrest, skipn_skipn. f_equal. lia.
      * rewrite <- app_assoc, firstn_skipn. exact Hacc.
Qed.

(** X27.  Against a server that holds a list of employees and serves it in
    pages of the requested size, [GetAll] returns the whole list, in
    order, after reading [length / 100 + 1] pages: that many iterations
    of its loop are needed and suffice.  A list whose length is a
    multiple of 100 costs one more request, which is answered with an
    empty page. *)
Theorem GetAll_reads_every_page {Employee : Type} (L : list Employee) (fuel : nat) :
  GetAll (paginate L) fuel
  = if (List.length L / 100 <? fuel)%nat then Some (Val L) else None.
Proof.
  unfold GetAll. apply GetAll_loop_paginated; [lia|reflexivity|reflexivity].
Qed.

(** Two hundred employees: two pages do not suffice, the third, empty
    one ends the loop. *)
Lemma GetAll_reads_every_page_witness :
  GetAll (paginate (replicate 200 "employee")) 2 = None
  /\ GetAll (paginate (replicate 200 "employee")) 3
     = Some (Val (replicate 200 "employee")).
Proof. rewrite !GetAll_reads_every_page. split; reflexivity. Defined.
